(** * OML diagram pipeline: identifier codec, graph synthesis, layout
      adapter and pan/zoom controller.

    The development embeds the parts of
      - [src/language/diagram-layout.ts]      (graph synthesizer, layout adapter),
      - [src/extension/webview/diagram-client.ts] (navigation handler, pan/zoom),
      - the language-server entry point (the [oml/navigateToElement] handler)
    that the properties below are about.

    Conventions.  A JavaScript string is a [string]: one [ascii] per UTF-16
    code unit, for code units below 256.  A JavaScript number is a [num]
    (module [JsNumber]): a real number or one of NaN, +Infinity, -Infinity;
    rounding and the sign of zero are not modelled.  A plain object used as
    a dictionary is the finite map of its own properties, read through the
    properties it inherits (module [JsObject]); a [Set] is a finite set. *)

From Stdlib Require Import Ascii String Reals Lra.
From stdpp Require Import gmap strings pretty list.

Local Set Warnings "-register-all".

(* ===================================================================== *)
(** ** String primitives of the JavaScript runtime                        *)
(* ===================================================================== *)

Module JsString.

(** [s.startsWith(p)] *)
Fixpoint startsWith (s p : string) {struct p} : bool :=
  match p, s with
  | EmptyString, _ => true
  | String a p', String b s' => if Ascii.eqb a b then startsWith s' p' else false
  | String _ _, EmptyString => false
  end.

(** [s.slice(n)] for [0 <= n] *)
Fixpoint drop (n : nat) (s : string) : string :=
  match n, s with
  | O, _ => s
  | S n', String _ s' => drop n' s'
  | S _, EmptyString => EmptyString
  end.

(** [s.slice(0, n)] for [0 <= n] *)
Fixpoint take (n : nat) (s : string) : string :=
  match n, s with
  | O, _ => EmptyString
  | S n', String a s' => String a (take n' s')
  | S _, EmptyString => EmptyString
  end.

(** [s.endsWith(p)]: the last [p.length] code units of [s] are [p]. *)
Definition endsWith (s p : string) : bool :=
  (String.length p <=? String.length s)%nat
  && String.eqb (drop (String.length s - String.length p) s) p.

(** [s.includes(p)] *)
Fixpoint includes (s p : string) : bool :=
  startsWith s p
  || match s with
     | EmptyString => false
     | String _ s' => includes s' p
     end.

Definition is_digit (a : ascii) : bool :=
  let n := nat_of_ascii a in (48 <=? n)%nat && (n <=? 57)%nat.

End JsString.

(* ===================================================================== *)
(** ** Regular expressions, as the backtracking matcher runs them         *)
(* ===================================================================== *)

Module Regex.
Import JsString.

(** One member of a character class [[...]]. *)
Inductive class_item :=
| COne (c : ascii)            (* a character, escaped or not *)
| CRange (lo hi : ascii)      (* lo-hi *)
| CDigit.                     (* \d *)

(** What consumes exactly one code unit. *)
Inductive atom :=
| Lit (c : ascii)             (* a literal, e.g. [\[] or [-] *)
| AnyChar                     (* [.]: anything but a line terminator *)
| Digit                       (* [\d] *)
| Class (items : list class_item).

(** The patterns of the two decoders: quantifiers there are only ever
    applied to one-character atoms. *)
Inductive regex :=
| Atom (a : atom)
| PlusLazy (a : atom)         (* a+? *)
| PlusGreedy (a : atom)       (* a+  *)
| Cat (r1 r2 : regex)
| Alt (r1 r2 : regex)
| Group (i : nat) (r : regex) (* the i-th capturing group *)
| Bol                         (* ^ (no m flag: start of input) *)
| Eol                         (* $ (no m flag: end of input) *)
| Eps.                        (* the empty pattern *)

Definition item_matches (it : class_item) (x : ascii) : bool :=
  match it with
  | COne c => Ascii.eqb c x
  | CRange lo hi =>
      (nat_of_ascii lo <=? nat_of_ascii x)%nat && (nat_of_ascii x <=? nat_of_ascii hi)%nat
  | CDigit => is_digit x
  end.

Definition is_line_terminator (x : ascii) : bool :=
  Ascii.eqb x "010"%char || Ascii.eqb x "013"%char.

Definition atom_matches (a : atom) (x : ascii) : bool :=
  match a with
  | Lit c => Ascii.eqb c x
  | AnyChar => negb (is_line_terminator x)
  | Digit => is_digit x
  | Class items => existsb (fun it => item_matches it x) items
  end.

(** Captures: group number to the text it matched last. *)
Abbreviation caps := (gmap nat string).

(** A matcher state: what is left of the input, and the captures. *)
Abbreviation mstate := (string * caps)%type.

(** [a+?] from [s]: every way to stop, shortest first. *)
Fixpoint plus_lazy (a : atom) (s : string) (c : caps) : list mstate :=
  match s with
  | String x s' =>
      if atom_matches a x then (s', c) :: plus_lazy a s' c else []
  | EmptyString => []
  end.

(** [a+] from [s]: every way to stop, longest first. *)
Fixpoint plus_greedy (a : atom) (s : string) (c : caps) : list mstate :=
  match s with
  | String x s' =>
      if atom_matches a x then plus_greedy a s' c ++ [(s', c)] else []
  | EmptyString => []
  end.

(** [run r inp st]: all the ways [r] matches at [st], in the order the
    backtracking matcher tries them.  [inp] is the whole input (for [^]). *)
Fixpoint run (r : regex) (inp : string) (st : mstate) : list mstate :=
  match r with
  | Atom a =>
      match st.1 with
      | String x s' => if atom_matches a x then [(s', st.2)] else []
      | EmptyString => []
      end
  | PlusLazy a => plus_lazy a st.1 st.2
  | PlusGreedy a => plus_greedy a st.1 st.2
  | Cat r1 r2 => st' ← run r1 inp st; run r2 inp st'
  | Alt r1 r2 => run r1 inp st ++ run r2 inp st
  | Group i r1 =>
      (fun st' : mstate =>
         (st'.1, <[i := take (String.length st.1 - String.length st'.1) st.1]> st'.2))
        <$> run r1 inp st
  | Bol => if (String.length st.1 =? String.length inp)%nat then [st] else []
  | Eol => match st.1 with EmptyString => [st] | _ => [] end
  | Eps => [st]
  end.

(** A successful match: where it starts, what follows it, the captures. *)
Record match_result := MatchResult {
  m_index : nat;        (* match.index *)
  m_rest : string;      (* the input after the match *)
  m_caps : caps
}.

(** The search of [RegExp.prototype.exec] without the g flag: start
    positions from the left, the first way that succeeds at the first
    position that has one. *)
Fixpoint exec_from (r : regex) (inp s : string) : option match_result :=
  match head (run r inp (s, ∅)) with
  | Some st' => Some (MatchResult (String.length inp - String.length s) st'.1 st'.2)
  | None =>
      match s with
      | String _ s' => exec_from r inp s'
      | EmptyString => None
      end
  end.

Definition exec (r : regex) (inp : string) : option match_result :=
  exec_from r inp inp.

(** [match[i]] for a match array: [None] is [undefined]. *)
Definition group (m : match_result) (i : nat) : option string := m_caps m !! i.

(** [inp.replace(r, '')] for a pattern without the g flag. *)
Definition replace_empty (r : regex) (inp : string) : string :=
  match exec r inp with
  | Some m => take (m_index m) inp +:+ m_rest m
  | None => inp
  end.

(** Concatenation of the parts of a pattern, left to right. *)
Fixpoint sequence (rs : list regex) : regex :=
  match rs with
  | [] => Eps
  | [r] => r
  | r :: rs' => Cat r (sequence rs')
  end.

(** A literal word, character by character. *)
Definition word (w : string) : regex :=
  sequence ((fun c => Atom (Lit c)) <$> list_ascii_of_string w).

(** Whether the pattern has a capturing group numbered [i]. *)
Fixpoint hasGroup (i : nat) (r : regex) : bool :=
  match r with
  | Cat r1 r2 | Alt r1 r2 => hasGroup i r1 || hasGroup i r2
  | Group j r1 => (i =? j)%nat || hasGroup i r1
  | _ => false
  end.

(** The pattern with the parentheses of group [i] read as [(?: )]. *)
Fixpoint withoutGroup (i : nat) (r : regex) : regex :=
  match r with
  | Cat r1 r2 => Cat (withoutGroup i r1) (withoutGroup i r2)
  | Alt r1 r2 => Alt (withoutGroup i r1) (withoutGroup i r2)
  | Group j r1 => if (i =? j)%nat then withoutGroup i r1 else Group j (withoutGroup i r1)
  | _ => r
  end.


End Regex.

(* ===================================================================== *)
(** ** JavaScript numbers, without rounding                               *)
(* ===================================================================== *)

Module JsNumber.
Local Open Scope R_scope.

Inductive num :=
| NaN
| PosInf
| NegInf
| Fin (r : R).

Definition of_nat (n : nat) : num := Fin (INR n).

Definition neg (a : num) : num :=
  match a with
  | NaN => NaN
  | PosInf => NegInf
  | NegInf => PosInf
  | Fin x => Fin (- x)
  end.

Definition add (a b : num) : num :=
  match a, b with
  | NaN, _ | _, NaN => NaN
  | PosInf, NegInf | NegInf, PosInf => NaN
  | PosInf, _ | _, PosInf => PosInf
  | NegInf, _ | _, NegInf => NegInf
  | Fin x, Fin y => Fin (x + y)
  end.

Definition sub (a b : num) : num := add a (neg b).

(** an infinity of sign [pos] times or divided by the finite [x] *)
Definition inf_signed (pos : bool) (x : R) : num :=
  if Rlt_dec 0 x then if pos then PosInf else NegInf
  else if pos then NegInf else PosInf.

Definition mul (a b : num) : num :=
  match a, b with
  | NaN, _ | _, NaN => NaN
  | Fin x, Fin y => Fin (x * y)
  | PosInf, PosInf | NegInf, NegInf => PosInf
  | PosInf, NegInf | NegInf, PosInf => NegInf
  | PosInf, Fin x | Fin x, PosInf => if Req_dec_T x 0 then NaN else inf_signed true x
  | NegInf, Fin x | Fin x, NegInf => if Req_dec_T x 0 then NaN else inf_signed false x
  end.

(** [a / b]; a zero divisor is +0. *)
Definition div (a b : num) : num :=
  match a, b with
  | NaN, _ | _, NaN => NaN
  | Fin x, Fin y =>
      if Req_dec_T y 0
      then if Req_dec_T x 0 then NaN else inf_signed true x
      else Fin (x / y)
  | Fin _, (PosInf | NegInf) => Fin 0
  | (PosInf | NegInf), (PosInf | NegInf) => NaN
  | PosInf, Fin y => if Req_dec_T y 0 then PosInf else inf_signed true y
  | NegInf, Fin y => if Req_dec_T y 0 then NegInf else inf_signed false y
  end.

(** [Math.max(a, b)] *)
Definition max (a b : num) : num :=
  match a, b with
  | NaN, _ | _, NaN => NaN
  | PosInf, _ | _, PosInf => PosInf
  | NegInf, y => y
  | x, NegInf => x
  | Fin x, Fin y => Fin (Rmax x y)
  end.

(** [Math.min(a, b)] *)
Definition min (a b : num) : num :=
  match a, b with
  | NaN, _ | _, NaN => NaN
  | NegInf, _ | _, NegInf => NegInf
  | PosInf, y => y
  | x, PosInf => x
  | Fin x, Fin y => Fin (Rmin x y)
  end.

(** [Math.max(...xs)]: -Infinity for no argument. *)
Definition max_list (xs : list num) : num := foldr max NegInf xs.

(** [a === b] *)
Definition strict_eq (a b : num) : bool :=
  match a, b with
  | PosInf, PosInf | NegInf, NegInf => true
  | Fin x, Fin y => if Req_dec_T x y then true else false
  | _, _ => false
  end.

(** [Math.sqrt(a)] *)
Definition sqrt (a : num) : num :=
  match a with
  | NaN | NegInf => NaN
  | PosInf => PosInf
  | Fin x => if Rlt_dec x 0 then NaN else Fin (R_sqrt.sqrt x)
  end.

(** [Math.hypot(a, b)] *)
Definition hypot (a b : num) : num :=
  match a, b with
  | (PosInf | NegInf), _ | _, (PosInf | NegInf) => PosInf
  | NaN, _ | _, NaN => NaN
  | Fin x, Fin y => Fin (R_sqrt.sqrt (x * x + y * y))
  end.

(** [Math.exp(a)] *)
Definition exp (a : num) : num :=
  match a with
  | NaN => NaN
  | PosInf => PosInf
  | NegInf => Fin 0
  | Fin x => Fin (Rtrigo_def.exp x)
  end.

(** [lo <= a <= hi] as JavaScript compares: false as soon as NaN is involved *)
Definition between (lo hi : R) (a : num) : Prop :=
  match a with
  | Fin x => lo <= x <= hi
  | _ => False
  end.

End JsNumber.

(* ===================================================================== *)
(** ** A plain object used as a table of counts                           *)
(* ===================================================================== *)

Module JsObject.
Import JsNumber.

(** The property names every plain object inherits from [Object.prototype]. *)
Definition objectPrototypeKeys : list string :=
  ["constructor"; "__defineGetter__"; "__defineSetter__"; "hasOwnProperty";
   "__lookupGetter__"; "__lookupSetter__"; "isPrototypeOf"; "propertyIsEnumerable";
   "toString"; "valueOf"; "__proto__"; "toLocaleString"].

(** What a property of such a table holds: a count, or a value that is no
    number (an inherited function or object, or the string that adding 1
    to one of these gives). *)
Inductive value :=
| VNumber (n : nat)
| VOther.

(** The own properties of the object. *)
Abbreviation object := (gmap string value).

(** [o[k]]: the own property, else the inherited one, else undefined. *)
Definition get (o : object) (k : string) : option value :=
  match o !! k with
  | Some v => Some v
  | None => if bool_decide (k ∈ objectPrototypeKeys) then Some VOther else None
  end.

(** [o[k] = v] for a [v] that is a number or a string: the inherited
    setter of [__proto__] ignores such a [v]; any other name becomes an
    own property. *)
Definition set (o : object) (k : string) (v : value) : object :=
  if String.eqb k "__proto__" then o else <[k := v]> o.

(** [v + 1]: the next count, or a string. *)
Definition addOne (v : value) : value :=
  match v with
  | VNumber n => VNumber (n + 1)
  | VOther => VOther
  end.

(** [o[k] - 1] for what [o[k]] gave. *)
Definition subOne (v : option value) : num :=
  match v with
  | Some (VNumber n) => sub (of_nat n) (Fin 1)
  | Some VOther | None => NaN
  end.

End JsObject.

(* ===================================================================== *)
(** ** The Sprotty model: one record for every element of the graph       *)
(* ===================================================================== *)

Module SModel.
Import JsNumber.

Record Point := mkPoint { pt_x : num; pt_y : num }.

(** The value of a layout option.  [`${w},${h}`] of a label size is kept
    as the two numbers it prints. *)
Inductive optval :=
| OText (s : string)
| OSize (w h : num).

(** An element as a JavaScript object: an absent property is [None]; an
    absent [children] array is the empty list. *)
Inductive SElement := mkElement {
  el_id : string;
  el_type : string;
  el_kind : option string;
  el_hasMarker : option bool;
  el_sourceId : option string;
  el_targetId : option string;
  el_labelIndex : option num;
  el_size : option (num * num);
  el_types : option (list string);
  el_props : option (list string);
  el_cssClasses : option (list string);
  el_layoutOptions : option (gmap string optval);
  el_text : option string;
  el_position : option Point;
  el_routingPoints : option (list Point);
  el_points : option (list Point);
  el_bendPoints : option (list Point);
  el_children : list SElement
}.

(** [findElementById(model, id)] of the webview, for a model that is not
    null: depth first, the first element whose id is [id]. *)
Fixpoint findElementById (model : SElement) (id : string) : option SElement :=
  if String.eqb (el_id model) id then Some model
  else
    (fix in_children (cs : list SElement) : option SElement :=
       match cs with
       | [] => None
       | child :: cs' =>
           match findElementById child id with
           | Some found => Some found
           | None => in_children cs'
           end
       end) (el_children model).

(** No position, and no route, anywhere in the element. *)
Fixpoint unpositioned (e : SElement) : bool :=
  match el_position e, el_routingPoints e, el_points e, el_bendPoints e with
  | None, None, None, None => forallb unpositioned (el_children e)
  | _, _, _, _ => false
  end.

End SModel.

(* ===================================================================== *)
(** ** Identifier decoding in the webview (diagram-client.ts)             *)
(* ===================================================================== *)

Module NavigationHandler.
Import JsString Regex SModel.

(** [/-edge[12]$/] *)
Definition relationEdgeSuffix : regex :=
  sequence [word "-edge"; Atom (Class [COne "1"; COne "2"]); Eol].

(** [/^(.+?)-(?:source|target)-edge\d+$/] *)
Definition descRelPattern : regex :=
  sequence [Bol; Group 1 (PlusLazy AnyChar); word "-";
            Alt (word "source") (word "target"); word "-edge"; PlusGreedy Digit; Eol].

(** [/^\[(.+?)\]<->\[\d+\]-edge\d+$/] *)
Definition eqEdgePattern : regex :=
  sequence [Bol; word "["; Group 1 (PlusLazy AnyChar); word "]<->["; PlusGreedy Digit;
            word "]-edge"; PlusGreedy Digit; Eol].

(** [/^\[(.+?)\]<->\[\d+\]$/] *)
Definition eqNodePattern : regex :=
  sequence [Bol; word "["; Group 1 (PlusLazy AnyChar); word "]<->["; PlusGreedy Digit;
            word "]"; Eol].

(** [/^\[(.+?)\]->\[.+?\]$/] *)
Definition specPattern : regex :=
  sequence [Bol; word "["; Group 1 (PlusLazy AnyChar); word "]->["; PlusLazy AnyChar;
            word "]"; Eol].

(** [/^\[(.+?)\]<->\[.+?\]$/] *)
Definition directEqPattern : regex :=
  sequence [Bol; word "["; Group 1 (PlusLazy AnyChar); word "]<->["; PlusLazy AnyChar;
            word "]"; Eol].

(** [node?.type?.startsWith('node') && node.kind === k] *)
Definition isNodeOfKind (node : option SElement) (k : string) : bool :=
  match node with
  | Some n => startsWith (el_type n) "node" && bool_decide (el_kind n = Some k)
  | None => false
  end.

(** [str.match(r)] then [m[1]], when the pattern has a first group that
    always takes part. *)
Definition capture1 (r : regex) (s : string) : option string :=
  m ← exec r s; group m 1.

(** [resolveNavigationId(searchId)]; [model] is what [modelGetter()]
    returns, [None] for null. *)
Definition resolveNavigationId (model : option SElement) (searchId : string) : string :=
  match model with
  | None => searchId
  | Some model =>
      (* Relation entity edge *)
      let relationEntity :=
        if endsWith searchId "-edge1" || endsWith searchId "-edge2" then
          let qualifiedName := replace_empty relationEdgeSuffix searchId in
          let node := findElementById model qualifiedName in
          if isNodeOfKind node "relation-entity" then Some qualifiedName else None
        else None in
      match relationEntity with
      | Some qualifiedName => qualifiedName
      | None =>
          (* Description relation instance edge *)
          let relationInstance :=
            match capture1 descRelPattern searchId with
            | Some qualifiedName =>
                let node := findElementById model qualifiedName in
                if isNodeOfKind node "relation-instance" then Some qualifiedName else None
            | None => None
            end in
          match relationInstance with
          | Some qualifiedName => qualifiedName
          | None =>
              (* Equivalence axiom edge *)
              match capture1 eqEdgePattern searchId with
              | Some sub => sub
              | None =>
                  (* Equivalence axiom node *)
                  match capture1 eqNodePattern searchId with
                  | Some sub => sub
                  | None =>
                      (* Specialization edge *)
                      match capture1 specPattern searchId with
                      | Some sub => sub
                      | None =>
                          (* Direct equivalence edge *)
                          match capture1 directEqPattern searchId with
                          | Some sub => sub
                          | None => searchId
                          end
                      end
                  end
              end
          end
      end
  end.

End NavigationHandler.

(* ===================================================================== *)
(** ** Identifier decoding in the language server                         *)
(* ===================================================================== *)

Module NavigateToElement.
Import JsString Regex.

(** The quotation mark, which the patterns below escape. *)
Definition dquote : ascii := "034"%char.
(** The backslash. *)
Definition bslash : ascii := "092"%char.

(** The class after the first backslash of the second to fourth
    patterns: its members are ( . + ? ) and the quotation mark. *)
Definition classA : atom :=
  Class [COne "("; COne "."; COne "+"; COne "?"; COne ")"; COne dquote].

(** [/^\\[(.+?)\")->\\[.+?\"]$/]: start, a backslash, one character of
    the class that runs from [(] to the last []], end.  Inside the
    class, [)->] is the range from [)] to [>]. *)
Definition specPattern : regex :=
  sequence [Bol; Atom (Lit bslash);
            Atom (Class [COne "("; COne "."; COne "+"; COne "?"; COne ")"; COne dquote;
                         CRange ")" ">"; COne bslash; COne "["; COne "."; COne "+";
                         COne "?"; COne dquote]);
            Eol].

(** [/^\\[(.+?)\"]<->\\[.+?\"]$/] *)
Definition directEqPattern : regex :=
  sequence [Bol; Atom (Lit bslash); Atom classA; word "<->"; Atom (Lit bslash);
            Atom (Class [COne "."; COne "+"; COne "?"; COne dquote]); Eol].

(** [/^\\[(.+?)\"]<->\\[\d+\"]$/] *)
Definition eqNodePattern : regex :=
  sequence [Bol; Atom (Lit bslash); Atom classA; word "<->"; Atom (Lit bslash);
            Atom (Class [CDigit; COne "+"; COne dquote]); Eol].

(** [/^\\[(.+?)\"]<->\\[\d+\"]-edge\d+$/] *)
Definition eqEdgePattern : regex :=
  sequence [Bol; Atom (Lit bslash); Atom classA; word "<->"; Atom (Lit bslash);
            Atom (Class [CDigit; COne "+"; COne dquote]); word "-edge"; PlusGreedy Digit; Eol].

(** [/-edge[12]$/] *)
Definition relationEdgeSuffix : regex :=
  sequence [word "-edge"; Atom (Class [COne "1"; COne "2"]); Eol].

(** [/^(.+?)-(source|target)-edge\d+$/] *)
Definition descRelPattern : regex :=
  sequence [Bol; Group 1 (PlusLazy AnyChar); word "-";
            Group 2 (Alt (word "source") (word "target")); word "-edge"; PlusGreedy Digit; Eol].

(** The test that sends an identifier to the search for an ontology by
    namespace first; when that search finds nothing, or the test fails, the
    handler goes on to the decoding step below. *)
Definition looksLikeNamespace (elementId : string) : bool :=
  includes elementId "://" || startsWith elementId "http" || includes elementId "/".

(** The decoding step of the handler (from [let match = ...] to the last
    [else]): the value [memberName] holds after it.  [None] is
    [undefined], which is what [match[1]] is for a pattern without a
    group; the handler then fails on [memberName.includes] and answers
    null. *)
Definition decodeMemberName (elementId : string) : option string :=
  match exec specPattern elementId with
  | Some m => group m 1
  | None =>
      match exec directEqPattern elementId with
      | Some m => group m 1
      | None =>
          match exec eqNodePattern elementId with
          | Some m => group m 1
          | None =>
              match exec eqEdgePattern elementId with
              | Some m => group m 1
              | None =>
                  if endsWith elementId "-edge1" || endsWith elementId "-edge2"
                  then Some (replace_empty relationEdgeSuffix elementId)
                  else
                    match exec descRelPattern elementId with
                    | Some m => group m 1
                    | None => Some elementId
                    end
              end
          end
      end
  end.

End NavigateToElement.

(* ===================================================================== *)
(** ** The decode table of the specification                              *)
(* ===================================================================== *)

(** The table of the specification, transcribed row by row, and what it
    means to read an identifier by a row.  The rows are not taken from
    the decoders: the regular expressions of the decoders are compared
    with them in the properties. *)
Module DecodeTable.
Import JsString SModel.

(** What the patterns of the table are written with. *)
Inductive token :=
| Sym (w : string)          (* the characters of [w], as they stand *)
| Name                      (* a member name: the A, B and Q of the table *)
| Number                    (* the # of the table: an integer, in digits *)
| OneOf (w1 w2 : string).   (* either of two words *)

Definition pattern := list token.

(** [[A]->[B]] *)
Definition specialization : pattern := [Sym "["; Name; Sym "]->["; Name; Sym "]"].
(** [[A]<->[B]] *)
Definition directEquivalence : pattern := [Sym "["; Name; Sym "]<->["; Name; Sym "]"].
(** [[A]<->[#]] *)
Definition equivalenceGroupNode : pattern := [Sym "["; Name; Sym "]<->["; Number; Sym "]"].
(** [[A]<->[#]-edge#] *)
Definition equivalenceGroupEdge : pattern :=
  [Sym "["; Name; Sym "]<->["; Number; Sym "]-edge"; Number].
(** [Q-edge1], [Q-edge2] *)
Definition relationEntityEdge : pattern := [Name; Sym "-edge"; OneOf "1" "2"].
(** [Q-source-edge#], [Q-target-edge#] *)
Definition relationInstanceEdge : pattern :=
  [Name; Sym "-"; OneOf "source" "target"; Sym "-edge"; Number].

(** The rows, in the order of the table. *)
Definition tableOrder : list pattern :=
  [specialization; directEquivalence; equivalenceGroupNode; equivalenceGroupEdge;
   relationEntityEdge; relationInstanceEdge].

(** The ways to take a name off the front of [s]: a name is any text
    that is not empty; each way with what is left, the shortest name
    first. *)
Fixpoint names (s : string) : list (string * string) :=
  match s with
  | EmptyString => []
  | String x s' =>
      (String x "", s') :: ((fun nr : string * string => (String x nr.1, nr.2)) <$> names s')
  end.

(** The ways to take a number off the front of [s]: one or more decimal
    digits; all the digits there are first. *)
Fixpoint numbers (s : string) : list (string * string) :=
  match s with
  | EmptyString => []
  | String x s' =>
      if is_digit x
      then ((fun nr : string * string => (String x nr.1, nr.2)) <$> numbers s')
             ++ [(String x "", s')]
      else []
  end.

(** The ways to read the whole of [s] as the pattern [p]: for each, the
    names read, in order. *)
Fixpoint fits (p : pattern) (s : string) : list (list string) :=
  match p with
  | [] => match s with EmptyString => [[]] | String _ _ => [] end
  | Sym w :: p' => if startsWith s w then fits p' (drop (String.length w) s) else []
  | Name :: p' => nr ← names s; (fun ns => nr.1 :: ns) <$> fits p' nr.2
  | Number :: p' => nr ← numbers s; fits p' nr.2
  | OneOf w1 w2 :: p' =>
      (if startsWith s w1 then fits p' (drop (String.length w1) s) else [])
      ++ (if startsWith s w2 then fits p' (drop (String.length w2) s) else [])
  end.

(** One row as a decoder: the member name when the identifier has the
    row's form, which is the first name of the pattern (the A or the Q),
    in the first way the identifier fits. *)
Definition row := string -> option string.

Definition reads (p : pattern) : row := fun id => head (fits p id) ≫= head.

(** The first row that applies, in the order given. *)
Fixpoint first_match (rows : list row) (id : string) : option string :=
  match rows with
  | [] => None
  | r :: rows' =>
      match r id with
      | Some name => Some name
      | None => first_match rows' id
      end
  end.

(** Decoding as the specification words it: the rows in table order,
    the identifier itself when none applies. *)
Definition decode (id : string) : string :=
  default id (first_match (reads <$> tableOrder) id).

(** A row that only applies when the model has a node of the decoded
    name and of the given kind. *)
Definition gated (r : row) (model : SElement) (kind : string) : row := fun id =>
  match r id with
  | Some name =>
      if NavigationHandler.isNodeOfKind (findElementById model name) kind
      then Some name else None
  | None => None
  end.

(** The rows in the order of the webview. *)
Definition webviewOrder (model : SElement) : list row :=
  [gated (reads relationEntityEdge) model "relation-entity";
   gated (reads relationInstanceEdge) model "relation-instance";
   reads equivalenceGroupEdge; reads equivalenceGroupNode;
   reads specialization; reads directEquivalence].

End DecodeTable.

(* ===================================================================== *)
(** ** From the rows of the table to regular expressions                  *)
(* ===================================================================== *)

(** What a pattern of the table becomes when it is written as the
    decoders write theirs: the characters as they stand, a name as [.+?],
    a number as [\d+], the first name as the first capturing group, the
    whole between [^] and [$]. *)
Module TableRegex.
Import Regex DecodeTable.

Definition tokenRegex (t : token) : regex :=
  match t with
  | Sym w => word w
  | Name => PlusLazy AnyChar
  | Number => PlusGreedy Digit
  | OneOf w1 w2 => Alt (word w1) (word w2)
  end.

(** [grouped] tells that the first name has been passed. *)
Fixpoint regexes (grouped : bool) (p : pattern) : list regex :=
  match p with
  | [] => []
  | Name :: p' =>
      (if grouped then tokenRegex Name else Group 1 (tokenRegex Name)) :: regexes true p'
  | t :: p' => tokenRegex t :: regexes grouped p'
  end.

Definition asRegex (p : pattern) : regex :=
  sequence (Bol :: regexes false p ++ [Eol]).

End TableRegex.

(* ===================================================================== *)
(** ** Graph synthesizer and layout adapter (diagram-layout.ts)           *)
(* ===================================================================== *)

Module DiagramLayout.
Import JsString JsNumber SModel.

(** *** The semantic diagram model, as [diagramToSprotty] reads it *)

Record DiagramNode := mkDiagramNode {
  n_id : string;
  n_kind : string;
  n_label : option string;
  n_types : option (list string);
  n_properties : option (list string);
  n_startLine : option nat;
  n_startColumn : option nat;
  n_endLine : option nat;
  n_endColumn : option nat
}.

Record DiagramEdge := mkDiagramEdge {
  e_id : option string;
  e_kind : string;
  e_source : string;
  e_target : string;
  e_label : option string;
  e_hasMarker : option bool;
  e_startLine : option nat;
  e_startColumn : option nat;
  e_endLine : option nat;
  e_endColumn : option nat
}.

Record DiagramModel := mkDiagramModel {
  nodes : list DiagramNode;
  edges : list DiagramEdge
}.

(** *** Layout configuration *)

Abbreviation options := (gmap string string).

(** What a [DefaultLayoutConfigurator] subclass overrides here. *)
Record LayoutConfigurator := mkConfigurator {
  graphOptions : option options;
  labelOptions : option options
}.

(** [class OmlLayoutConfigurator] *)
Definition OmlLayoutConfigurator : LayoutConfigurator := {|
  graphOptions := Some (list_to_map [
    ("org.eclipse.elk.algorithm", "org.eclipse.elk.layered");
    ("org.eclipse.elk.direction", "UP");
    ("org.eclipse.elk.layered.layering.strategy", "LONGEST_PATH");
    ("org.eclipse.elk.layered.cycleBreaking.strategy", "DEPTH_FIRST");
    ("org.eclipse.elk.layered.considerModelOrder.strategy", "PREFER_NODES");
    ("org.eclipse.elk.layered.nodePlacement.strategy", "BRANDES_KOEPF");
    ("org.eclipse.elk.layered.nodePlacement.bk.fixedAlignment", "CENTER");
    ("org.eclipse.elk.edgeRouting", "POLYLINE");
    ("org.eclipse.elk.layered.edgeRouting", "POLYLINE");
    ("org.eclipse.elk.layered.mergeEdges", "false");
    ("org.eclipse.elk.layered.crossingMinimization.separateEdgeGroups", "true");
    ("org.eclipse.elk.layered.spacing.nodeNodeBetweenLayers", "72");
    ("org.eclipse.elk.spacing.nodeNode", "28");
    ("org.eclipse.elk.spacing.edgeNode", "24");
    ("org.eclipse.elk.spacing.edgeEdge", "18");
    ("org.eclipse.elk.spacing.portPort", "12");
    ("org.eclipse.elk.insideSelfLoops.activate", "true");
    ("org.eclipse.elk.spacing.nodeSelfLoop", "48");
    ("org.eclipse.elk.layered.edgeRouting.selfLoopDistribution", "EQUALLY");
    ("org.eclipse.elk.layered.edgeRouting.selfLoopOrdering", "STACKED");
    ("org.eclipse.elk.layered.edgeRouting.selfLoopPlacement", "NORTH_SEQUENCE")
  ]);
  labelOptions := Some (list_to_map [
    ("org.eclipse.elk.nodeLabels.placement", "INSIDE, H_CENTER, V_TOP")
  ])
|}.

(** *** [diagramToSprotty] *)

Definition nodeWidth : num := Fin 120.
Definition baseNodeHeight : num := Fin 56.

(** [${x}] for a line or column number that may be undefined *)
Definition show (x : option nat) : string :=
  match x with
  | Some n => pretty n
  | None => "undefined"
  end.

(** [`src-${startLine}-${startColumn}-${endLine}-${endColumn}`], pushed
    when [startLine] is defined; [undefined] for an empty array. *)
Definition srcClasses (startLine startColumn endLine endColumn : option nat)
  : option (list string) :=
  match startLine with
  | Some _ =>
      Some ["src-" +:+ show startLine +:+ "-" +:+ show startColumn +:+ "-"
            +:+ show endLine +:+ "-" +:+ show endColumn]
  | None => None
  end.

Definition textOptions (kvs : list (string * string)) : gmap string optval :=
  list_to_map ((fun kv : string * string => (kv.1, OText kv.2)) <$> kvs).

Definition label (id text : string) (opts : gmap string optval) : SElement :=
  mkElement id "label" None None None None None None None None None
            (Some opts) (Some text) None None None None [].

(** The body of [model.nodes.forEach]: the node pushed for [n], none for
    a node of kind ['relation']. *)
Definition createNode (n : DiagramNode) : option SElement :=
  if String.eqb (n_kind n) "relation" then None
  else
    let avgCharPx := Fin 7.5 in
    let paddingX := Fin 24 in
    let labelText := default (n_id n) (n_label n) in
    let types := default [] (n_types n) in
    let properties := default [] (n_properties n) in
    let typesText :=
      if (0 <? length types)%nat
      then String "171" (String.concat ", " types +:+ String "187" "")
      else "" in
    let allTexts :=
      filter (fun t => (0 < String.length t)%nat) (typesText :: labelText :: properties) in
    let maxTextLength := max_list ((fun t => of_nat (String.length t)) <$> allTexts) in
    let width := max nodeWidth (min (Fin 600) (add paddingX (mul avgCharPx maxTextLength))) in
    let propertyLineHeight := Fin 16 in
    let typesLineHeight := if (0 <? length types)%nat then Fin 16 else Fin 0 in
    let headerHeight := Fin 32 in
    let propsHeight := mul (of_nat (length properties)) propertyLineHeight in
    let height :=
      max baseNodeHeight (add (add (add typesLineHeight headerHeight) propsHeight) (Fin 8)) in
    let cssClasses :=
      srcClasses (n_startLine n) (n_startColumn n) (n_endLine n) (n_endColumn n) in
    Some (mkElement (n_id n) "node:rect" (Some (n_kind n)) None None None None
            (Some (width, height)) (Some types) (Some properties) cssClasses
            (Some (textOptions [("org.eclipse.elk.portConstraints", "FREE")]))
            None None None None None
            [label (n_id n +:+ "_label") labelText
               (<["org.eclipse.elk.labelSize" := OSize (sub width (Fin 20)) (Fin 20)]>
                  (textOptions [("org.eclipse.elk.nodeLabels.offsetY",
                                 if (0 <? length types)%nat then "28" else "12")]))]).

Definition createNodes (ns : list DiagramNode) : list SElement :=
  omap createNode ns.

(** The loop of [makeUniqueId]: [id] is the candidate, [i] the next
    suffix.  [fuel] bounds the iterations; [None] when it runs out. *)
Fixpoint uniqueIdLoop (fuel : nat) (usedIds : gset string) (base id : string) (i : nat)
  : option string :=
  if bool_decide (id ∈ usedIds) then
    match fuel with
    | O => None
    | S fuel' => uniqueIdLoop fuel' usedIds base (base +:+ ":" +:+ pretty i) (S i)
    end
  else Some id.

(** [makeUniqueId(base)]: the id, and [usedIds] after [usedIds.add(id)].
    As many iterations as [usedIds] has members are enough
    (lemma [uniqueIdLoop_total]). *)
Definition makeUniqueId (usedIds : gset string) (base : string) : string * gset string :=
  let id := default base (uniqueIdLoop (size usedIds) usedIds base base 1) in
  (id, {[id]} ∪ usedIds).

Definition placementKey : string := "org.eclipse.elk.edgeLabels.placement".

(** The body of [model.edges.forEach]: the edge pushed for [e], and the
    two tables after it.  [selfLoopAssigned] is the plain object [{}] the
    loop uses as a dictionary from node id to count. *)
Definition createEdge (e : DiagramEdge) (usedIds : gset string)
    (selfLoopAssigned : JsObject.object)
  : SElement * gset string * JsObject.object :=
  let isSpec := String.eqb (e_kind e) "specialization" || String.eqb (e_kind e) "equivalence" in
  let isSelfLoop := String.eqb (e_source e) (e_target e) in
  let baseLayoutOptions :=
    if isSpec
    then textOptions [("org.eclipse.elk.edge.type", "GENERALIZATION");
                      ("org.eclipse.elk.edge.source.side", "NORTH");
                      ("org.eclipse.elk.edge.target.side", "SOUTH")]
    else textOptions [("org.eclipse.elk.edge.type", "ASSOCIATION");
                      ("org.eclipse.elk.edge.routing", "POLYLINE")] in
  let '(selfLoopOptions, selfLoopAssigned) :=
    if isSelfLoop then
      let count := default (JsObject.VNumber 0) (JsObject.get selfLoopAssigned (e_source e)) in
      (textOptions [("org.eclipse.elk.layered.edgeRouting.selfLoopDistribution", "EQUALLY");
                    ("org.eclipse.elk.layered.edgeRouting.selfLoopPlacement", "NORTH_SEQUENCE");
                    ("org.eclipse.elk.spacing.nodeSelfLoop", "56")],
       JsObject.set selfLoopAssigned (e_source e) (JsObject.addOne count))
    else (∅, selfLoopAssigned) in
  let '(id, usedIds) :=
    makeUniqueId usedIds
      (match e_id e with
       | Some i => if String.eqb i "" then e_source e +:+ "->" +:+ e_target e else i
       | None => e_source e +:+ "->" +:+ e_target e
       end) in
  let edgeCssClasses :=
    srcClasses (e_startLine e) (e_startColumn e) (e_endLine e) (e_endColumn e) in
  let labelText :=
    match e_label e with
    | Some l => if String.eqb l "" then None else Some l
    | None => None
    end in
  let labelWidth :=
    match labelText with
    | Some l =>
        max (Fin 60) (min (Fin 300) (add (mul (of_nat (String.length l)) (Fin 7.5)) (Fin 8)))
    | None => Fin 60
    end in
  let labelHeight := Fin 14 in
  (mkElement id "edge" (Some (e_kind e)) (e_hasMarker e)
     (Some (e_source e)) (Some (e_target e))
     (Some (if isSelfLoop
            then JsObject.subOne (JsObject.get selfLoopAssigned (e_source e))
            else Fin 0))
     None None None edgeCssClasses
     (Some (selfLoopOptions ∪ baseLayoutOptions ∪ textOptions [(placementKey, "CENTER")]))
     None None None None None
     (match labelText with
      | Some l =>
          [label (id +:+ "_label") l
             (<["org.eclipse.elk.labelSize" := OSize labelWidth labelHeight]>
                (textOptions [(placementKey, "CENTER");
                              ("org.eclipse.elk.edgeLabels.inline", "false");
                              ("org.eclipse.elk.edgeLabels.side", "ABOVE")]))]
      | None => []
      end),
   usedIds, selfLoopAssigned).

(** [model.edges.forEach], in edge-array order. *)
Fixpoint createEdges (es : list DiagramEdge) (usedIds : gset string)
    (selfLoopAssigned : JsObject.object) : list SElement :=
  match es with
  | [] => []
  | e :: es' =>
      let '(edge, usedIds', selfLoopAssigned') := createEdge e usedIds selfLoopAssigned in
      edge :: createEdges es' usedIds' selfLoopAssigned'
  end.

Definition synthNodes (model : DiagramModel) : list SElement := createNodes (nodes model).

Definition synthEdges (model : DiagramModel) : list SElement :=
  createEdges (edges model) (list_to_set (el_id <$> synthNodes model)) ∅.

(** [diagramToSprotty(model)]; the warnings it logs are not modelled. *)
Definition diagramToSprotty (model : DiagramModel) : SElement :=
  mkElement "root" "graph" None None None None None None None None None
    (Some (textOptions [("org.eclipse.elk.algorithm", "org.eclipse.elk.layered");
                        ("org.eclipse.elk.direction", "DOWN")]))
    None None None None None
    (synthNodes model ++ synthEdges model).

(** *** [computeLaidOutSModelForUri] *)

(** How a call ends: with a value, or with a thrown [E]. *)
Inductive completion (E A : Type) :=
| Normal (a : A)
| Throw (e : E).
Arguments Normal {E A} a.
Arguments Throw {E A} e.

(** [try { body } catch (err) { handler }] *)
Definition try_catch {E A} (body : completion E A) (handler : E -> completion E A)
  : completion E A :=
  match body with
  | Normal a => Normal a
  | Throw e => handler e
  end.

Definition withPosition (e : SElement) (p : Point) : SElement :=
  mkElement (el_id e) (el_type e) (el_kind e) (el_hasMarker e) (el_sourceId e)
    (el_targetId e) (el_labelIndex e) (el_size e) (el_types e) (el_props e)
    (el_cssClasses e) (el_layoutOptions e) (el_text e) (Some p)
    (el_routingPoints e) (el_points e) (el_bendPoints e) (el_children e).

Definition withChildren (e : SElement) (cs : list SElement) : SElement :=
  mkElement (el_id e) (el_type e) (el_kind e) (el_hasMarker e) (el_sourceId e)
    (el_targetId e) (el_labelIndex e) (el_size e) (el_types e) (el_props e)
    (el_cssClasses e) (el_layoutOptions e) (el_text e) (el_position e)
    (el_routingPoints e) (el_points e) (el_bendPoints e) cs.

Definition isLabel (c : SElement) : bool := String.eqb (el_type c) "label".

(** [label.position = p] for [label = children.find(c => c.type === 'label')] *)
Fixpoint positionFirstLabel (p : Point) (cs : list SElement) : list SElement :=
  match cs with
  | [] => []
  | c :: cs' => if isLabel c then withPosition c p :: cs' else c :: positionFirstLabel p cs'
  end.

(** [child.routingPoints ?? child.points ?? child.bendPoints ?? []] *)
Definition routeOf (child : SElement) : list Point :=
  match el_routingPoints child with
  | Some pts => pts
  | None =>
      match el_points child with
      | Some pts => pts
      | None => default [] (el_bendPoints child)
      end
  end.

(** Where a TAIL label goes: 12 before the end of the last segment;
    [None] where the loop body says [continue].  The arithmetic is that
    of the reals: for two points that differ by so little that the
    doubles round [dx * dx + dy * dy] to zero, the code says [continue]
    and this definition gives a position. *)
Definition tailPosition (pts : list Point) : option Point :=
  if (length pts <? 2)%nat then None
  else
    match pts !! (length pts - 1)%nat, pts !! (length pts - 2)%nat with
    | Some last, Some prev =>
        let dx := sub (pt_x last) (pt_x prev) in
        let dy := sub (pt_y last) (pt_y prev) in
        let dist := sqrt (add (mul dx dx) (mul dy dy)) in
        if strict_eq dist (Fin 0) then None
        else
          let ux := div dx dist in
          let uy := div dy dist in
          Some (mkPoint (sub (pt_x last) (mul ux (Fin 12)))
                        (sub (pt_y last) (mul uy (Fin 12))))
    | _, _ => None
    end.

Definition isTail (v : option optval) : bool :=
  match v with
  | Some (OText s) => String.eqb s "TAIL"
  | _ => false
  end.

(** The body of the loop over [laidOut.children]. *)
Definition adjustEdgeLabel (child : SElement) : SElement :=
  if String.eqb (el_type child) "edge" then
    match find isLabel (el_children child) with
    | None => child
    | Some _ =>
        let layoutOptions := default ∅ (el_layoutOptions child) in
        let placement := layoutOptions !! placementKey in
        if negb (isTail placement) then child
        else
          match tailPosition (routeOf child) with
          | None => child
          | Some p => withChildren child (positionFirstLabel p (el_children child))
          end
    end
  else child.

Definition adjustEdgeLabels (laidOut : SElement) : SElement :=
  withChildren laidOut (adjustEdgeLabel <$> el_children laidOut).

Section Adapter.
(** What is thrown. *)
Context {E : Type}.
(** [computeDiagramModel(shared, uri)] of the language package. *)
Variable computeDiagramModel : string -> completion E DiagramModel.
(** [engine.layout(root)] of an [ElkLayoutEngine] built with the given
    configurator: the laid-out graph, or a throw. *)
Variable layout : LayoutConfigurator -> SElement -> completion E SElement.

(** [const layoutEngine = new ElkLayoutEngine(elkFactory, undefined,
    new OmlLayoutConfigurator())] *)
Definition layoutEngine : SElement -> completion E SElement :=
  layout OmlLayoutConfigurator.

Definition computeLaidOutSModelForUri (uri : string) : completion E SElement :=
  match computeDiagramModel uri with
  | Throw e => Throw e
  | Normal diagram =>
      let root := diagramToSprotty diagram in
      try_catch
        (match layoutEngine root with
         | Throw e => Throw e
         | Normal laidOut => Normal (adjustEdgeLabels laidOut)
         end)
        (fun err => Normal root)
  end.
End Adapter.

End DiagramLayout.

(* ===================================================================== *)
(** ** Pan and zoom of the webview (diagram-client.ts)                    *)
(* ===================================================================== *)

Module PanZoomController.
Import JsNumber.
Local Open Scope R_scope.

Definition MIN_SCALE : num := Fin 0.2.
Definition MAX_SCALE : num := Fin 3.

(** The fields of the controller. *)
Record PanZoom := mkPanZoom {
  isPanning : bool;
  startX : num;
  startY : num;
  panX : num;
  panY : num;
  scale : num;
  pinchActive : bool;
  pinchStartDist : num;
  pinchStartScale : num;
  pinchStartPanX : num;
  pinchStartPanY : num;
  pinchCenterX : num;
  pinchCenterY : num
}.

(** The field initialisers. *)
Definition initial : PanZoom :=
  mkPanZoom false (Fin 0) (Fin 0) (Fin 0) (Fin 0) (Fin 1)
            false (Fin 0) (Fin 1) (Fin 0) (Fin 0) (Fin 0) (Fin 0).

(** A touch point; the coordinates of an event are finite. *)
Record Touch := mkTouch { clientX : R; clientY : R }.

(** [this.root.getBoundingClientRect()] *)
Record Rect := mkRect { left : R; top : R }.

Inductive Event :=
| MouseDown (button : nat) (hitInteractive : bool) (x y : R)
| MouseMove (x y : R)
| MouseUp
| Wheel (rect : Rect) (x y deltaY : R)
| TouchStart (rect : Rect) (touches : list Touch)
| TouchMove (touches : list Touch)
| TouchEnd (touches : list Touch)
| ResetView.

(** Assignments to groups of fields. *)
Definition setPanning (b : bool) (st : PanZoom) : PanZoom :=
  mkPanZoom b (startX st) (startY st) (panX st) (panY st) (scale st)
    (pinchActive st) (pinchStartDist st) (pinchStartScale st)
    (pinchStartPanX st) (pinchStartPanY st) (pinchCenterX st) (pinchCenterY st).

Definition setStart (x y : num) (st : PanZoom) : PanZoom :=
  mkPanZoom (isPanning st) x y (panX st) (panY st) (scale st)
    (pinchActive st) (pinchStartDist st) (pinchStartScale st)
    (pinchStartPanX st) (pinchStartPanY st) (pinchCenterX st) (pinchCenterY st).

Definition setPan (x y : num) (st : PanZoom) : PanZoom :=
  mkPanZoom (isPanning st) (startX st) (startY st) x y (scale st)
    (pinchActive st) (pinchStartDist st) (pinchStartScale st)
    (pinchStartPanX st) (pinchStartPanY st) (pinchCenterX st) (pinchCenterY st).

Definition setScale (s : num) (st : PanZoom) : PanZoom :=
  mkPanZoom (isPanning st) (startX st) (startY st) (panX st) (panY st) s
    (pinchActive st) (pinchStartDist st) (pinchStartScale st)
    (pinchStartPanX st) (pinchStartPanY st) (pinchCenterX st) (pinchCenterY st).

Definition setPinchActive (b : bool) (st : PanZoom) : PanZoom :=
  mkPanZoom (isPanning st) (startX st) (startY st) (panX st) (panY st) (scale st)
    b (pinchStartDist st) (pinchStartScale st)
    (pinchStartPanX st) (pinchStartPanY st) (pinchCenterX st) (pinchCenterY st).

Definition setPinchStart (dist sc px py cx cy : num) (st : PanZoom) : PanZoom :=
  mkPanZoom (isPanning st) (startX st) (startY st) (panX st) (panY st) (scale st)
    (pinchActive st) dist sc px py cx cy.

(** [distance(x1, y1, x2, y2)] *)
Definition distance (x1 y1 x2 y2 : num) : num :=
  hypot (sub x2 x1) (sub y2 y1).

(** [clamp(value, min, max)] *)
Definition clamp (value lo hi : num) : num := max lo (min hi value).

Definition onMouseDown (button : nat) (hitInteractive : bool) (x y : R) (st : PanZoom)
  : PanZoom :=
  if (button =? 1)%nat || ((button =? 0)%nat && negb hitInteractive) then
    setStart (sub (Fin x) (panX st)) (sub (Fin y) (panY st)) (setPanning true st)
  else st.

Definition onMouseMove (x y : R) (st : PanZoom) : PanZoom :=
  if negb (isPanning st) then st
  else setPan (sub (Fin x) (startX st)) (sub (Fin y) (startY st)) st.

Definition onMouseUp (st : PanZoom) : PanZoom :=
  if negb (isPanning st) then st else setPanning false st.

Definition zoomAt (newScale cx cy : num) (st : PanZoom) : PanZoom :=
  let s0 := scale st in
  let s1 := clamp newScale MIN_SCALE MAX_SCALE in
  if strict_eq s1 s0 then st
  else
    setScale s1
      (setPan (add (panX st) (mul (sub (Fin 1) (div s1 s0)) (sub cx (panX st))))
              (add (panY st) (mul (sub (Fin 1) (div s1 s0)) (sub cy (panY st))))
              st).

Definition onWheel (rect : Rect) (x y deltaY : R) (st : PanZoom) : PanZoom :=
  let cx := sub (Fin x) (Fin (left rect)) in
  let cy := sub (Fin y) (Fin (top rect)) in
  let zoomFactor := exp (mul (neg (Fin deltaY)) (Fin 0.001)) in
  zoomAt (mul (scale st) zoomFactor) cx cy st.

Definition initializePinch (rect : Rect) (t0 t1 : Touch) (st : PanZoom) : PanZoom :=
  let st := setPinchActive true st in
  let st :=
    setPinchStart
      (distance (Fin (clientX t0)) (Fin (clientY t0)) (Fin (clientX t1)) (Fin (clientY t1)))
      (scale st) (panX st) (panY st)
      (sub (div (add (Fin (clientX t0)) (Fin (clientX t1))) (Fin 2)) (Fin (left rect)))
      (sub (div (add (Fin (clientY t0)) (Fin (clientY t1))) (Fin 2)) (Fin (top rect)))
      st in
  setPanning false st.

Definition onTouchStart (rect : Rect) (touches : list Touch) (st : PanZoom) : PanZoom :=
  match touches with
  | [t] =>
      setStart (sub (Fin (clientX t)) (panX st)) (sub (Fin (clientY t)) (panY st))
               (setPanning true st)
  | [t0; t1] => initializePinch rect t0 t1 st
  | _ => st
  end.

Definition handlePinchMove (t0 t1 : Touch) (st : PanZoom) : PanZoom :=
  let d := distance (Fin (clientX t0)) (Fin (clientY t0)) (Fin (clientX t1)) (Fin (clientY t1)) in
  let newScale :=
    clamp (mul (pinchStartScale st) (div d (pinchStartDist st))) MIN_SCALE MAX_SCALE in
  let s0 := scale st in
  let s1 := newScale in
  setScale newScale
    (setPan
       (add (pinchStartPanX st)
            (mul (sub (Fin 1) (div s1 s0)) (sub (pinchCenterX st) (pinchStartPanX st))))
       (add (pinchStartPanY st)
            (mul (sub (Fin 1) (div s1 s0)) (sub (pinchCenterY st) (pinchStartPanY st))))
       st).

Definition onTouchMove (touches : list Touch) (st : PanZoom) : PanZoom :=
  match touches with
  | [t0; t1] => if pinchActive st then handlePinchMove t0 t1 st else st
  | [t] =>
      if isPanning st
      then setPan (sub (Fin (clientX t)) (startX st)) (sub (Fin (clientY t)) (startY st)) st
      else st
  | _ => st
  end.

Definition onTouchEnd (touches : list Touch) (st : PanZoom) : PanZoom :=
  match touches with
  | [] => setPinchActive false (setPanning false st)
  | [t] =>
      let st := setPinchActive false st in
      setStart (sub (Fin (clientX t)) (panX st)) (sub (Fin (clientY t)) (panY st)) st
  | _ => st
  end.

Definition reset (st : PanZoom) : PanZoom :=
  setScale (Fin 1) (setPan (Fin 0) (Fin 0) st).

(** The listener that an event reaches. *)
Definition handle (st : PanZoom) (ev : Event) : PanZoom :=
  match ev with
  | MouseDown button hit x y => onMouseDown button hit x y st
  | MouseMove x y => onMouseMove x y st
  | MouseUp => onMouseUp st
  | Wheel rect x y deltaY => onWheel rect x y deltaY st
  | TouchStart rect touches => onTouchStart rect touches st
  | TouchMove touches => onTouchMove touches st
  | TouchEnd touches => onTouchEnd touches st
  | ResetView => reset st
  end.

(** The controller after the events, from its initial state. *)
Definition after (evs : list Event) : PanZoom := foldl handle initial evs.

(** *** The controller in the page *)

(** [updateTransform] puts [translate(pan) scale(scale)], with transform
    origin 0 0, on [this.target].  With [origin] the place of the box of
    that element when it is not transformed, the diagram coordinate [p]
    is drawn at the client coordinate [origin + pan + scale * p], one
    axis like the other.  So this is the diagram coordinate drawn at the
    client coordinate [x]. *)
Definition drawnAt (origin pan scale x : num) : num :=
  div (sub (sub x origin) pan) scale.

(** [this.root.getBoundingClientRect()] in the page.
    [DiagramApplication.initializePanZoom] builds
    [new PanZoomController(root, root)]: the element that the handlers
    measure is the element that [updateTransform] moves, and the
    rectangle a browser reports for an element is that of its transformed
    box.  For a finite pan and a positive scale the top left corner of
    that box is at [origin + pan]. *)
Definition boundingClientRect (origin : Rect) (st : PanZoom) : option Rect :=
  match panX st, panY st with
  | Fin px, Fin py => Some (mkRect (left origin + px) (top origin + py))
  | _, _ => None
  end.

End PanZoomController.

(* ===================================================================== *)
(** ** Vocabulary of the properties                                       *)
(* ===================================================================== *)

Module Vocabulary.
Import SModel DiagramLayout PanZoomController.

(** The candidates of [makeUniqueId]: [base], then [base:1], [base:2], ... *)
Definition candidate (base : string) (k : nat) : string :=
  match k with
  | O => base
  | S _ => base +:+ ":" +:+ pretty k
  end.

(** A self-loop on [n], in the synthesized graph. *)
Definition selfLoopOn (n : string) (edge : SElement) : Prop :=
  el_sourceId edge = Some n ∧ el_targetId edge = Some n.

Global Instance selfLoopOn_dec n edge : Decision (selfLoopOn n edge).
Proof. unfold selfLoopOn. apply _. Defined.

(** The count the table holds for [n] as its own property: 0 when it has
    none; nothing when the property is no number. *)
Definition ownCount (o : JsObject.object) (n : string) : option nat :=
  match o !! n with
  | None => Some 0%nat
  | Some (JsObject.VNumber k) => Some k
  | Some JsObject.VOther => None
  end.

(** An identifier without a line break. *)
Fixpoint singleLine (s : string) : bool :=
  match s with
  | EmptyString => true
  | String x s' => negb (Regex.is_line_terminator x) && singleLine s'
  end.

(** An identifier that one of the four bracket patterns of the server
    matches. *)
Definition serverBracket (id : string) : bool :=
  match Regex.exec NavigateToElement.specPattern id,
        Regex.exec NavigateToElement.directEqPattern id,
        Regex.exec NavigateToElement.eqNodePattern id,
        Regex.exec NavigateToElement.eqEdgePattern id with
  | None, None, None, None => false
  | _, _, _, _ => true
  end.

(** What the bracket patterns of the webview read from an identifier: the
    first group of the first of them that matches, in the order in which
    the webview tries them. *)
Definition webviewBracket (id : string) : option string :=
  DecodeTable.first_match
    [NavigationHandler.capture1 NavigationHandler.eqEdgePattern;
     NavigationHandler.capture1 NavigationHandler.eqNodePattern;
     NavigationHandler.capture1 NavigationHandler.specPattern;
     NavigationHandler.capture1 NavigationHandler.directEqPattern] id.

(** What the four bracketed rows of the table read from an identifier,
    in table order. *)
Definition tableBracket (id : string) : option string :=
  DecodeTable.first_match
    (DecodeTable.reads
       <$> [DecodeTable.specialization; DecodeTable.directEquivalence;
            DecodeTable.equivalenceGroupNode; DecodeTable.equivalenceGroupEdge]) id.

(** An identifier that ends in [-edge1] or [-edge2]. *)
Definition relationEntityEdgeId (id : string) : bool :=
  JsString.endsWith id "-edge1" || JsString.endsWith id "-edge2".

(** The Q of an identifier [Q-source-edge#] or [Q-target-edge#], as the
    pattern of the webview reads it. *)
Definition relationInstanceName (id : string) : option string :=
  NavigationHandler.capture1 NavigationHandler.descRelPattern id.

(** The ids of the nodes that are drawn: all but the pure relations. *)
Definition drawnNodeIds (model : DiagramModel) : list string :=
  n_id <$> filter (fun n => n_kind n ≠ "relation") (nodes model).

(** The two touch points of a gesture do not coincide. *)
Definition apart (t0 t1 : Touch) : Prop :=
  clientX t0 ≠ clientX t1 ∨ clientY t0 ≠ clientY t1.

(** Every two-finger gesture of the event starts with the fingers apart. *)
Definition properPinch (ev : Event) : Prop :=
  match ev with
  | TouchStart _ [t0; t1] => apart t0 t1
  | _ => True
  end.

(** What the scale is clamped to. *)
Definition scaleInRange (s : JsNumber.num) : Prop :=
  JsNumber.between 0.2 3 s.

(** What the zoom handlers rely on between events. *)
Definition pinchReady (st : PanZoom) : Prop :=
  scaleInRange (scale st)
  ∧ scaleInRange (pinchStartScale st)
  ∧ (pinchActive st = true → ∃ d, pinchStartDist st = JsNumber.Fin d ∧ (0 < d)%R).

End Vocabulary.

(* ===================================================================== *)
(** ** The inputs the properties are tried on                             *)
(* ===================================================================== *)

Module Scenarios.
Import SModel DiagramLayout PanZoomController Vocabulary.

Definition concept (id : string) : DiagramNode :=
  mkDiagramNode id "concept" None None None None None None None.

Definition edge (id : option string) (kind source target : string) (label : option string)
  : DiagramEdge :=
  mkDiagramEdge id kind source target label None None None None None.

(** Scenario A of the specification. *)
Definition scenarioA : DiagramModel :=
  mkDiagramModel [concept "A"; concept "B"]
    [edge (Some "A->B") "specialization" "A" "B" None].

(** Scenario A with the edge id in the bracketed form. *)
Definition scenarioA_bracketed : DiagramModel :=
  mkDiagramModel [concept "A"; concept "B"]
    [edge (Some "[A]->[B]") "specialization" "A" "B" None].

(** Twice the same node. *)
Definition twiceA : DiagramModel :=
  mkDiagramModel [concept "A"; concept "A"] [].

(** Two self-loops on A around an edge from A to B, all labelled. *)
Definition loops : DiagramModel :=
  mkDiagramModel [concept "A"; concept "B"]
    [edge None "relation" "A" "A" (Some "r1");
     edge None "relation" "A" "B" (Some "r2");
     edge None "relation" "A" "A" (Some "r3")].

(** A concept named constructor, with one relation from it to itself. *)
Definition constructorLoop : DiagramModel :=
  mkDiagramModel [concept "constructor"]
    [edge None "relation" "constructor" "constructor" None].

(** An empty graph, as a client model. *)
Definition emptyRoot : SElement :=
  mkElement "root" "graph" None None None None None None None None None None None
            None None None None [].

(** A client model with the relation entity [Q]. *)
Definition relationEntityRoot : SElement :=
  mkElement "root" "graph" None None None None None None None None None None None
            None None None None
            [mkElement "Q" "node:rect" (Some "relation-entity") None None None None None
                       None None None None None None None None None []].

(** A client model with the relation instance [Q]. *)
Definition relationInstanceRoot : SElement :=
  mkElement "root" "graph" None None None None None None None None None None None
            None None None None
            [mkElement "Q" "node:rect" (Some "relation-instance") None None None None None
                       None None None None None None None None None []].

(** A client model with a relation entity whose id is the empty string. *)
Definition namelessRelationRoot : SElement :=
  mkElement "root" "graph" None None None None None None None None None None None
            None None None None
            [mkElement "" "node:rect" (Some "relation-entity") None None None None None
                       None None None None None None None None None []].

(** A bracketed identifier with a line feed in its first name. *)
Definition twoLineId : string := "[A" +:+ String "010" "]->[B]".

(** Two fingers on the same spot. *)
Definition origin : Touch := mkTouch 0%R 0%R.
Definition window : Rect := mkRect 0%R 0%R.
Definition coincidentPinch : list Event :=
  [TouchStart window [origin; origin]; TouchMove [origin; origin]].

(** A drag of the background by 100 to the right. *)
Definition dragRight : list Event :=
  [MouseDown 0 false 0 0; MouseMove 100 0; MouseUp].

End Scenarios.

(* ===================================================================== *)
(** * Further parts of the code

    Besides the parts above, the modules below embed
      - the [oml/diagramModel] handler and the whole of the
        [oml/navigateToElement] handler of the language server,
      - the edge and node views and the marker manager of the webview,
      - the debounced diagram updates of the extension,
      - the login of the web extension and of the desktop extension. *)
(* ===================================================================== *)

(* ===================================================================== *)
(** ** The [oml/diagramModel] request of the language server              *)
(* ===================================================================== *)

Module DiagramModelRequest.
Import SModel DiagramLayout.

(** [{ id: 'root', type: 'graph', children: [] }] *)
Definition emptyModel : SElement :=
  mkElement "root" "graph" None None None None None None None None None None None
            None None None None [].

Section Handler.
Context {E : Type}.
Variable computeDiagramModel : string -> completion E DiagramModel.
Variable layout : LayoutConfigurator -> SElement -> completion E SElement.

(** [connection.onRequest(DiagramModelRequest, async ({ uri }) => ...)] *)
Definition onRequest (uri : string) : completion E SElement :=
  try_catch (computeLaidOutSModelForUri computeDiagramModel layout uri)
            (fun err => Normal emptyModel).
End Handler.

End DiagramModelRequest.

(* ===================================================================== *)
(** ** More of the number primitives                                      *)
(* ===================================================================== *)

Module JsMath.
Import JsNumber.
Local Open Scope R_scope.

(** The least integer that is not below [x]. *)
Definition Rceil (x : R) : R := IZR (1 - up (- x)).

(** The greatest integer that is not above [x]. *)
Definition Rfloor (x : R) : R := IZR (up x - 1).

(** [Math.ceil(a)] *)
Definition ceil (a : num) : num :=
  match a with
  | Fin x => Fin (Rceil x)
  | _ => a
  end.

(** [a % b]: the remainder of the division truncated towards zero. *)
Definition rem (a b : num) : num :=
  match a, b with
  | NaN, _ | _, NaN => NaN
  | (PosInf | NegInf), _ => NaN
  | Fin x, (PosInf | NegInf) => Fin x
  | Fin x, Fin y =>
      if Req_dec_T y 0 then NaN
      else Fin (x - y * (if Rle_dec 0 (x / y) then Rfloor (x / y) else Rceil (x / y)))
  end.

(** [a > b] *)
Definition gt (a b : num) : bool :=
  match a, b with
  | NaN, _ | _, NaN => false
  | PosInf, PosInf => false
  | PosInf, _ => true
  | _, PosInf => false
  | NegInf, _ => false
  | Fin _, NegInf => true
  | Fin x, Fin y => if Rlt_dec y x then true else false
  end.

(** [Number.isFinite(a)] *)
Definition isFinite (a : num) : bool :=
  match a with
  | Fin _ => true
  | _ => false
  end.

End JsMath.

(* ===================================================================== *)
(** ** The views of the webview (diagram-client.ts)                       *)
(* ===================================================================== *)

Module Views.
Import JsString JsNumber JsMath.

Definition LABEL_GAP : num := Fin 10.
Definition NODE_PADDING : num := Fin 10.
Definition LINE_GAP : num := Fin 6.
Definition PROPERTY_HEIGHT : num := Fin 16.
Definition DEFAULT_FONT_SIZE : num := Fin 13.

Record MarkerConfig := mkMarker {
  mc_id : string;
  mc_viewBox : string;
  mc_refX : string;
  mc_refY : string;
  mc_markerWidth : string;
  mc_markerHeight : string;
  mc_paths : list string
}.

Definition openArrow (id : string) : MarkerConfig :=
  mkMarker id "0 0 14 12" "12" "6" "16" "16" ["M0,0 L12,6 L0,12"].

Definition closedTriangle (id : string) : MarkerConfig :=
  mkMarker id "0 0 14 12" "12" "6" "16" "16" ["M0,0 L12,6 L0,12 Z"].

Definition equivalenceTriangle (id : string) : MarkerConfig :=
  mkMarker id "0 0 14 12" "12" "6" "16" "16"
           ["M-8,0 L-8,12"; "M-5,0 L-5,12"; "M0,0 L12,6 L0,12 Z"].

(** [MARKER_CONFIGS]: the markers that [OmlGraphView] declares in [defs]. *)
Definition MARKER_CONFIGS : list MarkerConfig := [
  openArrow "oml-open-arrow";
  openArrow "oml-open-arrow-hover";
  openArrow "oml-open-arrow-selected";
  closedTriangle "oml-closed-triangle";
  closedTriangle "oml-closed-triangle-hover";
  closedTriangle "oml-closed-triangle-selected";
  equivalenceTriangle "oml-equivalence-triangle";
  equivalenceTriangle "oml-equivalence-triangle-hover";
  equivalenceTriangle "oml-equivalence-triangle-selected"
].

(** *** [OmlEdgeView] *)

(** [getMarkerId(kind, hasMarker)]; [None] for undefined. *)
Definition getMarkerId (kind : string) (hasMarker : bool) : option string :=
  if String.eqb kind "specialization" then Some "oml-closed-triangle"
  else if String.eqb kind "equivalence" && hasMarker then Some "oml-equivalence-triangle"
  else if String.eqb kind "relation" && hasMarker then Some "oml-open-arrow"
  else None.

(** The [marker-end] attribute that [renderLine] leaves on the line of an
    edge with the given [kind], [data.kind] and [hasMarker] ([None] for a
    property that is undefined): [None] when it deletes the attribute. *)
Definition renderLine (kind dataKind : option string) (hasMarker : option bool)
  : option string :=
  let kind := default (default "relation" dataKind) kind in
  let hasMarker := default true hasMarker in
  match getMarkerId kind hasMarker with
  | Some markerId => Some ("url(#" +:+ markerId +:+ ")")
  | None => None
  end.

(** [applyLabelOffset]: the [offsetY] by which it translates the label of
    an edge with the given [labelIndex] and [data.labelIndex], which are
    numbers when defined; [None] when it leaves the label alone. *)
Definition applyLabelOffset (labelIndex dataLabelIndex : option num) : option num :=
  let rawIndex := default (default (Fin 0) dataLabelIndex) labelIndex in
  let idx := max (Fin 0) rawIndex in
  if gt idx (Fin 0) then
    let pairIndex := ceil (div idx (Fin 2)) in
    let sign := if strict_eq (rem idx (Fin 2)) (Fin 0) then Fin 1 else Fin (-1) in
    Some (mul (mul pairIndex LABEL_GAP) sign)
  else None.

(** *** [OmlRectNodeView] *)

(** [label.bounds], as far as it is read. *)
Record Bounds := mkBounds { b_y : num; b_height : num }.

(** The line that [renderCompartmentLine] draws. *)
Record Line := mkLine { x1 : num; y1 : num; x2 : num; y2 : num }.

(** [renderCompartmentLine(group, model, width, height)]: the line it
    pushes and the [compartmentY] it returns.  [labelBounds] is the
    [bounds] of the first label child of the model, [None] when there is
    no label or it has no bounds. *)
Definition renderCompartmentLine (labelBounds : option Bounds) (width height : num)
  : Line * num :=
  let kindOffset := Fin 16 in
  let labelY :=
    match labelBounds with
    | Some b => if isFinite (b_y b) then b_y b else Fin 0
    | None => Fin 0
    end in
  let labelH :=
    match labelBounds with
    | Some b =>
        if isFinite (b_height b) && gt (b_height b) (Fin 0) then b_height b
        else DEFAULT_FONT_SIZE
    | None => DEFAULT_FONT_SIZE
    end in
  let compartmentY :=
    max (add NODE_PADDING kindOffset)
        (min (sub height NODE_PADDING)
             (add (add (add labelY labelH) LINE_GAP) kindOffset)) in
  (mkLine NODE_PADDING compartmentY (max NODE_PADDING (sub width NODE_PADDING)) compartmentY,
   compartmentY).

(** [renderProperties]: the [y] of the text of each property, in order. *)
Definition renderProperties (properties : list string) (compartmentY : num) : list num :=
  imap (fun idx _ => add (add compartmentY LINE_GAP) (mul (of_nat idx) PROPERTY_HEIGHT))
       properties.

(** *** [MarkerManager]: the marker of an edge by its state *)

(** [getMarkerType(markerEnd)]; [None] for null. *)
Definition getMarkerType (markerEnd : string) : option string :=
  if includes markerEnd "oml-open-arrow" then Some "oml-open-arrow"
  else if includes markerEnd "oml-closed-triangle" then Some "oml-closed-triangle"
  else if includes markerEnd "oml-equivalence-triangle" then Some "oml-equivalence-triangle"
  else None.

(** [determineMarkerEnd(currentMarker, isSelected, isHover)] *)
Definition determineMarkerEnd (currentMarker : string) (isSelected isHover : bool)
  : option string :=
  match getMarkerType currentMarker with
  | None => None
  | Some markerType =>
      let suffix := if isSelected then "-selected" else if isHover then "-hover" else "" in
      Some ("url(#" +:+ markerType +:+ suffix +:+ ")")
  end.

(** The body of the loop of [updateMarkerReferences] for an edge whose
    line has a [marker-end]: the attribute afterwards. *)
Definition updateMarkerReference (currentMarkerEnd : string) (isSelected hasHoverAttr : bool)
  : string :=
  match determineMarkerEnd currentMarkerEnd isSelected hasHoverAttr with
  | Some newMarkerEnd =>
      if negb (String.eqb currentMarkerEnd newMarkerEnd) then newMarkerEnd
      else currentMarkerEnd
  | None => currentMarkerEnd
  end.

End Views.

(* ===================================================================== *)
(** ** The [oml/navigateToElement] request of the language server         *)
(* ===================================================================== *)

(** The documents and syntax trees that the handler walks.  Objects live
    in a store and refer to one another by address, so that imports can
    form cycles as they do in the running server. *)
Module Workspace.

Record Position := mkPosition { line : nat; character : nat }.

Record CstNode := mkCstNode { cst_offset : nat; cst_length : nat }.

(** A statement of an ontology, as far as the handler reads it. *)
Record Statement := mkStatement {
  st_name : option string;
  st_cstNode : option CstNode;
  st_isOntology : bool;
  st_namespace : option string
}.

(** [imp.prefix] and the address [imp.imported?.ref] resolves to. *)
Record Import := mkImport {
  imp_prefix : option string;
  imp_imported : option nat
}.

Record Ontology := mkOntology {
  o_namespace : option string;
  o_ownedImports : option (list Import);
  o_ownedStatements : option (list Statement);
  o_document : option nat;
  o_cstNode : option CstNode
}.

(** A document: its uri, the address of [parseResult?.value], and
    [textDocument.positionAt]. *)
Record Document := mkDocument {
  d_uri : string;
  d_value : option nat;
  d_textDocument : option (nat -> Position)
}.

Record Store := mkStore {
  ontologyAt : gmap nat Ontology;
  documentAt : gmap nat Document
}.

(** [imp.imported?.ref]: the address and the ontology there; a reference
    that does not resolve is undefined. *)
Definition ref (store : Store) (imp : Import) : option (nat * Ontology) :=
  match imp_imported imp with
  | Some a =>
      match ontologyAt store !! a with
      | Some o => Some (a, o)
      | None => None
      end
  | None => None
  end.

(** A string that is defined and not empty. *)
Definition truthy (s : option string) : option string :=
  match s with
  | Some s => if String.eqb s "" then None else Some s
  | None => None
  end.

End Workspace.

Module NavigateToElementRequest.
Import JsString Workspace DiagramLayout.

(** What the handler answers when it answers no null. *)
Record Location := mkLocation {
  loc_uri : string;
  startLine : nat;
  startColumn : nat;
  endLine : nat;
  endColumn : nat
}.

(** The object the handler returns for a CST node of a text document. *)
Definition locationOf (uri : string) (positionAt : nat -> Position) (cstNode : CstNode)
  : Location :=
  let startPosition := positionAt (cst_offset cstNode) in
  let endPosition := positionAt (cst_offset cstNode + cst_length cstNode) in
  mkLocation uri (line startPosition + 1) (character startPosition)
             (line endPosition + 1) (character endPosition).

(** The loop over [root.ownedStatements] of the namespace branch. *)
Fixpoint findOntologyStatement (elementId uri : string)
    (textDocument : option (nat -> Position)) (stmts : list Statement) : option Location :=
  match stmts with
  | [] => None
  | stmt :: rest =>
      if st_isOntology stmt && bool_decide (st_namespace stmt = Some elementId) then
        match st_cstNode stmt, textDocument with
        | Some cstNode, Some positionAt => Some (locationOf uri positionAt cstNode)
        | _, _ => findOntologyStatement elementId uri textDocument rest
        end
      else findOntologyStatement elementId uri textDocument rest
  end.

(** [findImportedOntology(docRoot)], with the set [visited] passed
    through: the address found, if any, and [visited] afterwards.  [fuel]
    bounds the depth of the recursion; [None] when it runs out. *)
Fixpoint findImportedOntologyLoop (fuel : nat) (store : Store) (elementId : string)
    (docRoot : Ontology) (visited : gset string) : option (option nat * gset string) :=
  match fuel with
  | O => None
  | S fuel' =>
      (fix for_imports (imps : list Import) (visited : gset string)
         : option (option nat * gset string) :=
         match imps with
         | [] => Some (None, visited)
         | imp :: rest =>
             match ref store imp with
             | None => for_imports rest visited
             | Some (a, imported) =>
                 match truthy (o_namespace imported) with
                 | None => for_imports rest visited
                 | Some ns =>
                     if bool_decide (ns ∈ visited) then for_imports rest visited
                     else
                       let visited := {[ns]} ∪ visited in
                       if String.eqb ns elementId then Some (Some a, visited)
                       else
                         match findImportedOntologyLoop fuel' store elementId imported visited
                         with
                         | None => None
                         | Some (Some found, visited) => Some (Some found, visited)
                         | Some (None, visited) => for_imports rest visited
                         end
                 end
             end
         end) (default [] (o_ownedImports docRoot)) visited
  end.

(** The namespaces of the ontologies of the store. *)
Definition namespaces (store : Store) : gset string :=
  list_to_set (omap (fun ao => truthy (o_namespace ao.2)) (map_to_list (ontologyAt store))).

(** [const visited = new Set(); findImportedOntology(root)].  The
    recursion is no deeper than the store has namespaces (theorem
    [findImportedOntology_finds]). *)
Definition findImportedOntology (store : Store) (elementId : string) (root : Ontology)
  : option nat :=
  match findImportedOntologyLoop (S (size (namespaces store))) store elementId root ∅ with
  | Some (found, _) => found
  | None => None
  end.

(** [s.split(sep)] for a separator of one code unit. *)
Fixpoint split (sep : ascii) (s : string) : list string :=
  match s with
  | EmptyString => [EmptyString]
  | String c s' =>
      if Ascii.eqb c sep then EmptyString :: split sep s'
      else
        match split sep s' with
        | part :: parts => String c part :: parts
        | [] => [String c EmptyString]
        end
  end.

(** The loop over [root.ownedImports]: the document of the first import
    with the prefix whose reference resolves to an ontology that has a
    document. *)
Fixpoint findImportedDocument (store : Store) (prefix : option string) (imps : list Import)
  : option Document :=
  match imps with
  | [] => None
  | imp :: rest =>
      if bool_decide (imp_prefix imp = prefix) then
        match ref store imp with
        | Some (_, importedOntology) =>
            match o_document importedOntology with
            | Some d =>
                match documentAt store !! d with
                | Some importedDoc => Some importedDoc
                | None => findImportedDocument store prefix rest
                end
            | None => findImportedDocument store prefix rest
            end
        | None => findImportedDocument store prefix rest
        end
      else findImportedDocument store prefix rest
  end.

(** The loop over [targetRoot.ownedStatements]; [targetMemberName] is
    [None] when it is undefined. *)
Fixpoint findMember (targetMemberName : option string) (uri : string)
    (textDocument : option (nat -> Position)) (stmts : list Statement) : option Location :=
  match stmts with
  | [] => None
  | stmt :: rest =>
      if bool_decide (st_name stmt = targetMemberName) then
        match st_cstNode stmt, textDocument with
        | Some cstNode, Some positionAt => Some (locationOf uri positionAt cstNode)
        | _, _ => findMember targetMemberName uri textDocument rest
        end
      else findMember targetMemberName uri textDocument rest
  end.

(** The statements of the root of a document. *)
Definition statementsOf (store : Store) (d : Document) : list Statement :=
  match d_value d with
  | Some a =>
      match ontologyAt store !! a with
      | Some targetRoot => default [] (o_ownedStatements targetRoot)
      | None => []
      end
  | None => []
  end.

(** What the body of the handler can throw: what the document service
    threw, or the TypeError of a property read on undefined. *)
Inductive thrown (E : Type) :=
| Raised (e : E)
| TypeError.
Arguments Raised {E} e.
Arguments TypeError {E}.

Section Handler.
Context {E : Type}.
(** [shared.workspace.LangiumDocuments.getOrCreateDocument(parsedUri)]:
    the address of the document, null, or a throw. *)
Variable getOrCreateDocument : string -> completion E (option nat).

(** The namespace branch: the answer it returns, or [None] when the
    handler goes on to the decoding step. *)
Definition byNamespace (store : Store) (uri elementId : string)
    (document : Document) (root : Ontology) : option Location :=
  if NavigateToElement.looksLikeNamespace elementId then
    match findOntologyStatement elementId uri (d_textDocument document)
            (default [] (o_ownedStatements root)) with
    | Some location => Some location
    | None =>
        match findImportedOntology store elementId root with
        | Some a =>
            match ontologyAt store !! a with
            | Some importedOntology =>
                match o_document importedOntology with
                | Some d =>
                    match documentAt store !! d with
                    | Some importedDoc =>
                        match o_cstNode importedOntology, d_textDocument importedDoc with
                        | Some cstNode, Some positionAt =>
                            Some (locationOf (d_uri importedDoc) positionAt cstNode)
                        | _, _ => None
                        end
                    | None => None
                    end
                | None => None
                end
            | None => None
            end
        | None => None
        end
    end
  else None.

(** From [let targetDocument = document] to the end of the [try] block. *)
Definition byMemberName (store : Store) (uri memberName : string)
    (document : Document) (root : Ontology) : option Location :=
  let imported :=
    if includes memberName ":" then
      let parts := split ":" memberName in
      match findImportedDocument store (parts !! 0%nat) (default [] (o_ownedImports root)) with
      | Some importedDoc => Some (importedDoc, parts !! 1%nat)
      | None => None
      end
    else None in
  match imported with
  | Some (targetDocument, targetMemberName) =>
      findMember targetMemberName (d_uri targetDocument) (d_textDocument targetDocument)
                 (statementsOf store targetDocument)
  | None =>
      findMember (Some memberName) uri (d_textDocument document) (statementsOf store document)
  end.

(** The [try] block. *)
Definition tryBlock (store : Store) (uri elementId : string)
  : completion (thrown E) (option Location) :=
  match getOrCreateDocument uri with
  | Throw e => Throw (Raised e)
  | Normal None => Normal None
  | Normal (Some d) =>
      match documentAt store !! d with
      | None => Normal None
      | Some document =>
          match d_value document with
          | None => Normal None
          | Some a =>
              match ontologyAt store !! a with
              | None => Normal None
              | Some root =>
                  match byNamespace store uri elementId document root with
                  | Some location => Normal (Some location)
                  | None =>
                      match NavigateToElement.decodeMemberName elementId with
                      | None => Throw TypeError
                      | Some memberName =>
                          Normal (byMemberName store uri memberName document root)
                      end
                  end
              end
          end
      end
  end.

(** [connection.onRequest(NavigateToElementRequest, async ({ uri,
    elementId }) => ...)]; [None] is null. *)
Definition onRequest (store : Store) (uri elementId : string)
  : completion (thrown E) (option Location) :=
  try_catch (tryBlock store uri elementId) (fun err => Normal None).
End Handler.

End NavigateToElementRequest.

(* ===================================================================== *)
(** ** The extension: what it selects for an answer of the server         *)
(* ===================================================================== *)

Module Extension.
Import Workspace NavigateToElementRequest.

(** The document the extension opens and the range it selects for a
    response of [oml/navigateToElement] (the [else if (msg.elementId)]
    branch): [response.uri || docUri], and the positions made from the
    lines and columns of the response.  The lines of a response are at
    least 1, so that [startLine - 1] is a natural number. *)
Definition selectionFor (docUri : string) (response : Location)
  : string * Position * Position :=
  let targetUri := if String.eqb (loc_uri response) "" then docUri else loc_uri response in
  let startPosition := mkPosition (startLine response - 1) (startColumn response) in
  let endPosition := mkPosition (endLine response - 1) (endColumn response) in
  (targetUri, startPosition, endPosition).

End Extension.

(* ===================================================================== *)
(** ** The extension: debounced diagram updates                           *)
(* ===================================================================== *)

Module DiagramUpdates.

(** [updateTimeouts], the timers of the runtime that are set (handle to
    the uri their callback closes over and the time they are due), the
    next handle [setTimeout] gives out, the time in milliseconds, and the
    calls of [updatePanelsForUri] so far, oldest first. *)
Record State := mkState {
  updateTimeouts : gmap string nat;
  timers : gmap nat (string * nat);
  nextHandle : nat;
  now : nat;
  requested : list string
}.

(** On activation: no timer is set; handles are positive numbers. *)
Definition initial : State := mkState ∅ ∅ 1 0 [].

(** [setTimeout(callback, delay)] for the callback of [changedUri] *)
Definition setTimeout (changedUri : string) (delay : nat) (st : State) : nat * State :=
  (nextHandle st,
   mkState (updateTimeouts st)
           (<[nextHandle st := (changedUri, now st + delay)]> (timers st))
           (S (nextHandle st)) (now st) (requested st)).

(** [clearTimeout(handle)] *)
Definition clearTimeout (handle : nat) (st : State) : State :=
  mkState (updateTimeouts st) (delete handle (timers st))
          (nextHandle st) (now st) (requested st).

Definition setUpdateTimeouts (m : gmap string nat) (st : State) : State :=
  mkState m (timers st) (nextHandle st) (now st) (requested st).

(** [void updatePanelsForUri(uri)] *)
Definition updatePanelsForUri (uri : string) (st : State) : State :=
  mkState (updateTimeouts st) (timers st) (nextHandle st) (now st) (requested st ++ [uri]).

(** A handle as a condition: defined and not 0. *)
Definition truthyHandle (h : option nat) : option nat :=
  match h with
  | Some O => None
  | Some h => Some h
  | None => None
  end.

(** The listener of [onDidChangeTextDocument] *)
Definition onDidChangeTextDocument (languageId changedUri : string) (st : State) : State :=
  if negb (String.eqb languageId "oml") then st
  else
    let existing := updateTimeouts st !! changedUri in
    let st :=
      match truthyHandle existing with
      | Some h => clearTimeout h st
      | None => st
      end in
    let '(t, st) := setTimeout changedUri 300 st in
    setUpdateTimeouts (<[changedUri := t]> (updateTimeouts st)) st.

(** The listener of [onDidSaveTextDocument] *)
Definition onDidSaveTextDocument (languageId savedUri : string) (st : State) : State :=
  if negb (String.eqb languageId "oml") then st
  else
    let existing := updateTimeouts st !! savedUri in
    let st :=
      match truthyHandle existing with
      | Some h =>
          let st := clearTimeout h st in
          setUpdateTimeouts (delete savedUri (updateTimeouts st)) st
      | None => st
      end in
    updatePanelsForUri savedUri st.

(** The runtime runs the callback of the timer [handle], which it does
    only for a timer that is set and due; the timer is then no longer
    set. *)
Definition onTimeout (handle : nat) (st : State) : State :=
  match timers st !! handle with
  | Some (changedUri, due) =>
      if (due <=? now st)%nat then
        let st := clearTimeout handle st in
        let st := setUpdateTimeouts (delete changedUri (updateTimeouts st)) st in
        updatePanelsForUri changedUri st
      else st
  | None => st
  end.

Definition elapse (ms : nat) (st : State) : State :=
  mkState (updateTimeouts st) (timers st) (nextHandle st) (now st + ms) (requested st).

Inductive Event :=
| Change (languageId uri : string)
| Save (languageId uri : string)
| Elapse (ms : nat)
| Timeout (handle : nat).

Definition handle (st : State) (ev : Event) : State :=
  match ev with
  | Change languageId uri => onDidChangeTextDocument languageId uri st
  | Save languageId uri => onDidSaveTextDocument languageId uri st
  | Elapse ms => elapse ms st
  | Timeout h => onTimeout h st
  end.

(** The extension after the events, from activation. *)
Definition after (evs : list Event) : State := foldl handle initial evs.

End DiagramUpdates.

(* ===================================================================== *)
(** ** The login of the web extension (auth-browser.ts)                   *)
(* ===================================================================== *)

Module AuthBrowser.
Import JsString Regex.

(** The characters of Base64, by the value of the sextet. *)
Definition base64Alphabet : string :=
  "ABCDEFGHIJKLMNOPQRSTUVWXYZabcdefghijklmnopqrstuvwxyz0123456789+/".

Definition sextet (n : nat) : ascii :=
  default "A"%char (String.get n base64Alphabet).

(** [btoa] on the code units of its argument, three at a time. *)
Fixpoint btoaFrom (codes : list nat) : string :=
  match codes with
  | [] => ""
  | [a] =>
      String (sextet (a / 4)) (String (sextet (a mod 4 * 16)) "==")
  | [a; b] =>
      String (sextet (a / 4))
        (String (sextet (a mod 4 * 16 + b / 16))
           (String (sextet (b mod 16 * 4)) "="))
  | a :: b :: c :: rest =>
      String (sextet (a / 4))
        (String (sextet (a mod 4 * 16 + b / 16))
           (String (sextet (b mod 16 * 4 + c / 64))
              (String (sextet (c mod 64)) (btoaFrom rest))))
  end.

(** [btoa(binary)] for a string of code units below 256 *)
Definition btoa (binary : string) : string :=
  btoaFrom (nat_of_ascii <$> list_ascii_of_string binary).

(** [s.replace(/c/g, d)] for a pattern of one literal character *)
Fixpoint replaceAll (c d : ascii) (s : string) : string :=
  match s with
  | EmptyString => EmptyString
  | String x s' => String (if Ascii.eqb x c then d else x) (replaceAll c d s')
  end.

(** [/=+$/] *)
Definition trailingEquals : regex := sequence [PlusGreedy (Lit "="); Eol].

(** [base64UrlEncode(bytes)]; a byte of the array is the code unit that
    [String.fromCharCode] makes of it. *)
Definition base64UrlEncode (bytes : list ascii) : string :=
  let binary := string_of_list_ascii bytes in
  replace_empty trailingEquals (replaceAll "/" "_" (replaceAll "+" "-" (btoa binary))).

(** [generateCodeVerifier()]: [random] is what
    [crypto.getRandomValues(new Uint8Array(32))] gives, [None] without
    [crypto]; [fallback] is the string made of [Math.random()] then. *)
Definition generateCodeVerifier (random : option (list ascii)) (fallback : string) : string :=
  match random with
  | None => fallback
  | Some random => base64UrlEncode random
  end.

(** *** [startLoginFlow]: the callback of the browser *)

(** The uri that the handler is called with: its authority, its path,
    and the parameters of its query in order (none for an empty query). *)
Record CallbackUri := mkCallbackUri {
  authority : string;
  path : string;
  searchParams : list (string * string)
}.

(** [searchParams.get(name)]: the first value of the name; [None] is null. *)
Fixpoint get (name : string) (params : list (string * string)) : option string :=
  match params with
  | [] => None
  | (k, v) :: rest => if String.eqb k name then Some v else get name rest
  end.

(** White space and line terminators, among the code units below 256. *)
Definition isWhiteSpace (x : ascii) : bool :=
  let n := nat_of_ascii x in
  ((9 <=? n) && (n <=? 13)) || (n =? 32) || (n =? 160).

Fixpoint trimStart (s : string) : string :=
  match s with
  | EmptyString => EmptyString
  | String x s' => if isWhiteSpace x then trimStart s' else s
  end.

Fixpoint trimEnd (s : string) : string :=
  match s with
  | EmptyString => EmptyString
  | String x s' =>
      match trimEnd s' with
      | EmptyString => if isWhiteSpace x then EmptyString else String x EmptyString
      | rest => String x rest
      end
  end.

(** [s.trim()] *)
Definition trim (s : string) : string := trimEnd (trimStart s).

(** The promise that the login waits for: the race of the callback
    promise (which the handler settles, or the timeout) and the
    cancellation. *)
Inductive Outcome :=
| Pending
| Resolved (code : string)
| Rejected (message : string).

(** [resolve] and [reject] do nothing to a promise that is settled. *)
Definition settle (o new : Outcome) : Outcome :=
  match o with
  | Pending => new
  | _ => o
  end.

Section Login.
(** [context.extension.id ?? 'modelware.oml-code'], and [generateState()] *)
Variable callbackAuthority : string.
Variable state : string.

Definition callbackPath : string := "/callback".

(** [handleUri(uri)] *)
Definition handleUri (uri : CallbackUri) (o : Outcome) : Outcome :=
  if negb (String.eqb (authority uri) callbackAuthority)
     || negb (String.eqb (path uri) callbackPath)
  then o
  else
    let receivedState := get "state" (searchParams uri) in
    if negb (bool_decide (receivedState = Some state)) then
      settle o (Rejected "State mismatch in callback")
    else
      match get "code" (searchParams uri) with
      | None => settle o (Rejected "Missing authorization code in callback")
      | Some code =>
          if String.eqb code "" then
            settle o (Rejected "Missing authorization code in callback")
          else settle o (Resolved (trim code))
      end.

Inductive LoginEvent :=
| Callback (uri : CallbackUri)
| TimedOut
| Cancelled.

Definition onLoginEvent (o : Outcome) (ev : LoginEvent) : Outcome :=
  match ev with
  | Callback uri => handleUri uri o
  | TimedOut => settle o (Rejected "Login timed out")
  | Cancelled => settle o (Rejected "Login cancelled")
  end.

(** What the login waits for, after the events. *)
Definition awaited (evs : list LoginEvent) : Outcome := foldl onLoginEvent Pending evs.

(** The token that [startLoginFlow] persists, if it gets that far:
    [exchange] is [exchangeAuth0CodeForToken] for the code, which gives a
    token or throws. *)
Definition persistedToken {E} (exchange : string -> DiagramLayout.completion E string)
    (evs : list LoginEvent) : option string :=
  match awaited evs with
  | Resolved code =>
      match exchange code with
      | DiagramLayout.Normal token => Some token
      | DiagramLayout.Throw _ => None
      end
  | _ => None
  end.
End Login.

End AuthBrowser.

(* ===================================================================== *)
(** ** The login of the desktop extension                                 *)
(* ===================================================================== *)

Module AuthManager.
Import AuthBrowser.

Section Login.
Variable callbackAuthority : string.
Variable state : string.

(** [handleUri(uri)] of the desktop extension: the state is compared
    only when the callback carries one. *)
Definition handleUri (uri : CallbackUri) (o : Outcome) : Outcome :=
  if negb (String.eqb (authority uri) callbackAuthority)
     || negb (String.eqb (path uri) callbackPath)
  then o
  else
    let receivedState := get "state" (searchParams uri) in
    let mismatch :=
      match receivedState with
      | Some received => negb (String.eqb received "") && negb (String.eqb received state)
      | None => false
      end in
    if mismatch then o
    else
      match get "code" (searchParams uri) with
      | None => settle o (Rejected "Missing authorization code in callback")
      | Some code =>
          if String.eqb code "" then
            settle o (Rejected "Missing authorization code in callback")
          else settle o (Resolved code)
      end.

Definition onLoginEvent (o : Outcome) (ev : LoginEvent) : Outcome :=
  match ev with
  | Callback uri => handleUri uri o
  | TimedOut => settle o (Rejected "Login timed out")
  | Cancelled => settle o (Rejected "Login cancelled")
  end.

Definition awaited (evs : list LoginEvent) : Outcome := foldl onLoginEvent Pending evs.

Definition persistedToken {E} (exchange : string -> DiagramLayout.completion E string)
    (evs : list LoginEvent) : option string :=
  match awaited evs with
  | Resolved code =>
      match exchange code with
      | DiagramLayout.Normal token => Some token
      | DiagramLayout.Throw _ => None
      end
  | _ => None
  end.
End Login.

End AuthManager.

(* ===================================================================== *)
(** ** Vocabulary of the further properties                               *)
(* ===================================================================== *)

Module Measures.
Import JsNumber SModel DiagramLayout.

(** The texts a node is sized for: the line of types, the label, and the
    property lines. *)
Definition nodeTexts (n : DiagramNode) : list string :=
  let types := default [] (n_types n) in
  (if (0 <? length types)%nat
   then String "171" (String.concat ", " types +:+ String "187" "")
   else "")
    :: default (n_id n) (n_label n) :: default [] (n_properties n).

(** The base id of the edge: its explicit id when it has one that is not
    empty, else source and target around an arrow. *)
Definition edgeBaseId (e : DiagramEdge) : string :=
  match e_id e with
  | Some i => if String.eqb i "" then e_source e +:+ "->" +:+ e_target e else i
  | None => e_source e +:+ "->" +:+ e_target e
  end.

(** The label of the edge when it has one that is not empty. *)
Definition edgeLabel (e : DiagramEdge) : option string :=
  match e_label e with
  | Some l => if String.eqb l "" then None else Some l
  | None => None
  end.

(** The squared distance of two points with finite coordinates. *)
Definition dist2 (x1 y1 x2 y2 : R) : R :=
  ((x2 - x1) * (x2 - x1) + (y2 - y1) * (y2 - y1))%R.

(** The element without its position. *)
Definition clearPosition (e : SElement) : SElement :=
  mkElement (el_id e) (el_type e) (el_kind e) (el_hasMarker e) (el_sourceId e)
    (el_targetId e) (el_labelIndex e) (el_size e) (el_types e) (el_props e)
    (el_cssClasses e) (el_layoutOptions e) (el_text e) None
    (el_routingPoints e) (el_points e) (el_bendPoints e) (el_children e).

(** The element with the positions of its label children forgotten. *)
Definition clearLabelPositions (e : SElement) : SElement :=
  withChildren e ((fun c => if isLabel c then clearPosition c else c) <$> el_children e).

(** The elements of a graph, parents before children, in document order. *)
Fixpoint elements (e : SElement) : list SElement :=
  e :: (fix of_children (cs : list SElement) : list SElement :=
          match cs with
          | [] => []
          | c :: cs' => elements c ++ of_children cs'
          end) (el_children e).

(** The distance of two touch points. *)
Definition touchDistance (t0 t1 : PanZoomController.Touch) : R :=
  R_sqrt.sqrt
    ((PanZoomController.clientX t1 + - PanZoomController.clientX t0)
     * (PanZoomController.clientX t1 + - PanZoomController.clientX t0)
     + (PanZoomController.clientY t1 + - PanZoomController.clientY t0)
       * (PanZoomController.clientY t1 + - PanZoomController.clientY t0))%R.

(** The top and the height of the label of a node as
    [renderCompartmentLine] takes them from the bounds of the label: 0
    for a [y] that is absent or not finite, and the default font size,
    13, for a height that is absent, not finite or not positive. *)
Definition labelTop (labelBounds : option Views.Bounds) : R :=
  match labelBounds with
  | Some b => match Views.b_y b with Fin y => y | _ => 0%R end
  | None => 0%R
  end.

Definition labelHeight (labelBounds : option Views.Bounds) : R :=
  match labelBounds with
  | Some b =>
      match Views.b_height b with
      | Fin h => if Rlt_dec 0 h then h else 13%R
      | _ => 13%R
      end
  | None => 13%R
  end.

(** The scale limits applied to a finite number. *)
Definition clampScale (v : R) : R := Rmax 0.2 (Rmin 3 v).

(** A press that starts panning: the middle button, or the left button
    off every node and edge. *)
Definition startsPan (button : nat) (hitInteractive : bool) : Prop :=
  button = 1 ∨ (button = 0 ∧ hitInteractive = false).

(** The ontology [o] imports the ontology [o'] at address [a], whose
    namespace [ns] is not empty. *)
Definition importsNamed (store : Workspace.Store) (o : Workspace.Ontology)
    (a : nat) (o' : Workspace.Ontology) (ns : string) : Prop :=
  ∃ imp, imp ∈ default [] (Workspace.o_ownedImports o)
         ∧ Workspace.ref store imp = Some (a, o')
         ∧ Workspace.truthy (Workspace.o_namespace o') = Some ns.

(** The ontologies reached from [root] through one import or more, each
    of an ontology with a namespace. *)
Inductive reachable (store : Workspace.Store) (root : Workspace.Ontology)
  : nat -> Workspace.Ontology -> string -> Prop :=
| reach_import a o ns :
    importsNamed store root a o ns -> reachable store root a o ns
| reach_step a o ns a' o' ns' :
    reachable store root a o ns -> importsNamed store o a' o' ns' ->
    reachable store root a' o' ns'.

(** No two ontologies of the store share a namespace. *)
Definition uniqueNamespaces (store : Workspace.Store) : Prop :=
  ∀ a b o o' ns,
    Workspace.ontologyAt store !! a = Some o ->
    Workspace.ontologyAt store !! b = Some o' ->
    Workspace.truthy (Workspace.o_namespace o) = Some ns ->
    Workspace.truthy (Workspace.o_namespace o') = Some ns ->
    o = o'.

(** The milliseconds that pass during the events. *)
Definition elapsed (evs : list DiagramUpdates.Event) : nat :=
  foldr (fun ev ms => match ev with DiagramUpdates.Elapse d => d + ms | _ => ms end) 0 evs.

(** No event of the list is a change or a save of the OML document [uri]. *)
Definition quiet (uri : string) (evs : list DiagramUpdates.Event) : Prop :=
  Forall (fun ev => ev ≠ DiagramUpdates.Change "oml" uri
                    ∧ ev ≠ DiagramUpdates.Save "oml" uri) evs.

(** The handles of the timers that are set for [uri]. *)
Definition pendingFor (uri : string) (st : DiagramUpdates.State) : gset nat :=
  dom (filter (fun ht : nat * (string * nat) => ht.2.1 = uri) (DiagramUpdates.timers st)).

(** The requests for [uri] among the calls of [updatePanelsForUri]. *)
Definition requestsFor (uri : string) (st : DiagramUpdates.State) : list string :=
  filter (fun u => u = uri) (DiagramUpdates.requested st).

(** Every ontology whose namespace was added to [visited] has all its
    named imports in the set. *)
Definition closedOver (store : Workspace.Store) (v0 v : gset string) : Prop :=
  ∀ a o n, Workspace.ontologyAt store !! a = Some o →
           Workspace.truthy (Workspace.o_namespace o) = Some n →
           n ∈ v → n ∉ v0 →
           ∀ a' o' n', importsNamed store o a' o' n' → n' ∈ v.

(** The timers that are set are the ones recorded in [updateTimeouts],
    each under the uri of its callback. *)
Definition recorded (m : gmap string nat) (t : gmap nat (string * nat)) : Prop :=
  (∀ h u due, t !! h = Some (u, due) → m !! u = Some h)
  ∧ (∀ u h, m !! u = Some h → ∃ due, t !! h = Some (u, due)).

(** What holds between events. *)
Definition consistent (st : DiagramUpdates.State) : Prop :=
  recorded (DiagramUpdates.updateTimeouts st) (DiagramUpdates.timers st)
  ∧ 0 < DiagramUpdates.nextHandle st
  ∧ ∀ h x, DiagramUpdates.timers st !! h = Some x →
           0 < h < DiagramUpdates.nextHandle st.

(** Each timer that is set was set by a change of its document, is due
    300 after that change, and since then the document was neither
    changed nor saved. *)
Definition timed (evs : list DiagramUpdates.Event) (st : DiagramUpdates.State) : Prop :=
  DiagramUpdates.now st = elapsed evs
  ∧ ∀ h u due, DiagramUpdates.timers st !! h = Some (u, due) →
               ∃ evs1 evs2, evs = evs1 ++ DiagramUpdates.Change "oml" u :: evs2
                            ∧ due = elapsed evs1 + 300
                            ∧ quiet u evs2.

(** The unreserved characters that a PKCE code verifier is made of, as
    far as Base64 produces them: letters, digits, [-] and [_]. *)
Definition urlSafe (x : ascii) : bool :=
  let n := nat_of_ascii x in
  ((65 <=? n) && (n <=? 90)) || ((97 <=? n) && (n <=? 122))
  || ((48 <=? n) && (n <=? 57)) || (n =? 45) || (n =? 95).

(** Every character of the string satisfies the test. *)
Fixpoint allChars (p : ascii -> bool) (s : string) : bool :=
  match s with
  | EmptyString => true
  | String x s' => p x && allChars p s'
  end.

(** A character of Base64 that is no padding. *)
Definition base64Char (x : ascii) : bool :=
  urlSafe x || Ascii.eqb x "+" || Ascii.eqb x "/".

(** A callback that the handler of the login does not look at: it is
    for another authority or path. *)
Definition ignoredCallback (callbackAuthority : string) (ev : AuthBrowser.LoginEvent)
  : Prop :=
  match ev with
  | AuthBrowser.Callback uri =>
      AuthBrowser.authority uri ≠ callbackAuthority
      ∨ AuthBrowser.path uri ≠ AuthBrowser.callbackPath
  | _ => False
  end.

(** A state parameter that is absent or empty. *)
Definition noState (uri : AuthBrowser.CallbackUri) : Prop :=
  AuthBrowser.get "state" (AuthBrowser.searchParams uri) = None
  ∨ AuthBrowser.get "state" (AuthBrowser.searchParams uri) = Some "".

(** A callback that the handler of the desktop login returns from without
    settling anything: it is for another authority or path, or carries a
    state that is not the one of this login. *)
Definition skippedCallback (callbackAuthority state : string) (ev : AuthBrowser.LoginEvent)
  : Prop :=
  match ev with
  | AuthBrowser.Callback uri =>
      AuthBrowser.authority uri ≠ callbackAuthority
      ∨ AuthBrowser.path uri ≠ AuthBrowser.callbackPath
      ∨ ∃ received, AuthBrowser.get "state" (AuthBrowser.searchParams uri) = Some received
                    ∧ received ≠ "" ∧ received ≠ state
  | _ => False
  end.

End Measures.

(* ===================================================================== *)
(** ** Further inputs                                                     *)
(* ===================================================================== *)

Module MoreScenarios.
Import JsNumber SModel DiagramLayout.

(** A label with no layout options. *)
Definition tailLabel : SElement := label "e_label" "r" ∅.

(** A laid-out edge from (0,0) to (0,24) whose label placement is TAIL. *)
Definition tailEdge : SElement :=
  mkElement "e" "edge" (Some "relation") None (Some "A") (Some "B") (Some (Fin 0))
            None None None None (Some (textOptions [(placementKey, "TAIL")]))
            None None (Some [mkPoint (Fin 0) (Fin 0); mkPoint (Fin 0) (Fin 24)])
            None None [tailLabel].

(** The element with [routingPoints] set. *)
Definition withRoute (e : SElement) (pts : list Point) : SElement :=
  mkElement (el_id e) (el_type e) (el_kind e) (el_hasMarker e) (el_sourceId e)
    (el_targetId e) (el_labelIndex e) (el_size e) (el_types e) (el_props e)
    (el_cssClasses e) (el_layoutOptions e) (el_text e) (el_position e)
    (Some pts) (el_points e) (el_bendPoints e) (el_children e).

(** A concept with one property. *)
Definition propertyConcept : DiagramNode :=
  mkDiagramNode "A" "concept" None None (Some ["name : string"]) None None None None.

(** The element synthesized for it. *)
Definition propertyNode : SElement :=
  default DiagramModelRequest.emptyModel (createNode propertyConcept).

(** Two ontologies that import each other, in documents 0 and 1. *)
Definition cyclicRoot : Workspace.Ontology :=
  Workspace.mkOntology (Some "http://example.org/a#")
    (Some [Workspace.mkImport (Some "b") (Some 1)])
    (Some [Workspace.mkStatement (Some "Named") (Some (Workspace.mkCstNode 10 5)) false None])
    (Some 0) (Some (Workspace.mkCstNode 0 40)).

Definition cyclicImported : Workspace.Ontology :=
  Workspace.mkOntology (Some "http://example.org/b#")
    (Some [Workspace.mkImport (Some "a") (Some 0)])
    (Some [Workspace.mkStatement (Some "Thing") (Some (Workspace.mkCstNode 20 7)) false None])
    (Some 1) (Some (Workspace.mkCstNode 0 50)).

(** Lines of ten characters. *)
Definition tenPerLine (offset : nat) : Workspace.Position :=
  Workspace.mkPosition (offset / 10) (offset mod 10).

Definition cyclicStore : Workspace.Store :=
  Workspace.mkStore
    (<[0 := cyclicRoot]> (<[1 := cyclicImported]> ∅))
    (<[0 := Workspace.mkDocument "file:///a.oml" (Some 0) (Some tenPerLine)]>
       (<[1 := Workspace.mkDocument "file:///b.oml" (Some 1) (Some tenPerLine)]> ∅)).

(** A callback for another path, the callback of the login with a code
    in white space, and a late cancellation. *)
Definition loginEvents : list AuthBrowser.LoginEvent :=
  [AuthBrowser.Callback
     (AuthBrowser.mkCallbackUri "modelware.oml-code" "/other" [("state", "s1")]);
   AuthBrowser.Callback
     (AuthBrowser.mkCallbackUri "modelware.oml-code" "/callback"
        [("code", " abc "); ("state", "s1")]);
   AuthBrowser.Cancelled].

(** A callback with a code and no state. *)
Definition statelessCallback : AuthBrowser.CallbackUri :=
  AuthBrowser.mkCallbackUri "modelware.oml-code" "/callback" [("code", "abc")].

End MoreScenarios.

(* ===================================================================== *)
(** * Properties                                                          *)
(* ===================================================================== *)

Import JsString Regex JsNumber SModel DiagramLayout Vocabulary Scenarios.

(** ** Strings *)

Lemma append_cons (a : ascii) (s t : string) : String a s +:+ t = String a (s +:+ t).
Proof. reflexivity. Qed.

Lemma append_nil_l (t : string) : "" +:+ t = t.
Proof. reflexivity. Qed.

Lemma length_append (s t : string) :
  String.length (s +:+ t) = (String.length s + String.length t)%nat.
Proof.
  induction s as [|a s IH]; [done|].
  rewrite append_cons. simpl. by rewrite IH.
Qed.

Lemma append_nil_r (s : string) : s +:+ "" = s.
Proof. induction s as [|a s IH]; [done|]. by rewrite append_cons, IH. Qed.

Lemma append_assoc (s t u : string) : (s +:+ t) +:+ u = s +:+ (t +:+ u).
Proof. induction s as [|a s IH]; [done|]. by rewrite !append_cons, IH. Qed.

Lemma take_append (s t : string) : take (String.length s) (s +:+ t) = s.
Proof.
  induction s as [|a s IH]; [by destruct t|].
  rewrite append_cons. simpl. by rewrite IH.
Qed.

Lemma drop_append (s t : string) : drop (String.length s) (s +:+ t) = t.
Proof. induction s as [|a s IH]; [done|]. by rewrite append_cons. Qed.

Lemma endsWith_append (s p : string) : endsWith (s +:+ p) p = true.
Proof.
  unfold endsWith. rewrite length_append.
  replace (String.length s + String.length p - String.length p)%nat
    with (String.length s) by lia.
  rewrite drop_append, String.eqb_refl.
  apply andb_true_intro; split; [apply Nat.leb_le; lia | done].
Qed.

(** ** [makeUniqueId] *)

Lemma candidate_inj base : Inj (=) (=) (candidate base).
Proof.
  intros j k H. destruct j as [|j], k as [|k]; simpl in H; [done | | | ].
  - apply (f_equal String.length) in H. rewrite length_append in H. simpl in H. lia.
  - apply (f_equal String.length) in H. rewrite length_append in H. simpl in H. lia.
  - apply String.app_inj in H. injection H as H. by apply pretty_nat_inj in H.
Qed.

Lemma uniqueIdLoop_fresh fuel (usedIds : gset string) base id i r :
  uniqueIdLoop fuel usedIds base id i = Some r → r ∉ usedIds.
Proof.
  revert id i. induction fuel as [|fuel IH]; intros id i; simpl;
    case_bool_decide; try done; try (intros [= <-]; done).
  apply IH.
Qed.

(** The loop sees [candidate base i] next; the candidates before it were
    all taken, and are the members of [seen]. *)
Lemma uniqueIdLoop_total_from fuel (usedIds seen : gset string) base i :
  seen ⊆ usedIds →
  (∀ k, i ≤ k → candidate base k ∉ seen) →
  size usedIds ≤ fuel + size seen →
  is_Some (uniqueIdLoop fuel usedIds base (candidate base i) (S i)).
Proof.
  revert seen i. induction fuel as [|fuel IH]; intros seen i Hsub Hnew Hsize; simpl;
    case_bool_decide as Hin; try by eexists.
  - exfalso. apply (Hnew i); [lia|].
    pose proof (set_subseteq_size_eq seen usedIds Hsub ltac:(lia)) as Heq.
    by rewrite Heq.
  - change (base +:+ ":" +:+ pretty (S i)) with (candidate base (S i)).
    apply (IH ({[candidate base i]} ∪ seen)).
    + apply union_subseteq. split; [|done].
      by apply singleton_subseteq_l.
    + intros k Hk. rewrite not_elem_of_union, not_elem_of_singleton. split.
      * intros Heq. apply candidate_inj in Heq. lia.
      * apply Hnew. lia.
    + rewrite size_union, size_singleton; [lia|].
      apply disjoint_singleton_l, Hnew. lia.
Qed.

(** ** The graph synthesizer *)

(** The loop of [makeUniqueId] ends within the iterations it is given. *)
Lemma uniqueIdLoop_total (usedIds : gset string) base :
  is_Some (uniqueIdLoop (size usedIds) usedIds base base 1).
Proof.
  apply (uniqueIdLoop_total_from (size usedIds) usedIds ∅ base 0).
  - apply empty_subseteq.
  - intros k _. apply not_elem_of_empty.
  - rewrite size_empty. lia.
Qed.

Lemma makeUniqueId_fresh (usedIds : gset string) base :
  (makeUniqueId usedIds base).1 ∉ usedIds.
Proof.
  unfold makeUniqueId. simpl.
  destruct (uniqueIdLoop_total usedIds base) as [r Hr].
  rewrite Hr. simpl. eapply uniqueIdLoop_fresh, Hr.
Qed.

Lemma makeUniqueId_adds (usedIds : gset string) base :
  (makeUniqueId usedIds base).2 = {[(makeUniqueId usedIds base).1]} ∪ usedIds.
Proof. reflexivity. Qed.

(** What one pass of the edge loop emits and leaves behind. *)
Lemma createEdge_spec e (usedIds : gset string) (selfLoopAssigned : JsObject.object) :
  ∀ edge usedIds' selfLoopAssigned',
    createEdge e usedIds selfLoopAssigned = (edge, usedIds', selfLoopAssigned') →
    (el_id edge ∉ usedIds)
    ∧ usedIds' = {[el_id edge]} ∪ usedIds
    ∧ el_type edge = "edge"
    ∧ el_sourceId edge = Some (e_source e)
    ∧ el_targetId edge = Some (e_target e)
    ∧ (if String.eqb (e_source e) (e_target e)
       then el_labelIndex edge
            = Some (JsObject.subOne (JsObject.get selfLoopAssigned' (e_source e)))
            ∧ selfLoopAssigned'
              = JsObject.set selfLoopAssigned (e_source e)
                  (JsObject.addOne
                     (default (JsObject.VNumber 0)
                        (JsObject.get selfLoopAssigned (e_source e))))
       else el_labelIndex edge = Some (Fin 0) ∧ selfLoopAssigned' = selfLoopAssigned)
    ∧ (∃ opts, el_layoutOptions edge = Some opts
               ∧ opts !! placementKey = Some (OText "CENTER"))
    ∧ unpositioned edge = true.
Proof.
  intros edge usedIds' sl'. unfold createEdge.
  set (base := match e_id e with Some i => _ | None => _ end).
  pose proof (makeUniqueId_fresh usedIds base) as Hfresh.
  pose proof (makeUniqueId_adds usedIds base) as Hadds.
  destruct (makeUniqueId usedIds base) as [id used1]. simpl in Hfresh, Hadds.
  destruct (String.eqb (e_source e) (e_target e)) eqn:Hloop; intros [= <- <- <-]; simpl.
  - repeat split; try done.
    + eexists; split; [done|].
      destruct (String.eqb (e_kind e) "specialization" || String.eqb (e_kind e) "equivalence");
        vm_compute; reflexivity.
    + destruct (e_label e) as [l|]; [destruct (String.eqb l "")|]; reflexivity.
  - repeat split; try done.
    + eexists; split; [done|].
      destruct (String.eqb (e_kind e) "specialization" || String.eqb (e_kind e) "equivalence");
        vm_compute; reflexivity.
    + destruct (e_label e) as [l|]; [destruct (String.eqb l "")|]; reflexivity.
Qed.

Lemma createEdges_cons e es (usedIds : gset string) (sl : JsObject.object) :
  createEdges (e :: es) usedIds sl
  = (createEdge e usedIds sl).1.1
      :: createEdges es (createEdge e usedIds sl).1.2 (createEdge e usedIds sl).2.
Proof. simpl. by destruct (createEdge e usedIds sl) as [[??]?]. Qed.

(** Edge ids avoid every id in use, and one another. *)
Lemma createEdges_ids es (usedIds : gset string) (sl : JsObject.object) :
  NoDup (el_id <$> createEdges es usedIds sl)
  ∧ ∀ id, id ∈ el_id <$> createEdges es usedIds sl → id ∉ usedIds.
Proof.
  revert usedIds sl. induction es as [|e es IH]; intros usedIds sl.
  - split; [constructor | intros id Hin; by apply elem_of_nil in Hin].
  - rewrite createEdges_cons.
    destruct (createEdge e usedIds sl) as [[edge used1] sl1] eqn:He. simpl.
    destruct (createEdge_spec _ _ _ _ _ _ He) as (Hfresh & -> & _).
    destruct (IH ({[el_id edge]} ∪ usedIds) sl1) as [Hnd Hout].
    split.
    + constructor; [|done]. intros Hin. apply Hout in Hin.
      apply Hin, elem_of_union_l, elem_of_singleton. done.
    + intros id [->|Hin]%elem_of_cons; [done|].
      apply Hout in Hin. intros Hu. apply Hin, elem_of_union_r, Hu.
Qed.

Lemma createEdges_elem es (usedIds : gset string) (sl : JsObject.object) edge :
  edge ∈ createEdges es usedIds sl →
  ∃ e usedIds0 sl0, e ∈ es ∧ edge = (createEdge e usedIds0 sl0).1.1.
Proof.
  revert usedIds sl. induction es as [|e es IH]; intros usedIds sl.
  - intros Hin. by apply elem_of_nil in Hin.
  - rewrite createEdges_cons. intros [->|Hin]%elem_of_cons.
    + exists e, usedIds, sl. split; [left | done].
    + destruct (IH _ _ Hin) as (e' & u & s & He' & ->).
      exists e', u, s. split; [by right | done].
Qed.

Lemma createEdge_spec1 e (usedIds : gset string) (sl : JsObject.object) :
  let edge := (createEdge e usedIds sl).1.1 in
  el_type edge = "edge"
  ∧ el_sourceId edge = Some (e_source e)
  ∧ el_targetId edge = Some (e_target e)
  ∧ (e_source e ≠ e_target e → el_labelIndex edge = Some (Fin 0))
  ∧ (∃ opts, el_layoutOptions edge = Some opts
             ∧ opts !! placementKey = Some (OText "CENTER"))
  ∧ unpositioned edge = true.
Proof.
  destruct (createEdge e usedIds sl) as [[edge used1] sl1] eqn:He. simpl.
  destruct (createEdge_spec _ _ _ _ _ _ He) as (_ & _ & Ht & Hs & Htg & Hli & Hopt & Hpos).
  repeat split; try done.
  intros Hne. destruct (String.eqb_spec (e_source e) (e_target e)); [done | apply Hli].
Qed.

(** Reading and writing the table at a name that is not inherited. *)
Lemma get_own (o : JsObject.object) (n : string) :
  n ∉ JsObject.objectPrototypeKeys → JsObject.get o n = o !! n.
Proof.
  intros Hn. unfold JsObject.get. destruct (o !! n); [done|].
  by rewrite bool_decide_eq_false_2.
Qed.

Lemma set_own (o : JsObject.object) (n : string) (v : JsObject.value) :
  n ∉ JsObject.objectPrototypeKeys → JsObject.set o n v = <[n := v]> o.
Proof.
  intros Hn. unfold JsObject.set.
  destruct (String.eqb_spec n "__proto__") as [->|]; [|done].
  exfalso. apply Hn. vm_compute. repeat (first [left | right]).
Qed.

Lemma set_other (o : JsObject.object) (m n : string) (v : JsObject.value) :
  m ≠ n → JsObject.set o m v !! n = o !! n.
Proof.
  intros Hmn. unfold JsObject.set. destruct (String.eqb m "__proto__"); [done|].
  by apply lookup_insert_ne.
Qed.

Lemma subOne_next (c : nat) :
  JsObject.subOne (Some (JsObject.VNumber (c + 1))) = of_nat c.
Proof.
  unfold JsObject.subOne, sub, of_nat. simpl. f_equal.
  rewrite Nat.add_1_r, S_INR. lra.
Qed.

(** The self-loops on [n] count up from what the table holds for [n], as
    long as [n] is no inherited name. *)
Lemma createEdges_selfLoops n c es (usedIds : gset string) (sl : JsObject.object) :
  n ∉ JsObject.objectPrototypeKeys →
  ownCount sl n = Some c →
  el_labelIndex <$> filter (selfLoopOn n) (createEdges es usedIds sl)
  = (fun k => Some (of_nat k))
      <$> seq c (length (filter (selfLoopOn n) (createEdges es usedIds sl))).
Proof.
  intros Hn. revert c usedIds sl.
  induction es as [|e es IH]; intros c usedIds sl Hc; [done|].
  rewrite createEdges_cons.
  destruct (createEdge e usedIds sl) as [[edge used1] sl1] eqn:He. simpl.
  destruct (createEdge_spec _ _ _ _ _ _ He) as (_ & _ & _ & Hs & Ht & Hli & _).
  rewrite filter_cons. destruct (decide (selfLoopOn n edge)) as [[H1 H2]|Hno].
  - rewrite Hs in H1. rewrite Ht in H2. injection H1 as H1. injection H2 as H2.
    rewrite H1, H2, String.eqb_refl in Hli. destruct Hli as [Hli Hsl1].
    assert (default (JsObject.VNumber 0) (JsObject.get sl n) = JsObject.VNumber c) as Hcount.
    { rewrite get_own by done. unfold ownCount in Hc.
      destruct (sl !! n) as [[k|]|]; simpl; congruence. }
    rewrite Hcount, set_own in Hsl1 by done. simpl in Hsl1.
    assert (sl1 !! n = Some (JsObject.VNumber (c + 1))) as Hn1
      by (rewrite Hsl1; apply lookup_insert_eq).
    rewrite get_own, Hn1, subOne_next in Hli by done.
    simpl. rewrite Hli. f_equal.
    apply IH. unfold ownCount. rewrite Hn1. f_equal. lia.
  - apply IH. rewrite <- Hc. unfold ownCount.
    destruct (String.eqb_spec (e_source e) (e_target e)) as [Hst|Hst].
    + destruct Hli as [_ ->]. rewrite set_other; [done|].
      intros Hsrc. apply Hno. split; congruence.
    + by destruct Hli as [_ ->].
Qed.

Lemma createNodes_unpositioned ns : forallb unpositioned (createNodes ns) = true.
Proof.
  induction ns as [|n ns IH]; [done|].
  unfold createNodes in *. simpl. unfold createNode at 1.
  destruct (String.eqb (n_kind n) "relation"); simpl; [done|]. apply IH.
Qed.

Lemma createEdges_unpositioned es (usedIds : gset string) (sl : JsObject.object) :
  forallb unpositioned (createEdges es usedIds sl) = true.
Proof.
  revert usedIds sl. induction es as [|e es IH]; intros usedIds sl; [done|].
  rewrite createEdges_cons. simpl. rewrite IH.
  destruct (createEdge_spec1 e usedIds sl) as (_ & _ & _ & _ & _ & ->). done.
Qed.

Lemma diagramToSprotty_unpositioned model : unpositioned (diagramToSprotty model) = true.
Proof.
  unfold diagramToSprotty, synthNodes, synthEdges. simpl.
  rewrite forallb_app, createNodes_unpositioned, createEdges_unpositioned. done.
Qed.

Lemma createNodes_ids ns :
  el_id <$> createNodes ns
  = n_id <$> filter (fun n => n_kind n ≠ "relation") ns.
Proof.
  induction ns as [|n ns IH]; [done|].
  rewrite filter_cons.
  change (createNodes (n :: ns))
    with (match createNode n with Some x => x :: createNodes ns | None => createNodes ns end).
  unfold createNode.
  destruct (String.eqb_spec (n_kind n) "relation") as [Hk|Hk].
  - rewrite decide_False by (intros H; by apply H). apply IH.
  - rewrite decide_True by done. rewrite !fmap_cons. simpl. by rewrite IH.
Qed.

(** ** The layout adapter *)

Lemma fmap_fixed {A} (f : A → A) (l : list A) :
  (∀ x, x ∈ l → f x = x) → f <$> l = l.
Proof.
  induction l as [|x l IH]; intros Hf; [done|].
  rewrite fmap_cons, Hf by left. f_equal. apply IH. intros y Hy. apply Hf. by right.
Qed.

Lemma withChildren_id e : withChildren e (el_children e) = e.
Proof. by destruct e. Qed.

Lemma adjustEdgeLabel_not_tail child opts :
  el_layoutOptions child = Some opts →
  opts !! placementKey = Some (OText "CENTER") →
  adjustEdgeLabel child = child.
Proof.
  intros Ho Hp. unfold adjustEdgeLabel.
  destruct (String.eqb (el_type child) "edge"); [|done].
  destruct (find isLabel (el_children child)); [|done].
  rewrite Ho. simpl. rewrite Hp. done.
Qed.

Lemma synthNodes_type model node : node ∈ synthNodes model → el_type node = "node:rect".
Proof.
  unfold synthNodes, createNodes. intros (n & _ & Hn)%list_elem_of_omap.
  unfold createNode in Hn. destruct (String.eqb (n_kind n) "relation"); [done|].
  by injection Hn as <-.
Qed.

Lemma synthEdges_spec model edge :
  edge ∈ synthEdges model →
  el_type edge = "edge"
  ∧ (el_sourceId edge ≠ el_targetId edge → el_labelIndex edge = Some (Fin 0))
  ∧ ∃ opts, el_layoutOptions edge = Some opts
            ∧ opts !! placementKey = Some (OText "CENTER").
Proof.
  intros (e & u & s & _ & ->)%createEdges_elem.
  destruct (createEdge_spec1 e u s) as (Ht & Hs & Htg & Hli & Hopt & _).
  repeat split; try done.
  intros Hne. apply Hli. rewrite Hs, Htg in Hne. congruence.
Qed.

(** ** Claims on the synthesizer and the layout adapter *)

(** C2, as stated, fails: the graph synthesized for scenario A has no
    element with id [[A]->[B]]; its elements are A, B and A->B. *)
Lemma scenarioA_has_no_bracketed_id :
  ¬ ∃ el, el ∈ el_children (diagramToSprotty scenarioA) ∧ el_id el = "[A]->[B]".
Proof.
  intros (el & Hin & Hid).
  apply (list_elem_of_fmap_2 el_id) in Hin. rewrite Hid in Hin.
  replace (el_id <$> el_children (diagramToSprotty scenarioA))
    with ["A"; "B"; "A->B"] in Hin by (vm_compute; reflexivity).
  repeat (apply elem_of_cons in Hin as [Hin|Hin]; [discriminate Hin|]).
  by apply elem_of_nil in Hin.
Qed.

(** C2, amended: for scenario A the synthesizer emits one visual edge,
    whose id is the explicit id [A->B] unchanged, and the webview decodes
    [A->B] to itself.  When the explicit id of the edge is [[A]->[B]], the
    synthesizer keeps it, and the webview, with a model loaded, decodes it
    to [A]. *)
Theorem scenarioA_edge_id_and_decoding :
  el_id <$> synthEdges scenarioA = ["A->B"]
  ∧ (∀ model, NavigationHandler.resolveNavigationId model "A->B" = "A->B")
  ∧ el_id <$> synthEdges scenarioA_bracketed = ["[A]->[B]"]
  ∧ (∀ model, NavigationHandler.resolveNavigationId (Some model) "[A]->[B]" = "A").
Proof.
  split; [vm_compute; reflexivity|].
  split; [intros [m|]; vm_compute; reflexivity|].
  split; [vm_compute; reflexivity|].
  intros m; vm_compute; reflexivity.
Qed.

(** The direction of the layout is named twice in what the layout engine
    is given.  The graph options of [OmlLayoutConfigurator], the
    configurator the engine is built with, say UP, with longest-path
    layering, depth-first cycle breaking, Brandes-Koepf node placement
    with alignment CENTER and polyline routing. *)
Lemma OmlLayoutConfigurator_graphOptions :
  ∃ opts, graphOptions OmlLayoutConfigurator = Some opts
    ∧ opts !! "org.eclipse.elk.algorithm" = Some "org.eclipse.elk.layered"
    ∧ opts !! "org.eclipse.elk.direction" = Some "UP"
    ∧ opts !! "org.eclipse.elk.layered.layering.strategy" = Some "LONGEST_PATH"
    ∧ opts !! "org.eclipse.elk.layered.cycleBreaking.strategy" = Some "DEPTH_FIRST"
    ∧ opts !! "org.eclipse.elk.layered.nodePlacement.strategy" = Some "BRANDES_KOEPF"
    ∧ opts !! "org.eclipse.elk.layered.nodePlacement.bk.fixedAlignment" = Some "CENTER"
    ∧ opts !! "org.eclipse.elk.edgeRouting" = Some "POLYLINE"
    ∧ opts !! "org.eclipse.elk.layered.edgeRouting" = Some "POLYLINE".
Proof.
  eexists. split; [reflexivity|]. repeat split; vm_compute; reflexivity.
Qed.

(** The root of every synthesized graph, which the engine lays out, says
    DOWN in the layout options it carries as an element.  Which of the two
    the layout follows is decided in the engine ([ElkLayoutEngine] of
    sprotty-elk), outside this code. *)
Lemma root_layoutOptions_direction model :
  el_layoutOptions (diagramToSprotty model) ≫= (.!! "org.eclipse.elk.direction")
  = Some (OText "DOWN").
Proof. vm_compute. reflexivity. Qed.

(** C5: when the layout engine throws on the synthesized graph,
    [computeLaidOutSModelForUri] returns normally, with the synthesized
    graph itself, in which no element has a position or a route. *)
Theorem layout_fails_soft :
  ∀ {E} (computeDiagramModel : string → completion E DiagramModel)
    (layout : LayoutConfigurator → SElement → completion E SElement)
    (uri : string) (model : DiagramModel) (err : E),
    computeDiagramModel uri = Normal model →
    layoutEngine layout (diagramToSprotty model) = Throw err →
    computeLaidOutSModelForUri computeDiagramModel layout uri
    = Normal (diagramToSprotty model)
    ∧ unpositioned (diagramToSprotty model) = true.
Proof.
  intros E cdm layout uri model err Hm Hthrow. split.
  - unfold computeLaidOutSModelForUri. rewrite Hm, Hthrow. reflexivity.
  - apply diagramToSprotty_unpositioned.
Qed.

(** Scenario A with an engine that always throws. *)
Lemma layout_fails_soft_witness :
  computeLaidOutSModelForUri (E := unit)
    (fun _ => Normal scenarioA) (fun _ _ => Throw ()) "file:///a.oml"
  = Normal (diagramToSprotty scenarioA)
  ∧ unpositioned (diagramToSprotty scenarioA) = true.
Proof.
  apply (layout_fails_soft (E := unit) (fun _ => Normal scenarioA) (fun _ _ => Throw ())
           "file:///a.oml" scenarioA ()); reflexivity.
Defined.

(** Where C6 holds: in the synthesized graph every edge whose source
    differs from its target has labelIndex 0, and for each node n whose id
    is not a property name of [Object.prototype] the labelIndex values of
    the self-loops on n, in edge order, are 0, 1, 2, ... without gap. *)
Lemma selfLoop_labelIndex_contiguous_own :
  ∀ model : DiagramModel,
    (∀ edge, edge ∈ synthEdges model →
             el_sourceId edge ≠ el_targetId edge → el_labelIndex edge = Some (Fin 0))
    ∧ (∀ n, n ∉ JsObject.objectPrototypeKeys →
            el_labelIndex <$> filter (selfLoopOn n) (synthEdges model)
            = (fun k => Some (of_nat k))
                <$> seq 0 (length (filter (selfLoopOn n) (synthEdges model)))).
Proof.
  intros model. split.
  - intros edge Hin. apply synthEdges_spec in Hin as (_ & Hli & _). exact Hli.
  - intros n Hn. unfold synthEdges. by apply createEdges_selfLoops.
Qed.

(** The loops model: its first and third edges are self-loops on A. *)
Example loops_labelIndex :
  el_labelIndex <$> filter (selfLoopOn "A") (synthEdges loops)
  = [Some (of_nat 0); Some (of_nat 1)].
Proof.
  apply (proj2 (selfLoop_labelIndex_contiguous_own loops) "A").
  intros Hin. vm_compute in Hin.
  repeat (apply elem_of_cons in Hin as [Hin|Hin]; [discriminate Hin|]).
  by apply elem_of_nil in Hin.
Qed.

(** C6, on the failing input: the only self-loop on the node named
    constructor gets the labelIndex NaN, not 0. *)
Theorem inherited_name_breaks_labelIndex :
  el_labelIndex <$> filter (selfLoopOn "constructor") (synthEdges constructorLoop)
  = [Some NaN]
  ∧ el_labelIndex <$> filter (selfLoopOn "constructor") (synthEdges constructorLoop)
    ≠ (fun k => Some (of_nat k)) <$> seq 0 1.
Proof.
  assert (el_labelIndex <$> filter (selfLoopOn "constructor") (synthEdges constructorLoop)
          = [Some NaN]) as H by (vm_compute; reflexivity).
  split; [exact H|]. rewrite H. intros [=].
Qed.

(** C9, as stated, fails: a model that lists the node A twice is drawn
    with two elements of id A. *)
Lemma twiceA_ids_collide :
  ¬ NoDup (el_id <$> el_children (diagramToSprotty twiceA)).
Proof.
  replace (el_id <$> el_children (diagramToSprotty twiceA))
    with ["A"; "A"] by (vm_compute; reflexivity).
  intros Hnd. apply NoDup_cons in Hnd as [Hnin _]. apply Hnin. left.
Qed.

(** C9, amended: the id of a synthesized edge differs from the id of
    every node and of every other edge; and when the ids of the drawn
    nodes of the model are pairwise distinct, the ids of all nodes and
    edges of the synthesized graph are pairwise distinct. *)
Theorem element_ids_distinct :
  ∀ model : DiagramModel,
    NoDup (el_id <$> synthEdges model)
    ∧ (∀ id, id ∈ el_id <$> synthEdges model → id ∉ el_id <$> synthNodes model)
    ∧ (NoDup (drawnNodeIds model) →
       NoDup (el_id <$> el_children (diagramToSprotty model))).
Proof.
  intros model. unfold synthEdges.
  destruct (createEdges_ids (edges model) (list_to_set (el_id <$> synthNodes model)) ∅)
    as [Hnd Hout].
  split; [done|]. split.
  - intros id Hin Hnode. apply (Hout id Hin). by apply elem_of_list_to_set.
  - intros Hnodes. simpl. rewrite fmap_app. apply NoDup_app. split; [|split].
    + unfold synthNodes. by rewrite createNodes_ids.
    + intros id Hnode Hedge. apply (Hout id Hedge). by apply elem_of_list_to_set.
    + done.
Qed.

(** The loops model, whose drawn nodes are A and B. *)
Lemma element_ids_distinct_witness :
  NoDup (drawnNodeIds loops)
  ∧ NoDup (el_id <$> el_children (diagramToSprotty loops)).
Proof.
  assert (NoDup (drawnNodeIds loops)) as Hnodes.
  { replace (drawnNodeIds loops) with ["A"; "B"] by (vm_compute; reflexivity).
    repeat constructor; intros Hin;
      repeat (apply elem_of_cons in Hin as [Hin|Hin]; [discriminate Hin|]);
      by apply elem_of_nil in Hin. }
  split; [exact Hnodes|].
  exact (proj2 (proj2 (element_ids_distinct loops)) Hnodes).
Defined.

(** C10: every synthesized edge carries the label placement CENTER, so
    when the engine returns a graph whose edges carry the layout options
    of synthesized edges, the label adjustment changes nothing: the
    adapter returns exactly what the engine returned. *)
Theorem labels_left_as_laid_out :
  ∀ {E} (computeDiagramModel : string → completion E DiagramModel)
    (layout : LayoutConfigurator → SElement → completion E SElement)
    (uri : string) (model : DiagramModel) (laidOut : SElement),
    computeDiagramModel uri = Normal model →
    layoutEngine layout (diagramToSprotty model) = Normal laidOut →
    (∀ c, c ∈ el_children laidOut → el_type c = "edge" →
          ∃ c0, c0 ∈ el_children (diagramToSprotty model)
                ∧ el_type c0 = "edge" ∧ el_layoutOptions c = el_layoutOptions c0) →
    (∀ edge, edge ∈ synthEdges model →
             ∃ opts, el_layoutOptions edge = Some opts
                     ∧ opts !! placementKey = Some (OText "CENTER")
                     ∧ opts !! placementKey ≠ Some (OText "TAIL"))
    ∧ computeLaidOutSModelForUri computeDiagramModel layout uri = Normal laidOut.
Proof.
  intros E cdm layout uri model laidOut Hm Hlay Hkeep. split.
  - intros edge (_ & _ & opts & Ho & Hp)%synthEdges_spec.
    exists opts. repeat split; [done..|]. rewrite Hp. discriminate.
  - unfold computeLaidOutSModelForUri. rewrite Hm, Hlay. simpl. f_equal.
    unfold adjustEdgeLabels.
    rewrite fmap_fixed; [apply withChildren_id|]. intros c Hc.
    destruct (String.eqb_spec (el_type c) "edge") as [Ht|Ht].
    + destruct (Hkeep c Hc Ht) as (c0 & Hc0 & Ht0 & Ho).
      simpl in Hc0. apply elem_of_app in Hc0 as [Hn|He].
      * apply synthNodes_type in Hn. congruence.
      * apply synthEdges_spec in He as (_ & _ & opts & Ho0 & Hp).
        apply (adjustEdgeLabel_not_tail c opts); congruence.
    + unfold adjustEdgeLabel. by destruct (String.eqb_spec (el_type c) "edge").
Qed.

(** The adapter on the loops model, with an engine that returns the graph
    it is given. *)
Lemma labels_left_as_laid_out_witness :
  computeLaidOutSModelForUri (E := unit)
    (fun _ => Normal loops) (fun _ g => Normal g) "file:///a.oml"
  = Normal (diagramToSprotty loops).
Proof.
  apply (labels_left_as_laid_out (E := unit) (fun _ => Normal loops) (fun _ g => Normal g)
           "file:///a.oml" loops (diagramToSprotty loops)); [reflexivity | reflexivity |].
  intros c Hc Ht. exists c. repeat split; assumption.
Defined.

(** ** More on strings *)

Lemma take_drop (n : nat) (s : string) : take n s +:+ drop n s = s.
Proof.
  revert s. induction n as [|n IH]; intros [|a s]; simpl; try done.
  by rewrite append_cons, IH.
Qed.

Lemma length_drop (n : nat) (s : string) :
  String.length (drop n s) = (String.length s - n)%nat.
Proof. revert s. induction n as [|n IH]; intros [|a s]; simpl; auto. Qed.

Lemma endsWith_split (s p : string) :
  endsWith s p = true → s = take (String.length s - String.length p) s +:+ p.
Proof.
  unfold endsWith. intros [_ Heq%String.eqb_eq]%andb_true_iff.
  set (n := (String.length s - String.length p)%nat) in *.
  rewrite <- (take_drop n s) at 1. by rewrite Heq.
Qed.

Lemma startsWith_cons_false (c a : ascii) (s : string) :
  startsWith (String a s) (String c "") = false → Ascii.eqb c a = false.
Proof. simpl. by destruct (Ascii.eqb c a). Qed.

(** ** The matcher *)

Lemma plus_lazy_consumes a s c s' c' :
  (s', c') ∈ plus_lazy a s c → ∃ p, s = p +:+ s'.
Proof.
  induction s as [|x s IH]; simpl; [by intros ?%elem_of_nil|].
  destruct (atom_matches a x); [|by intros ?%elem_of_nil].
  intros [[= -> ->]|Hin]%elem_of_cons.
  - by exists (String x "").
  - destruct (IH Hin) as [p ->]. by exists (String x p).
Qed.

Lemma plus_greedy_consumes a s c s' c' :
  (s', c') ∈ plus_greedy a s c → ∃ p, s = p +:+ s'.
Proof.
  induction s as [|x s IH]; simpl; [by intros ?%elem_of_nil|].
  destruct (atom_matches a x); [|by intros ?%elem_of_nil].
  intros [Hin|[= -> ->]%list_elem_of_singleton]%elem_of_app.
  - destruct (IH Hin) as [p ->]. by exists (String x p).
  - by exists (String x "").
Qed.

(** What is left after a match is a suffix of what was there before. *)
Lemma run_consumes r inp st st' :
  st' ∈ run r inp st → ∃ p, st.1 = p +:+ st'.1.
Proof.
  revert st st'. induction r as [a|a|a|r1 IH1 r2 IH2|r1 IH1 r2 IH2|i r IH| | |];
    intros [s c] [s' c']; simpl.
  - destruct s as [|x s]; [by intros ?%elem_of_nil|].
    destruct (atom_matches a x); [|by intros ?%elem_of_nil].
    intros [= -> ->]%list_elem_of_singleton. by exists (String x "").
  - apply plus_lazy_consumes.
  - apply plus_greedy_consumes.
  - intros (st1 & H2 & H1)%list_elem_of_bind.
    destruct (IH1 _ _ H1) as [p1 Hp1]. destruct (IH2 _ _ H2) as [p2 Hp2].
    simpl in *. exists (p1 +:+ p2). by rewrite Hp1, Hp2, append_assoc.
  - intros [H|H]%elem_of_app; [by apply (IH1 _ _ H) | by apply (IH2 _ _ H)].
  - intros (st1 & [= -> ->] & H1)%list_elem_of_fmap. apply (IH _ _ H1).
  - destruct (_ =? _)%nat; [|by intros ?%elem_of_nil].
    intros [= -> ->]%list_elem_of_singleton. by exists "".
  - destruct s; [|by intros ?%elem_of_nil].
    intros [= <- <-]%list_elem_of_singleton. by exists "".
  - intros [= -> ->]%list_elem_of_singleton. by exists "".
Qed.

Lemma head_Some_elem {A} (l : list A) x : head l = Some x → x ∈ l.
Proof. destruct l; [done|]. intros [= ->]. left. Qed.

(** [^] only lets the search succeed at the start of the input. *)
Lemma run_bol r inp st :
  run (Cat Bol r) inp st
  = if (String.length st.1 =? String.length inp)%nat then run r inp st else [].
Proof.
  change (run (Cat Bol r) inp st)
    with ((if (String.length st.1 =? String.length inp)%nat then [st] else [])
            ≫= run r inp).
  destruct (_ =? _)%nat; [|done]. simpl. apply app_nil_r.
Qed.

Lemma exec_from_unfold r inp s :
  exec_from r inp s
  = match head (run r inp (s, ∅)) with
    | Some st' => Some (MatchResult (String.length inp - String.length s) st'.1 st'.2)
    | None =>
        match s with
        | String _ s' => exec_from r inp s'
        | EmptyString => None
        end
    end.
Proof. by destruct s. Qed.

Lemma exec_from_bol_later r inp s :
  (String.length s < String.length inp)%nat → exec_from (Cat Bol r) inp s = None.
Proof.
  induction s as [|x s IH]; intros Hlen; rewrite exec_from_unfold, run_bol;
    cbn [fst];
    match goal with |- context [(?a =? ?b)%nat] => destruct (Nat.eqb_spec a b) end;
    try lia; [done|].
  cbn [head]. apply IH. simpl in Hlen. lia.
Qed.

Lemma exec_bol r inp :
  exec (Cat Bol r) inp
  = (fun st' : mstate => MatchResult 0 st'.1 st'.2) <$> head (run r inp (inp, ∅)).
Proof.
  unfold exec. rewrite exec_from_unfold, run_bol. cbn [fst].
  rewrite Nat.eqb_refl, Nat.sub_diag.
  destruct (head _); [done|]. destruct inp as [|x s]; [done|].
  apply exec_from_bol_later. simpl. lia.
Qed.

(** A pattern that wants the character [c] first fails on an input that
    starts otherwise. *)
Lemma exec_bol_lit_None c r inp :
  startsWith inp (String c "") = false →
  exec (Cat Bol (Cat (Atom (Lit c)) r)) inp = None.
Proof.
  intros Hs. rewrite exec_bol. destruct inp as [|x s]; [done|].
  apply startsWith_cons_false in Hs. simpl. by rewrite Hs.
Qed.

(** ** The patterns of the two decoders *)

#[local] Arguments Ascii.eqb : simpl never.

(** Case analysis on the next character of the input, as the matcher does it. *)
Ltac next_char H :=
  repeat match type of H with
    | _ ∈ [] => by apply elem_of_nil in H
    | _ ∈ _ ++ [] => rewrite app_nil_r in H
    | context [match ?s with EmptyString => _ | String _ _ => _ end] =>
        destruct s; cbn in H
    | context [Ascii.eqb ?c ?x] =>
        destruct (Ascii.eqb_spec c x); [subst x|]; cbn in H
    end.

(** [/-edge[12]$/] matches at a position exactly when what is left there
    is [-edge1] or [-edge2]. *)
Lemma run_edgeSuffix_elem inp s c st' :
  st' ∈ run NavigationHandler.relationEdgeSuffix inp (s, c) →
  s = "-edge1" ∨ s = "-edge2".
Proof.
  intros H. cbn in H. next_char H; auto.
Qed.

Lemma run_edgeSuffix_hit inp sfx c :
  sfx = "-edge1" ∨ sfx = "-edge2" →
  run NavigationHandler.relationEdgeSuffix inp (sfx, c) = [("", c)].
Proof. by intros [-> | ->]. Qed.

Lemma exec_from_edgeSuffix inp q sfx :
  sfx = "-edge1" ∨ sfx = "-edge2" →
  exec_from NavigationHandler.relationEdgeSuffix inp (q +:+ sfx)
  = Some (MatchResult (String.length inp - 6) "" ∅).
Proof.
  intros Hsfx. induction q as [|a q IH].
  - rewrite append_nil_l, exec_from_unfold, (run_edgeSuffix_hit _ _ _ Hsfx). simpl.
    by destruct Hsfx as [-> | ->].
  - rewrite append_cons, exec_from_unfold.
    destruct (run _ _ (String a (q +:+ sfx), ∅)) as [|st' l] eqn:Hrun; [exact IH|].
    exfalso. assert (st' ∈ st' :: l) as Hin by left. rewrite <- Hrun in Hin.
    apply run_edgeSuffix_elem in Hin.
    assert (String.length (String a (q +:+ sfx)) = 6%nat) as Hlen
      by (destruct Hin as [-> | ->]; done).
    simpl in Hlen. rewrite length_append in Hlen.
    destruct Hsfx as [-> | ->]; simpl in Hlen; lia.
Qed.

(** Stripping the suffix of a relation-entity edge id gives the name back. *)
Lemma replace_edgeSuffix q sfx :
  sfx = "-edge1" ∨ sfx = "-edge2" →
  replace_empty NavigationHandler.relationEdgeSuffix (q +:+ sfx) = q.
Proof.
  intros Hsfx. unfold replace_empty, exec. rewrite (exec_from_edgeSuffix _ _ _ Hsfx).
  simpl. rewrite append_nil_r, length_append.
  replace (String.length q + String.length sfx - 6)%nat with (String.length q)
    by (destruct Hsfx as [-> | ->]; simpl; lia).
  apply take_append.
Qed.

Lemma endsWith_edge_split id :
  endsWith id "-edge1" || endsWith id "-edge2" = true →
  ∃ sfx, (sfx = "-edge1" ∨ sfx = "-edge2")
         ∧ id = take (String.length id - 6) id +:+ sfx.
Proof.
  intros [H|H]%orb_true_iff; apply endsWith_split in H; eauto.
Qed.

Lemma replace_edgeSuffix_take id :
  endsWith id "-edge1" || endsWith id "-edge2" = true →
  replace_empty NavigationHandler.relationEdgeSuffix id
  = take (String.length id - 6) id.
Proof.
  intros (sfx & Hsfx & Hid)%endsWith_edge_split.
  rewrite Hid at 1. by apply replace_edgeSuffix.
Qed.

(** The bracket patterns of the webview want [[] first, those of the
    server a backslash. *)
Lemma bracket_client_None id :
  startsWith id "[" = false →
  exec NavigationHandler.eqEdgePattern id = None
  ∧ exec NavigationHandler.eqNodePattern id = None
  ∧ exec NavigationHandler.specPattern id = None
  ∧ exec NavigationHandler.directEqPattern id = None.
Proof.
  intros Hs. repeat split; apply (exec_bol_lit_None "[" _ id Hs).
Qed.

Lemma bracket_server_None id :
  startsWith id "\" = false →
  exec NavigateToElement.specPattern id = None
  ∧ exec NavigateToElement.directEqPattern id = None
  ∧ exec NavigateToElement.eqNodePattern id = None
  ∧ exec NavigateToElement.eqEdgePattern id = None.
Proof.
  intros Hs. repeat split; apply (exec_bol_lit_None NavigateToElement.bslash _ id Hs).
Qed.


(** ** The matcher, pattern by pattern *)

Lemma fmap_bind {A B C} (f : B → C) (g : A → list B) (l : list A) :
  f <$> (l ≫= g) = l ≫= (fun x => f <$> g x).
Proof.
  induction l as [|x l IH]; [done|]. by rewrite !bind_cons, fmap_app, IH.
Qed.

Lemma bind_return {A} (l : list A) : l ≫= (fun x => [x]) = l.
Proof. induction l as [|x l IH]; [done|]. by rewrite bind_cons, IH. Qed.

(** The parts of a sequence run one after the other. *)
Lemma run_sequence_cons r rs inp st :
  run (sequence (r :: rs)) inp st = run r inp st ≫= run (sequence rs) inp.
Proof.
  destruct rs as [|r' rs]; [|done]. simpl. symmetry. apply bind_return.
Qed.

Lemma run_cat r1 r2 inp st :
  run (Cat r1 r2) inp st = run r1 inp st ≫= run r2 inp.
Proof. done. Qed.

Lemma run_lit a inp s c :
  run (Atom (Lit a)) inp (s, c)
  = if startsWith s (String a "") then [(drop 1 s, c)] else [].
Proof.
  destruct s as [|x s]; [done|]. simpl. by destruct (Ascii.eqb a x).
Qed.

Lemma startsWith_cons (a : ascii) (w s : string) :
  startsWith s (String a w)
  = startsWith s (String a "") && startsWith (drop 1 s) w.
Proof.
  destruct s as [|x s]; [done|]. simpl. by destruct (Ascii.eqb a x).
Qed.

Lemma drop_drop (n m : nat) (s : string) : drop n (drop m s) = drop (m + n) s.
Proof.
  revert s. induction m as [|m IH]; intros s; [done|].
  destruct s as [|x s]; simpl; [by destruct n|]. apply IH.
Qed.

(** A word matches where the input goes on with it. *)
Lemma run_word w inp s c :
  run (word w) inp (s, c)
  = if startsWith s w then [(drop (String.length w) s, c)] else [].
Proof.
  revert s. induction w as [|a w IH]; intros s.
  - by destruct s.
  - change (word (String a w))
      with (sequence (Atom (Lit a) :: ((fun c => Atom (Lit c)) <$> list_ascii_of_string w))).
    rewrite run_sequence_cons, run_lit, (startsWith_cons a w s).
    destruct (startsWith s (String a "")); [|reflexivity].
    rewrite bind_singleton. change (sequence _) with (word w).
    rewrite IH, drop_drop. simpl. by destruct (startsWith (drop 1 s) w).
Qed.

(** *** The patterns of the table, run as regular expressions *)

Lemma singleLine_append (p s : string) :
  singleLine (p +:+ s) = singleLine p && singleLine s.
Proof.
  induction p as [|x p IH]; [done|]. rewrite append_cons. simpl.
  by rewrite IH, andb_assoc.
Qed.

Lemma singleLine_drop (n : nat) (s : string) :
  singleLine s = true → singleLine (drop n s) = true.
Proof.
  intros Hs. rewrite <- (take_drop n s), singleLine_append in Hs.
  by apply andb_true_iff in Hs as [_ Hs].
Qed.

Lemma names_split (s n r : string) :
  (n, r) ∈ DecodeTable.names s → s = n +:+ r ∧ n ≠ "".
Proof.
  revert n r. induction s as [|x s IH]; intros n r; simpl.
  - by intros ?%elem_of_nil.
  - intros [[= -> ->]|Hin]%elem_of_cons; [done|].
    apply list_elem_of_fmap in Hin as ([n' r'] & [= -> ->] & Hin).
    destruct (IH _ _ Hin) as [-> _]. done.
Qed.

Lemma numbers_split (s n r : string) :
  (n, r) ∈ DecodeTable.numbers s → s = n +:+ r ∧ n ≠ "".
Proof.
  revert n r. induction s as [|x s IH]; intros n r; simpl.
  - by intros ?%elem_of_nil.
  - destruct (is_digit x); [|by intros ?%elem_of_nil].
    intros [Hin|[= -> ->]%list_elem_of_singleton]%elem_of_app; [|done].
    apply list_elem_of_fmap in Hin as ([n' r'] & [= -> ->] & Hin).
    destruct (IH _ _ Hin) as [-> _]. done.
Qed.

(** [.+?] tries the names the table would read, in the same order, on
    an input without a line break. *)
Lemma plus_lazy_names (s : string) (c : caps) :
  singleLine s = true →
  plus_lazy AnyChar s c = (fun nr : string * string => (nr.2, c)) <$> DecodeTable.names s.
Proof.
  induction s as [|x s IH]; [done|]. simpl.
  intros [Hx Hs]%andb_true_iff. rewrite Hx, (IH Hs), <- list_fmap_compose. done.
Qed.

(** [\d+] tries the numbers the table would read, in the same order. *)
Lemma plus_greedy_numbers (s : string) (c : caps) :
  plus_greedy Digit s c = (fun nr : string * string => (nr.2, c)) <$> DecodeTable.numbers s.
Proof.
  induction s as [|x s IH]; [done|]. simpl.
  destruct (is_digit x); [|done].
  by rewrite IH, fmap_app, <- list_fmap_compose.
Qed.

(** What the regular expression of a pattern of the table does, on an
    input without a line break, is to read the input as the pattern: it
    succeeds once for every way the input fits, in the same order, with
    the first name in the first group. *)
Lemma run_regexes (p : DecodeTable.pattern) :
  ∀ (grouped : bool) (inp s : string) (c : caps),
    singleLine s = true →
    run (sequence (TableRegex.regexes grouped p ++ [Eol])) inp (s, c)
    = (fun ns : list string =>
         (EmptyString,
          if grouped then c else match ns with n :: _ => <[1%nat := n]> c | [] => c end))
        <$> DecodeTable.fits p s.
Proof.
  induction p as [|t p IH]; intros grouped inp s c Hs.
  - simpl. destruct s; [by destruct grouped | done].
  - destruct t as [w| | |w1 w2].
    + change (TableRegex.regexes grouped (DecodeTable.Sym w :: p) ++ [Eol])
        with (word w :: (TableRegex.regexes grouped p ++ [Eol])).
      rewrite run_sequence_cons, run_word. simpl.
      destruct (startsWith s w); [|done].
      rewrite bind_singleton. apply IH. by apply singleLine_drop.
    + change (TableRegex.regexes grouped (DecodeTable.Name :: p) ++ [Eol])
        with ((if grouped then PlusLazy AnyChar else Group 1 (PlusLazy AnyChar))
                :: (TableRegex.regexes true p ++ [Eol])).
      rewrite run_sequence_cons.
      change (DecodeTable.fits (DecodeTable.Name :: p) s)
        with (DecodeTable.names s
                ≫= (fun nr => (fun ns => nr.1 :: ns) <$> DecodeTable.fits p nr.2)).
      rewrite fmap_bind.
      assert (Forall (fun nr : string * string =>
                        s = nr.1 +:+ nr.2 ∧ singleLine nr.2 = true) (DecodeTable.names s))
        as Hnames.
      { apply Forall_forall. intros [n r] Hin. destruct (names_split _ _ _ Hin) as [-> _].
        split; [done|]. rewrite singleLine_append in Hs. by apply andb_true_iff in Hs as [_ ?]. }
      destruct grouped.
      * change (run (PlusLazy AnyChar) inp (s, c)) with (plus_lazy AnyChar s c).
        rewrite (plus_lazy_names s c Hs), list_fmap_bind.
        apply Forall_bind_ext. eapply Forall_impl; [exact Hnames|].
        intros [n r] [_ Hr]. simpl. rewrite (IH true inp r c Hr), <- list_fmap_compose. done.
      * change (run (Group 1 (PlusLazy AnyChar)) inp (s, c))
          with ((fun st' : mstate =>
                   (st'.1, <[1%nat := take (String.length (s, c).1 - String.length st'.1) (s, c).1]>
                             st'.2))
                  <$> plus_lazy AnyChar s c).
        rewrite (plus_lazy_names s c Hs), <- list_fmap_compose, list_fmap_bind.
        apply Forall_bind_ext. eapply Forall_impl; [exact Hnames|].
        intros [n r] [Hsplit Hr]. simpl in *.
        rewrite (IH true inp r _ Hr), <- list_fmap_compose.
        rewrite Hsplit, length_append, Nat.add_sub, take_append. done.
    + change (TableRegex.regexes grouped (DecodeTable.Number :: p) ++ [Eol])
        with (PlusGreedy Digit :: (TableRegex.regexes grouped p ++ [Eol])).
      rewrite run_sequence_cons.
      change (run (PlusGreedy Digit) inp (s, c)) with (plus_greedy Digit s c).
      change (DecodeTable.fits (DecodeTable.Number :: p) s)
        with (DecodeTable.numbers s ≫= (fun nr => DecodeTable.fits p nr.2)).
      rewrite plus_greedy_numbers, list_fmap_bind, fmap_bind.
      apply Forall_bind_ext, Forall_forall. intros [n r] Hin.
      destruct (numbers_split _ _ _ Hin) as [-> _]. simpl.
      apply IH. rewrite singleLine_append in Hs. by apply andb_true_iff in Hs as [_ ?].
    + change (TableRegex.regexes grouped (DecodeTable.OneOf w1 w2 :: p) ++ [Eol])
        with (Alt (word w1) (word w2) :: (TableRegex.regexes grouped p ++ [Eol])).
      rewrite run_sequence_cons.
      change (run (Alt (word w1) (word w2)) inp (s, c))
        with (run (word w1) inp (s, c) ++ run (word w2) inp (s, c)).
      rewrite !run_word, bind_app. simpl. rewrite fmap_app. f_equal.
      * destruct (startsWith s w1); [|done]. rewrite bind_singleton.
        apply IH. by apply singleLine_drop.
      * destruct (startsWith s w2); [|done]. rewrite bind_singleton.
        apply IH. by apply singleLine_drop.
Qed.

Lemma asRegex_cat (p : DecodeTable.pattern) :
  TableRegex.asRegex p = Cat Bol (sequence (TableRegex.regexes false p ++ [Eol])).
Proof.
  unfold TableRegex.asRegex. by destruct (TableRegex.regexes false p).
Qed.

(** The first group of the regular expression of a pattern is the member
    name that the table reads by the pattern. *)
Lemma capture1_asRegex (p : DecodeTable.pattern) (id : string) :
  singleLine id = true →
  NavigationHandler.capture1 (TableRegex.asRegex p) id = DecodeTable.reads p id.
Proof.
  intros Hid. unfold NavigationHandler.capture1, DecodeTable.reads.
  rewrite asRegex_cat, exec_bol, (run_regexes p false id id ∅ Hid).
  destruct (DecodeTable.fits p id) as [|ns l]; [done|]. simpl.
  destruct ns as [|n ns]; [done|]. unfold group. simpl. by rewrite lookup_insert_eq.
Qed.

(** The bracket patterns and the relation-instance pattern of the webview
    are the rows of the table, written as regular expressions. *)
Lemma webview_patterns_are_rows :
  NavigationHandler.specPattern = TableRegex.asRegex DecodeTable.specialization
  ∧ NavigationHandler.directEqPattern = TableRegex.asRegex DecodeTable.directEquivalence
  ∧ NavigationHandler.eqNodePattern = TableRegex.asRegex DecodeTable.equivalenceGroupNode
  ∧ NavigationHandler.eqEdgePattern = TableRegex.asRegex DecodeTable.equivalenceGroupEdge
  ∧ NavigationHandler.descRelPattern = TableRegex.asRegex DecodeTable.relationInstanceEdge.
Proof. repeat split; reflexivity. Qed.

Lemma reads_bracket_None (p : DecodeTable.pattern) (id : string) :
  startsWith id "[" = false → DecodeTable.reads (DecodeTable.Sym "[" :: p) id = None.
Proof. intros Hs. unfold DecodeTable.reads. cbn [DecodeTable.fits]. by rewrite Hs. Qed.

Lemma startsWith_split (s w : string) :
  startsWith s w = true → s = w +:+ drop (String.length w) s.
Proof.
  revert s. induction w as [|a w IH]; intros s; [done|].
  destruct s as [|x s]; [done|]. simpl.
  destruct (Ascii.eqb_spec a x) as [->|]; [|done].
  intros Hs. rewrite append_cons. f_equal. by apply IH.
Qed.

Lemma fits_edge_suffix (r : string) :
  DecodeTable.fits [DecodeTable.Sym "-edge"; DecodeTable.OneOf "1" "2"] r
  = if String.eqb r "-edge1" || String.eqb r "-edge2" then [[]] else [].
Proof.
  destruct (String.eqb_spec r "-edge1") as [->|H1]; [reflexivity|].
  destruct (String.eqb_spec r "-edge2") as [->|H2]; [reflexivity|].
  cbn [DecodeTable.fits orb].
  destruct (startsWith r "-edge") eqn:H5; [|done].
  apply startsWith_split in H5. set (r' := drop (String.length "-edge") r) in *.
  assert (∀ d, d = "1" ∨ d = "2" →
               (if startsWith r' d then DecodeTable.fits [] (drop (String.length d) r') else [])
               = []) as Hd.
  { intros d Hd. destruct (startsWith r' d) eqn:Hs; [|done].
    apply startsWith_split in Hs.
    destruct (drop (String.length d) r') as [|y t]; [|done].
    exfalso. rewrite Hs in H5. destruct Hd as [-> | ->]; [by apply H1 | by apply H2]. }
  by rewrite !Hd by auto.
Qed.

Lemma endsWith_cons (x : ascii) (s p : string) :
  String.length p ≤ String.length s → endsWith (String x s) p = endsWith s p.
Proof.
  intros Hle. unfold endsWith. simpl String.length.
  replace (S (String.length s) - String.length p) with (S (String.length s - String.length p))
    by lia.
  simpl drop.
  destruct (Nat.leb_spec (String.length p) (S (String.length s))) as [_|?]; [|lia].
  destruct (Nat.leb_spec (String.length p) (String.length s)) as [_|?]; [|lia]. done.
Qed.

Lemma relationEntityEdgeId_length (s : string) :
  relationEntityEdgeId s = true → 6 ≤ String.length s.
Proof.
  unfold relationEntityEdgeId, endsWith.
  intros [[H _]%andb_true_iff|[H _]%andb_true_iff]%orb_true_iff;
    apply Nat.leb_le in H; exact H.
Qed.

Lemma relationEntityEdgeId_six (s : string) :
  String.length s = 6 →
  relationEntityEdgeId s = String.eqb s "-edge1" || String.eqb s "-edge2".
Proof.
  intros Hlen. unfold relationEntityEdgeId, endsWith. rewrite Hlen. done.
Qed.

(** The ways an identifier fits [Q-edge1], [Q-edge2]: one, when it ends
    in one of the two suffixes and something comes before. *)
Lemma fits_relationEntityEdge (s : string) :
  DecodeTable.fits DecodeTable.relationEntityEdge s
  = if relationEntityEdgeId s && (6 <? String.length s)
    then [[take (String.length s - 6) s]] else [].
Proof.
  unfold DecodeTable.relationEntityEdge.
  change (DecodeTable.fits (DecodeTable.Name :: ?t) s)
    with (DecodeTable.names s ≫= (fun nr => (fun ns => nr.1 :: ns) <$> DecodeTable.fits t nr.2)).
  induction s as [|x s IH]; [done|].
  cbn [DecodeTable.names]. rewrite bind_cons, list_fmap_bind.
  cbn [fst snd]. rewrite fits_edge_suffix.
  destruct (String.eqb s "-edge1" || String.eqb s "-edge2") eqn:Hsfx.
  - apply orb_true_iff in Hsfx as [->%String.eqb_eq | ->%String.eqb_eq]; reflexivity.
  - cbn [fmap list_fmap app].
    transitivity ((fun ns : list string => match ns with n :: t => String x n :: t | [] => [] end)
                    <$> (DecodeTable.names s
                           ≫= (fun nr => (fun ns => nr.1 :: ns)
                                           <$> DecodeTable.fits
                                                 [DecodeTable.Sym "-edge"; DecodeTable.OneOf "1" "2"]
                                                 nr.2))).
    { rewrite fmap_bind. apply list_bind_ext; [|done]. intros [n r]. simpl.
      by rewrite <- list_fmap_compose. }
    rewrite IH. clear IH.
    destruct (le_lt_dec 6 (String.length s)) as [Hle|Hlt].
    + unfold relationEntityEdgeId at 2. rewrite !endsWith_cons by done.
      fold (relationEntityEdgeId s).
      destruct (relationEntityEdgeId s) eqn:Hid.
      * assert (String.length s ≠ 6) as Hne.
        { intros H6. by rewrite (relationEntityEdgeId_six s H6), Hsfx in Hid. }
        destruct (Nat.ltb_spec 6 (String.length s)) as [_|?]; [|lia].
        destruct (Nat.ltb_spec 6 (String.length (String x s))) as [_|H]; [|simpl in H; lia].
        change (String.length (String x s)) with (S (String.length s)).
        replace (S (String.length s) - 6) with (S (String.length s - 6)) by lia.
        reflexivity.
      * done.
    + destruct (Nat.ltb_spec 6 (String.length s)) as [?|_]; [lia|].
      destruct (Nat.ltb_spec 6 (String.length (String x s))) as [H|_]; [simpl in H; lia|].
      by rewrite !andb_false_r.
Qed.

Lemma reads_relationEntityEdge (id : string) :
  DecodeTable.reads DecodeTable.relationEntityEdge id
  = if relationEntityEdgeId id && (6 <? String.length id)
    then Some (take (String.length id - 6) id) else None.
Proof.
  unfold DecodeTable.reads. rewrite fits_relationEntityEdge.
  by destruct (relationEntityEdgeId id && (6 <? String.length id)).
Qed.

(** *** Groups *)

Lemma plus_lazy_caps (f : caps → caps) a s c :
  plus_lazy a s (f c) = (fun st : mstate => (st.1, f st.2)) <$> plus_lazy a s c.
Proof.
  induction s as [|x s IH]; [done|]. simpl. destruct (atom_matches a x); [|done].
  by rewrite fmap_cons, IH.
Qed.

Lemma plus_greedy_caps (f : caps → caps) a s c :
  plus_greedy a s (f c) = (fun st : mstate => (st.1, f st.2)) <$> plus_greedy a s c.
Proof.
  induction s as [|x s IH]; [done|]. simpl. destruct (atom_matches a x); [|done].
  by rewrite fmap_app, IH.
Qed.

(** A group that is not read changes nothing but the captures. *)
Lemma run_withoutGroup (i : nat) r :
  ∀ inp s c,
    run (withoutGroup i r) inp (s, delete i c)
    = (fun st : mstate => (st.1, delete i st.2)) <$> run r inp (s, c).
Proof.
  induction r as [a|a|a|r1 IH1 r2 IH2|r1 IH1 r2 IH2|j r IH| | |]; intros inp s c.
  - simpl. destruct s as [|x s]; [done|]. by destruct (atom_matches a x).
  - apply (plus_lazy_caps (delete i)).
  - apply (plus_greedy_caps (delete i)).
  - cbn [withoutGroup]. rewrite !run_cat, IH1, list_fmap_bind, fmap_bind.
    apply list_bind_ext; [|done]. intros [s1 c1]. apply IH2.
  - cbn [withoutGroup]. simpl. by rewrite fmap_app, IH1, IH2.
  - cbn [withoutGroup]. destruct (Nat.eqb_spec i j) as [->|Hne].
    + rewrite IH. simpl. rewrite <- list_fmap_compose. apply list_fmap_ext.
      intros _ [s1 c1] _. simpl. by rewrite delete_insert_eq.
    + simpl. rewrite IH, <- !list_fmap_compose. apply list_fmap_ext.
      intros _ [s1 c1] _. simpl. by rewrite delete_insert_ne.
  - simpl. by destruct (_ =? _)%nat.
  - simpl. by destruct s.
  - done.
Qed.

Lemma exec_from_withoutGroup (i : nat) r inp s :
  exec_from (withoutGroup i r) inp s
  = (fun m => MatchResult (m_index m) (m_rest m) (delete i (m_caps m))) <$> exec_from r inp s.
Proof.
  induction s as [|x s IH].
  - rewrite (exec_from_unfold (withoutGroup i r) inp ""), (exec_from_unfold r inp "").
    rewrite <- (delete_empty (M := gmap nat) i) at 1. rewrite run_withoutGroup.
    by destruct (run r inp (_, ∅)) as [|[s1 c1] l].
  - rewrite (exec_from_unfold (withoutGroup i r) inp (String x s)),
      (exec_from_unfold r inp (String x s)).
    rewrite <- (delete_empty (M := gmap nat) i) at 1. rewrite run_withoutGroup.
    by destruct (run r inp (_, ∅)) as [|[s1 c1] l].
Qed.

Lemma exec_withoutGroup (i : nat) r inp :
  exec (withoutGroup i r) inp
  = (fun m => MatchResult (m_index m) (m_rest m) (delete i (m_caps m))) <$> exec r inp.
Proof. apply exec_from_withoutGroup. Qed.

(** The relation-instance pattern of the server is that of the webview
    with a second group. *)
Lemma descRel_server_webview (id : string) :
  exec NavigationHandler.descRelPattern id
  = (fun m => MatchResult (m_index m) (m_rest m) (delete 2%nat (m_caps m)))
      <$> exec NavigateToElement.descRelPattern id.
Proof. apply (exec_withoutGroup 2 NavigateToElement.descRelPattern). Qed.

Lemma plus_lazy_same_caps a s c s' c' : (s', c') ∈ plus_lazy a s c → c' = c.
Proof.
  induction s as [|x s IH]; simpl; [by intros ?%elem_of_nil|].
  destruct (atom_matches a x); [|by intros ?%elem_of_nil].
  intros [[= -> ->]|Hin]%elem_of_cons; [done | by apply IH].
Qed.

Lemma plus_greedy_same_caps a s c s' c' : (s', c') ∈ plus_greedy a s c → c' = c.
Proof.
  induction s as [|x s IH]; simpl; [by intros ?%elem_of_nil|].
  destruct (atom_matches a x); [|by intros ?%elem_of_nil].
  intros [Hin|[= -> ->]%list_elem_of_singleton]%elem_of_app; [by apply IH | done].
Qed.

(** A pattern leaves the captures of the groups it does not have. *)
Lemma run_keeps_capture (i : nat) r inp :
  hasGroup i r = false →
  ∀ st st', st' ∈ run r inp st → st'.2 !! i = st.2 !! i.
Proof.
  induction r as [a|a|a|r1 IH1 r2 IH2|r1 IH1 r2 IH2|j r IH| | |]; simpl; intros Hg [s c] [s' c'].
  - simpl. destruct s as [|x s]; [by intros ?%elem_of_nil|].
    destruct (atom_matches a x); [|by intros ?%elem_of_nil].
    by intros [= -> ->]%list_elem_of_singleton.
  - simpl. by intros ->%plus_lazy_same_caps.
  - simpl. by intros ->%plus_greedy_same_caps.
  - apply orb_false_iff in Hg as [H1 H2].
    intros (st1 & Hin2 & Hin1)%list_elem_of_bind.
    rewrite (IH2 H2 _ _ Hin2). apply (IH1 H1 _ _ Hin1).
  - apply orb_false_iff in Hg as [H1 H2].
    intros [Hin|Hin]%elem_of_app; [apply (IH1 H1 _ _ Hin) | apply (IH2 H2 _ _ Hin)].
  - apply orb_false_iff in Hg as [Hij Hr].
    intros (st1 & [= -> ->] & Hin)%list_elem_of_fmap. simpl.
    rewrite lookup_insert_ne by (by apply Nat.eqb_neq in Hij; auto).
    apply (IH Hr _ _ Hin).
  - simpl. destruct (_ =? _)%nat; [|by intros ?%elem_of_nil].
    by intros [= -> ->]%list_elem_of_singleton.
  - simpl. destruct s; [|by intros ?%elem_of_nil].
    by intros [= -> ->]%list_elem_of_singleton.
  - by intros [= -> ->]%list_elem_of_singleton.
Qed.




(** What the first group holds after a match is what the group took. *)
Lemma run_group1 X R inp s c st' :
  hasGroup 1 R = false →
  st' ∈ run (Cat (Group 1 X) R) inp (s, c) →
  ∃ g r c1, s = g +:+ r ∧ st'.2 !! 1%nat = Some g ∧ st' ∈ run R inp (r, c1).
Proof.
  intros HR. rewrite run_cat.
  intros ([r c1] & Hin2 & (st1 & [= -> ->] & Hin1)%list_elem_of_fmap)%list_elem_of_bind.
  destruct (run_consumes _ _ _ _ Hin1) as [g Hg]. simpl in Hg.
  exists g, st1.1. eexists. split; [done|]. split; [|exact Hin2].
  rewrite (run_keeps_capture 1 R inp HR _ _ Hin2). simpl.
  by rewrite lookup_insert_eq, Hg, length_append, Nat.add_sub, take_append.
Qed.

Lemma exec_from_caps r inp s m :
  exec_from r inp s = Some m →
  ∃ s0 st', st' ∈ run r inp (s0, ∅) ∧ m_caps m = st'.2.
Proof.
  induction s as [|x s IH]; rewrite exec_from_unfold.
  - destruct (head _) as [st'|] eqn:Hh; [|done].
    intros [= <-]. exists "", st'. split; [by apply head_Some_elem | done].
  - destruct (head _) as [st'|] eqn:Hh.
    + intros [= <-]. exists (String x s), st'. split; [by apply head_Some_elem | done].
    + apply IH.
Qed.

(** A pattern without a first group leaves [match[1]] undefined. *)
Lemma exec_no_group1 r inp m :
  hasGroup 1 r = false → exec r inp = Some m → group m 1 = None.
Proof.
  intros Hg (s0 & st' & Hin & Hc)%exec_from_caps. unfold group. rewrite Hc.
  by rewrite (run_keeps_capture 1 r inp Hg _ _ Hin).
Qed.

Lemma capture1_bol (r : regex) (id g : string) :
  NavigationHandler.capture1 (Cat Bol r) id = Some g →
  ∃ st', st' ∈ run r id (id, ∅) ∧ st'.2 !! 1%nat = Some g.
Proof.
  unfold NavigationHandler.capture1. rewrite exec_bol.
  destruct (head _) as [st'|] eqn:Hh; [|done]. simpl. unfold group. simpl.
  intros Hg. exists st'. split; [by apply head_Some_elem | done].
Qed.






(** ** The two decoders, branch by branch *)



Lemma relationEntityEdgeId_append (q sfx : string) :
  sfx = "-edge1" ∨ sfx = "-edge2" →
  relationEntityEdgeId (q +:+ sfx) = true
  ∧ take (String.length (q +:+ sfx) - 6) (q +:+ sfx) = q.
Proof.
  intros Hsfx. split.
  - unfold relationEntityEdgeId.
    destruct Hsfx as [-> | ->]; rewrite endsWith_append; [done | apply orb_true_r].
  - rewrite length_append.
    replace (String.length q + String.length sfx - 6)%nat with (String.length q)
      by (destruct Hsfx as [-> | ->]; simpl; lia).
    apply take_append.
Qed.

(** The webview, with a model: the gated relation patterns, then the
    bracket patterns, then the identifier. *)
Lemma resolveNavigationId_branches (m : SElement) (id : string) :
  NavigationHandler.resolveNavigationId (Some m) id
  = if relationEntityEdgeId id
       && NavigationHandler.isNodeOfKind
            (findElementById m (take (String.length id - 6) id)) "relation-entity"
    then take (String.length id - 6) id
    else
      match relationInstanceName id with
      | Some q =>
          if NavigationHandler.isNodeOfKind (findElementById m q) "relation-instance"
          then q else default id (webviewBracket id)
      | None => default id (webviewBracket id)
      end.
Proof.
  unfold NavigationHandler.resolveNavigationId, relationInstanceName, webviewBracket.
  fold (relationEntityEdgeId id).
  destruct (relationEntityEdgeId id) eqn:Hends.
  - rewrite (replace_edgeSuffix_take id Hends). simpl.
    destruct (NavigationHandler.isNodeOfKind _ "relation-entity"); [done|].
    destruct (NavigationHandler.capture1 NavigationHandler.descRelPattern id) as [q|];
      [destruct (NavigationHandler.isNodeOfKind _ "relation-instance"); [done|]|];
      repeat (destruct (NavigationHandler.capture1 _ id); [done|]); done.
  - simpl.
    destruct (NavigationHandler.capture1 NavigationHandler.descRelPattern id) as [q|];
      [destruct (NavigationHandler.isNodeOfKind _ "relation-instance"); [done|]|];
      repeat (destruct (NavigationHandler.capture1 _ id); [done|]); done.
Qed.

(** The relation-instance pattern of the server reads what that of the
    webview reads. *)
Lemma server_relationInstanceName (id : string) :
  match exec NavigateToElement.descRelPattern id with
  | Some m => group m 1
  | None => Some id
  end = Some (default id (relationInstanceName id)).
Proof.
  unfold relationInstanceName, NavigationHandler.capture1.
  rewrite descRel_server_webview.
  destruct (exec NavigateToElement.descRelPattern id) as [m|] eqn:Hm; [|done].
  simpl. unfold group. simpl. rewrite lookup_delete_ne by done.
  change NavigateToElement.descRelPattern
    with (Cat Bol (Cat (Group 1 (PlusLazy AnyChar))
                       (sequence [word "-"; Group 2 (Alt (word "source") (word "target"));
                                  word "-edge"; PlusGreedy Digit; Eol]))) in Hm.
  rewrite exec_bol in Hm.
  destruct (head _) as [st'|] eqn:Hh; [|done]. injection Hm as <-. simpl.
  apply head_Some_elem, run_group1 in Hh as (g & r & c1 & _ & -> & _); done.
Qed.

(** The server: undefined where one of its bracket patterns matches, else
    the relation patterns, then the identifier. *)
Lemma decodeMemberName_branches (id : string) :
  NavigateToElement.decodeMemberName id
  = if serverBracket id then None
    else Some (if relationEntityEdgeId id then take (String.length id - 6) id
               else default id (relationInstanceName id)).
Proof.
  unfold NavigateToElement.decodeMemberName, serverBracket.
  destruct (exec NavigateToElement.specPattern id) as [m|] eqn:H1;
    [by apply exec_no_group1 in H1|].
  destruct (exec NavigateToElement.directEqPattern id) as [m|] eqn:H2;
    [by apply exec_no_group1 in H2|].
  destruct (exec NavigateToElement.eqNodePattern id) as [m|] eqn:H3;
    [by apply exec_no_group1 in H3|].
  destruct (exec NavigateToElement.eqEdgePattern id) as [m|] eqn:H4;
    [by apply exec_no_group1 in H4|].
  fold (relationEntityEdgeId id).
  destruct (relationEntityEdgeId id) eqn:Hends.
  - f_equal. exact (replace_edgeSuffix_take id Hends).
  - apply server_relationInstanceName.
Qed.

Lemma serverBracket_backslash (id : string) :
  startsWith id "\" = false → serverBracket id = false.
Proof.
  intros Hs. unfold serverBracket.
  by destruct (bracket_server_None id Hs) as (-> & -> & -> & ->).
Qed.

Lemma webviewBracket_bracket (id : string) :
  startsWith id "[" = false → webviewBracket id = None.
Proof.
  intros Hs. unfold webviewBracket, NavigationHandler.capture1. simpl.
  by destruct (bracket_client_None id Hs) as (-> & -> & -> & ->).
Qed.

(** ** Claims on the identifier codec *)

(** The decoders on the bracketed form of a specialization edge: the
    webview reads the member name, the server falls through to the
    identifier itself. *)
Example webview_reads_specialization model :
  NavigationHandler.resolveNavigationId (Some model) "[A]->[B]" = "A".
Proof. vm_compute. reflexivity. Qed.

Example server_keeps_specialization_id :
  NavigateToElement.decodeMemberName "[A]->[B]" = Some "[A]->[B]".
Proof. vm_compute. reflexivity. Qed.

(** What the first pattern of the server does match, and what the handler
    then holds. *)
Example server_first_pattern_has_no_group :
  NavigateToElement.decodeMemberName "\(" = None.
Proof. vm_compute. reflexivity. Qed.

Example server_reads_relation_instance :
  NavigateToElement.decodeMemberName "a:b-source-edge12" = Some "a:b".
Proof. vm_compute. reflexivity. Qed.

(** Identifiers that end in a digit without being edges. *)
Example decoders_keep_plain_names :
  NavigateToElement.decodeMemberName "base:Named2" = Some "base:Named2"
  ∧ NavigationHandler.resolveNavigationId (Some emptyRoot) "base:Named2" = "base:Named2"
  ∧ NavigateToElement.decodeMemberName "Concept1" = Some "Concept1"
  ∧ NavigationHandler.resolveNavigationId None "Concept1" = "Concept1".
Proof. repeat split; vm_compute; reflexivity. Qed.




(** Where the order of the rows matters: the table reads the shortest
    first name by its second row; the webview tries the third row before
    the second. *)
Example table_order_on_overlap : DecodeTable.decode "[A]<->[B]<->[1]" = "A".
Proof. vm_compute. reflexivity. Qed.

Example webview_order_on_overlap :
  NavigationHandler.resolveNavigationId (Some emptyRoot) "[A]<->[B]<->[1]" = "A]<->[B".
Proof. vm_compute. reflexivity. Qed.

(** Where the patterns of the decoders are not the rows of the table: a
    name with a line break, which [.] does not match, and the name that
    is left of [-edge1] alone, which is empty. *)
Example line_break_in_name :
  DecodeTable.decode twoLineId = "A" +:+ String "010" ""
  ∧ NavigationHandler.resolveNavigationId (Some emptyRoot) twoLineId = twoLineId.
Proof. split; vm_compute; reflexivity. Qed.

Example empty_relation_name :
  DecodeTable.decode "-edge1" = "-edge1"
  ∧ NavigateToElement.decodeMemberName "-edge1" = Some ""
  ∧ NavigationHandler.resolveNavigationId (Some namelessRelationRoot) "-edge1" = "".
Proof. repeat split; vm_compute; reflexivity. Qed.

(** C3, as stated, fails: in table order [Q-edge1] decodes to [Q]; the
    webview, whose model has no relation entity Q, returns [Q-edge1]. *)
Lemma webview_not_in_table_order :
  NavigationHandler.resolveNavigationId (Some emptyRoot) "Q-edge1"
  ≠ DecodeTable.decode "Q-edge1".
Proof. vm_compute. intros [=]. Qed.

(** The rows as the webview reads them. *)
Lemma reads_rows (id : string) :
  singleLine id = true →
  DecodeTable.reads DecodeTable.specialization id
  = NavigationHandler.capture1 NavigationHandler.specPattern id
  ∧ DecodeTable.reads DecodeTable.directEquivalence id
    = NavigationHandler.capture1 NavigationHandler.directEqPattern id
  ∧ DecodeTable.reads DecodeTable.equivalenceGroupNode id
    = NavigationHandler.capture1 NavigationHandler.eqNodePattern id
  ∧ DecodeTable.reads DecodeTable.equivalenceGroupEdge id
    = NavigationHandler.capture1 NavigationHandler.eqEdgePattern id
  ∧ DecodeTable.reads DecodeTable.relationInstanceEdge id = relationInstanceName id.
Proof.
  intros Hid. repeat split; symmetry.
  - apply (capture1_asRegex DecodeTable.specialization id Hid).
  - apply (capture1_asRegex DecodeTable.directEquivalence id Hid).
  - apply (capture1_asRegex DecodeTable.equivalenceGroupNode id Hid).
  - apply (capture1_asRegex DecodeTable.equivalenceGroupEdge id Hid).
  - apply (capture1_asRegex DecodeTable.relationInstanceEdge id Hid).
Qed.

Lemma reads_relationEntityEdge_proper (id : string) :
  id ≠ "-edge1" → id ≠ "-edge2" →
  DecodeTable.reads DecodeTable.relationEntityEdge id
  = if relationEntityEdgeId id then Some (take (String.length id - 6) id) else None.
Proof.
  intros H1 H2. rewrite reads_relationEntityEdge.
  destruct (relationEntityEdgeId id) eqn:Hends; [|done].
  pose proof (relationEntityEdgeId_length id Hends) as Hlen.
  destruct (Nat.ltb_spec 6 (String.length id)) as [_|Hle]; [done|].
  exfalso. assert (String.length id = 6) as H6 by lia.
  rewrite (relationEntityEdgeId_six id H6) in Hends.
  apply orb_true_iff in Hends as [?%String.eqb_eq|?%String.eqb_eq]; done.
Qed.

(** C3, amended.  The rows are those of the table of the specification,
    read as the table words them ([DecodeTable]); the identifiers are
    those without a line break, other than [-edge1] and [-edge2].
    (1) With a model loaded, the webview's result is that of trying the
        rows in this order, the first that applies winning:
        relation-entity edge (only when the model has a node of the
        decoded name and of kind relation-entity), relation-instance edge
        (only when the model has a node of the decoded name and of kind
        relation-instance), equivalence-group edge, equivalence-group
        node, specialization, direct equivalence, then the identifier
        itself.
    (2) With no model loaded the webview returns the identifier.
    (3) The server's result is the decoding in table order for every
        identifier that has none of the four bracketed forms of the table
        and that none of the server's own bracket patterns matches.
    (4) The webview's result is the decoding in table order whenever all
        the rows that the identifier fits read the same member name from
        it and, if a relation row is among them, the model holds that
        name as a node of the kind the row is for. *)
Theorem decoders_try_rows_in_order :
  (∀ (model : SElement) (id : string),
     singleLine id = true → id ≠ "-edge1" → id ≠ "-edge2" →
     NavigationHandler.resolveNavigationId (Some model) id
     = default id (DecodeTable.first_match (DecodeTable.webviewOrder model) id))
  ∧ (∀ id : string, NavigationHandler.resolveNavigationId None id = id)
  ∧ (∀ id : string,
       singleLine id = true → id ≠ "-edge1" → id ≠ "-edge2" →
       tableBracket id = None → serverBracket id = false →
       NavigateToElement.decodeMemberName id = Some (DecodeTable.decode id))
  ∧ (∀ (model : SElement) (id name : string),
       singleLine id = true → id ≠ "-edge1" → id ≠ "-edge2" →
       Forall (fun p => DecodeTable.reads p id = None ∨ DecodeTable.reads p id = Some name)
              DecodeTable.tableOrder →
       (DecodeTable.reads DecodeTable.relationEntityEdge id = Some name →
        NavigationHandler.isNodeOfKind (findElementById model name) "relation-entity" = true) →
       (DecodeTable.reads DecodeTable.relationInstanceEdge id = Some name →
        NavigationHandler.isNodeOfKind (findElementById model name) "relation-instance" = true) →
       NavigationHandler.resolveNavigationId (Some model) id = DecodeTable.decode id).
Proof.
  assert (∀ (model : SElement) (id : string),
            singleLine id = true → id ≠ "-edge1" → id ≠ "-edge2" →
            NavigationHandler.resolveNavigationId (Some model) id
            = default id (DecodeTable.first_match (DecodeTable.webviewOrder model) id))
    as Hwebview.
  { intros model id Hid H1 H2. rewrite resolveNavigationId_branches.
    unfold DecodeTable.webviewOrder, DecodeTable.first_match, DecodeTable.gated, webviewBracket.
    destruct (reads_rows id Hid) as (-> & -> & -> & -> & ->).
    rewrite (reads_relationEntityEdge_proper id H1 H2).
    destruct (relationEntityEdgeId id); simpl.
    - destruct (NavigationHandler.isNodeOfKind _ "relation-entity"); [done|].
      destruct (relationInstanceName id) as [q|];
        [destruct (NavigationHandler.isNodeOfKind _ "relation-instance"); [done|]|];
        repeat (destruct (NavigationHandler.capture1 _ id); [done|]); done.
    - destruct (relationInstanceName id) as [q|];
        [destruct (NavigationHandler.isNodeOfKind _ "relation-instance"); [done|]|];
        repeat (destruct (NavigationHandler.capture1 _ id); [done|]); done. }
  split; [exact Hwebview|]. split; [done|]. split.
  - intros id Hid H1 H2 Htable Hserver.
    rewrite decodeMemberName_branches, Hserver. f_equal.
    unfold DecodeTable.decode, DecodeTable.tableOrder.
    unfold tableBracket in Htable. simpl in Htable |- *.
    destruct (DecodeTable.reads DecodeTable.specialization id); [done|].
    destruct (DecodeTable.reads DecodeTable.directEquivalence id); [done|].
    destruct (DecodeTable.reads DecodeTable.equivalenceGroupNode id); [done|].
    destruct (DecodeTable.reads DecodeTable.equivalenceGroupEdge id); [done|].
    rewrite (reads_relationEntityEdge_proper id H1 H2).
    destruct (reads_rows id Hid) as (_ & _ & _ & _ & ->).
    destruct (relationEntityEdgeId id); [done|].
    by destruct (relationInstanceName id).
  - intros model id name Hid H1 H2 Hrows Hentity Hinstance.
    rewrite (Hwebview model id Hid H1 H2).
    unfold DecodeTable.decode, DecodeTable.tableOrder, DecodeTable.webviewOrder,
      DecodeTable.gated.
    repeat (apply Forall_cons in Hrows as [? Hrows]). simpl.
    destruct (DecodeTable.reads DecodeTable.relationEntityEdge id) as [q|] eqn:Hq.
    { match goal with
      | H : Some q = None ∨ Some q = Some name |- _ => destruct H as [[=]|[= ->]]
      end.
      rewrite (Hentity eq_refl).
      repeat match goal with
             | H : ?x = None ∨ ?x = Some _ |- _ => destruct H as [-> | ->]
             end; reflexivity. }
    destruct (DecodeTable.reads DecodeTable.relationInstanceEdge id) as [q|] eqn:Hq'.
    { match goal with
      | H : Some q = None ∨ Some q = Some name |- _ => destruct H as [[=]|[= ->]]
      end.
      rewrite (Hinstance eq_refl).
      repeat match goal with
             | H : ?x = None ∨ ?x = Some _ |- _ => destruct H as [-> | ->]
             end; reflexivity. }
    repeat match goal with
           | H : ?x = None ∨ ?x = Some _ |- _ => destruct H as [-> | ->]
           end; reflexivity.
Qed.

(** An edge of the relation entity Q with the model that holds Q; an
    edge of a relation entity whose name ends in a digit, at the server;
    a specialization edge, which fits the first row of the table only. *)
Lemma decoders_try_rows_in_order_witness :
  NavigationHandler.resolveNavigationId (Some relationEntityRoot) "Q-edge1"
  = default "Q-edge1"
      (DecodeTable.first_match (DecodeTable.webviewOrder relationEntityRoot) "Q-edge1")
  ∧ NavigateToElement.decodeMemberName "Rel1-edge2" = Some (DecodeTable.decode "Rel1-edge2")
  ∧ NavigationHandler.resolveNavigationId (Some emptyRoot) "[A]->[B]"
    = DecodeTable.decode "[A]->[B]".
Proof.
  split; [|split].
  - by apply (proj1 decoders_try_rows_in_order relationEntityRoot "Q-edge1").
  - by apply (proj1 (proj2 (proj2 decoders_try_rows_in_order)) "Rel1-edge2").
  - apply (proj2 (proj2 (proj2 decoders_try_rows_in_order)) emptyRoot "[A]->[B]" "A");
      try done.
    unfold DecodeTable.tableOrder.
    repeat (apply Forall_cons; split; [vm_compute; by auto|]). constructor.
Defined.
(** ** Pan and zoom *)

Module PanZoomFacts.
Import PanZoomController.
Local Open Scope R_scope.

Lemma clamped_in_range (v : R) : 0.2 <= Rmax 0.2 (Rmin 3 v) <= 3.
Proof.
  unfold Rmax, Rmin. destruct (Rle_dec 3 v); destruct (Rle_dec _ _); lra.
Qed.

Lemma distance_apart (t0 t1 : Touch) :
  apart t0 t1 →
  0 < R_sqrt.sqrt ((clientX t1 + - clientX t0) * (clientX t1 + - clientX t0)
                   + (clientY t1 + - clientY t0) * (clientY t1 + - clientY t0)).
Proof.
  intros Hap. apply sqrt_lt_R0.
  set (a := clientX t1 + - clientX t0). set (b := clientY t1 + - clientY t0).
  pose proof (Rle_0_sqr a) as Ha. pose proof (Rle_0_sqr b) as Hb.
  unfold Rsqr in Ha, Hb.
  destruct Hap as [Hx|Hy].
  - assert (a ≠ 0) as Hne by (unfold a; lra).
    apply Rsqr_pos_lt in Hne. unfold Rsqr in Hne. lra.
  - assert (b ≠ 0) as Hne by (unfold b; lra).
    apply Rsqr_pos_lt in Hne. unfold Rsqr in Hne. lra.
Qed.

(** Every handler keeps [pinchReady], unless two fingers land on one spot. *)
Lemma handle_pinchReady st ev :
  properPinch ev → pinchReady st → pinchReady (handle st ev).
Proof.
  intros Hev (Hs & Hps & Hd). unfold scaleInRange in *.
  destruct (scale st) as [| | |s0] eqn:Hsc; try done.
  destruct (pinchStartScale st) as [| | |ps] eqn:Hpsc; try done.
  assert (pinchReady st) as Hst.
  { unfold pinchReady, scaleInRange. by rewrite Hsc, Hpsc. }
  assert (∀ st', scale st' = scale st → pinchStartScale st' = pinchStartScale st →
                 pinchActive st' = pinchActive st → pinchStartDist st' = pinchStartDist st →
                 pinchReady st') as Hsame.
  { intros st' H1 H2 H3 H4. unfold pinchReady, scaleInRange.
    by rewrite H1, H2, H3, H4, Hsc, Hpsc. }
  destruct ev as [b hit x y|x y| |rect x y dY|rect ts|ts|ts|]; simpl.
  - unfold onMouseDown. destruct (_ || _); [by apply Hsame | done].
  - unfold onMouseMove. destruct (negb _); [done | by apply Hsame].
  - unfold onMouseUp. destruct (negb _); [done | by apply Hsame].
  - unfold onWheel, zoomAt. rewrite Hsc. simpl.
    destruct (Req_dec_T _ s0); [done|].
    unfold pinchReady, scaleInRange. simpl. rewrite Hpsc.
    split; [apply clamped_in_range | done].
  - destruct ts as [|t0 [|t1 [|t2 ts]]]; simpl;
      [done | by apply Hsame | | done].
    unfold initializePinch, pinchReady, scaleInRange. simpl. rewrite Hsc.
    repeat split; try apply Hs. intros _. eexists. split; [reflexivity|].
    by apply distance_apart.
  - destruct ts as [|t0 [|t1 [|t2 ts]]]; simpl; [done | | | done].
    + destruct (isPanning st); [by apply Hsame | done].
    + destruct (pinchActive st) eqn:Hact; [|done].
      destruct (Hd eq_refl) as (d0 & Hd0 & Hpos).
      unfold handlePinchMove, pinchReady, scaleInRange. simpl.
      rewrite Hd0, Hpsc, Hact.
      destruct (Req_dec_T d0 0); [lra|]. simpl.
      repeat split; try apply clamped_in_range; try apply Hps.
      intros _. by exists d0.
  - destruct ts as [|t0 [|t1 ts]]; simpl; [| | done].
    + unfold pinchReady, scaleInRange. simpl. rewrite Hsc, Hpsc.
      split; [exact Hs | split; [exact Hps | discriminate]].
    + unfold pinchReady, scaleInRange. simpl. rewrite Hsc, Hpsc.
      split; [exact Hs | split; [exact Hps | discriminate]].
  - unfold reset, pinchReady, scaleInRange. simpl. rewrite Hpsc.
    split; [lra | split; [exact Hps | exact Hd]].
Qed.

Lemma foldl_pinchReady evs st :
  Forall properPinch evs → pinchReady st → pinchReady (foldl handle st evs).
Proof.
  revert st. induction evs as [|ev evs IH]; intros st Hevs Hst; [done|].
  apply Forall_cons in Hevs as [Hev Hevs]. simpl.
  apply IH; [done|]. by apply handle_pinchReady.
Qed.

Lemma initial_pinchReady : pinchReady initial.
Proof.
  unfold pinchReady, scaleInRange, initial. simpl.
  split; [lra | split; [lra | discriminate]].
Qed.

(** Where the invariant of C7 does hold: as long as no two-finger gesture
    starts with both fingers on one spot, the scale stays within
    [0.2, 3]. *)
Lemma scale_clamped_when_fingers_apart evs :
  Forall properPinch evs → scaleInRange (scale (after evs)).
Proof.
  intros Hevs. apply (foldl_pinchReady evs initial Hevs initial_pinchReady).
Qed.

(** What the wheel does to a controller of positive scale and finite
    pan: the scale becomes s1, the clamped s0 * exp(-deltaY / 1000), and
    the pan p + (1 - s1/s0) * ((cx, cy) - p), where (cx, cy) is the
    pointer less the corner of the rectangle. *)
Lemma onWheel_pan_formula (st : PanZoom) (rect : Rect) (x y deltaY s0 px py : R) :
  scale st = Fin s0 → 0 < s0 → panX st = Fin px → panY st = Fin py →
  let cx := x - left rect in
  let cy := y - top rect in
  let s1 := Rmax 0.2 (Rmin 3 (s0 * Rtrigo_def.exp (- deltaY * 0.001))) in
  let st' := onWheel rect x y deltaY st in
  scale st' = Fin s1
  ∧ panX st' = Fin (px + (1 - s1 / s0) * (cx - px))
  ∧ panY st' = Fin (py + (1 - s1 / s0) * (cy - py)).
Proof.
  intros Hs Hpos Hpx Hpy cx cy s1 st'.
  unfold st', onWheel, zoomAt. rewrite Hs. simpl. fold s1.
  destruct (Req_dec_T s1 s0) as [Heq|Hne].
  - rewrite Hs, Hpx, Hpy, Heq. repeat split; f_equal; field; lra.
  - simpl. rewrite Hpx, Hpy. simpl.
    destruct (Req_dec_T s0 0); [lra|]. simpl.
    repeat split; f_equal; unfold cx, cy; lra.
Qed.

Lemma drawnAt_fin (o pan s x : R) :
  s ≠ 0 → drawnAt (Fin o) (Fin pan) (Fin s) (Fin x) = Fin ((x - o - pan) / s).
Proof.
  intros Hs. unfold drawnAt. simpl. destruct (Req_dec_T s 0) as [H|_]; [done|].
  f_equal; lra.
Qed.

(** The formula of [zoomAt] is the one that keeps the point under
    (cx, cy) where it is, when (cx, cy) is measured from the box as it
    lies untransformed: had the handler a rectangle that the pan does not
    move, the diagram coordinate under the pointer would be the same
    after the wheel as before. *)
Lemma wheel_anchor_in_fixed_box (st : PanZoom) (origin : Rect) (x y deltaY s0 px py : R) :
  scale st = Fin s0 → 0 < s0 → panX st = Fin px → panY st = Fin py →
  let st' := onWheel origin x y deltaY st in
  drawnAt (Fin (left origin)) (panX st') (scale st') (Fin x)
  = drawnAt (Fin (left origin)) (panX st) (scale st) (Fin x)
  ∧ drawnAt (Fin (top origin)) (panY st') (scale st') (Fin y)
    = drawnAt (Fin (top origin)) (panY st) (scale st) (Fin y).
Proof.
  intros Hs Hpos Hpx Hpy st'.
  destruct (onWheel_pan_formula st origin x y deltaY s0 px py Hs Hpos Hpx Hpy)
    as (Hs' & Hpx' & Hpy').
  fold st' in Hs', Hpx', Hpy'.
  pose proof (clamped_in_range (s0 * Rtrigo_def.exp (- deltaY * 0.001))) as Hr.
  set (s1 := Rmax 0.2 _) in *.
  rewrite Hs', Hpx', Hpy', Hs, Hpx, Hpy, !drawnAt_fin by lra.
  split; f_equal; field; lra.
Qed.

(** In the page the rectangle moves with the pan, and the diagram
    coordinate under the pointer moves by (1/s1 - 1/s0) times the pan. *)
Lemma wheel_drift_in_page (st : PanZoom) (origin rect : Rect) (x y deltaY s0 px py : R) :
  scale st = Fin s0 → 0 < s0 → panX st = Fin px → panY st = Fin py →
  boundingClientRect origin st = Some rect →
  let s1 := Rmax 0.2 (Rmin 3 (s0 * Rtrigo_def.exp (- deltaY * 0.001))) in
  let st' := onWheel rect x y deltaY st in
  drawnAt (Fin (left origin)) (panX st) (scale st) (Fin x) = Fin ((x - left origin - px) / s0)
  ∧ drawnAt (Fin (top origin)) (panY st) (scale st) (Fin y) = Fin ((y - top origin - py) / s0)
  ∧ drawnAt (Fin (left origin)) (panX st') (scale st') (Fin x)
    = Fin ((x - left origin - px) / s0 + (1 / s1 - 1 / s0) * px)
  ∧ drawnAt (Fin (top origin)) (panY st') (scale st') (Fin y)
    = Fin ((y - top origin - py) / s0 + (1 / s1 - 1 / s0) * py).
Proof.
  intros Hs Hpos Hpx Hpy Hrect s1 st'.
  unfold boundingClientRect in Hrect. rewrite Hpx, Hpy in Hrect. injection Hrect as <-.
  destruct (onWheel_pan_formula st (mkRect (left origin + px) (top origin + py))
              x y deltaY s0 px py Hs Hpos Hpx Hpy)
    as (Hs' & Hpx' & Hpy').
  fold st' s1 in Hs', Hpx', Hpy'. simpl in Hpx', Hpy'.
  pose proof (clamped_in_range (s0 * Rtrigo_def.exp (- deltaY * 0.001))) as Hr.
  fold s1 in Hr.
  rewrite Hs', Hpx', Hpy', Hs, Hpx, Hpy, !drawnAt_fin by lra.
  repeat split; f_equal; field; lra.
Qed.

End PanZoomFacts.

(** ** Claims on pan and zoom *)

(** C7, on the failing input: two fingers that land on the same spot and
    then report a move from that spot leave the scale at NaN, which is not
    within [0.2, 3]. *)
Theorem coincident_pinch_breaks_clamp :
  PanZoomController.scale (PanZoomController.after coincidentPinch) = NaN
  ∧ ¬ scaleInRange (PanZoomController.scale (PanZoomController.after coincidentPinch)).
Proof.
  assert (PanZoomController.scale (PanZoomController.after coincidentPinch) = NaN) as H.
  { unfold PanZoomController.after, coincidentPinch. simpl.
    unfold PanZoomController.handlePinchMove, PanZoomController.initializePinch. simpl.
    replace ((0 + - 0) * (0 + - 0) + (0 + - 0) * (0 + - 0))%R with 0%R by lra.
    rewrite sqrt_0. destruct (Req_dec_T 0 0); [|done]. reflexivity. }
  split; [exact H|]. rewrite H. intros [].
Qed.

(** C8, on the failing input: in the page, after a drag that leaves the
    pan at (100, 0), a wheel event 150 to the right of where the diagram
    lies untransformed takes the scale from 1 to 3.  The new pan is the
    one the formula gives for the local point the handler computes,
    cx = 50; but the diagram coordinate drawn under the pointer was 50
    before and is -50/3 after. *)
Theorem wheel_zoom_moves_point_under_pointer :
  ∀ origin : PanZoomController.Rect,
    let st := PanZoomController.after dragRight in
    let x := (PanZoomController.left origin + 150)%R in
    let y := PanZoomController.top origin in
    ∃ rect,
      PanZoomController.boundingClientRect origin st = Some rect
      ∧ (x - PanZoomController.left rect = 50)%R
      ∧ let st' := PanZoomController.onWheel rect x y (-2000) st in
        PanZoomController.scale st = Fin 1
        ∧ PanZoomController.panX st = Fin 100
        ∧ PanZoomController.scale st' = Fin 3
        ∧ PanZoomController.panX st' = Fin (100 + (1 - 3 / 1) * (50 - 100))
        ∧ PanZoomController.drawnAt (Fin (PanZoomController.left origin))
            (PanZoomController.panX st) (PanZoomController.scale st) (Fin x) = Fin 50
        ∧ PanZoomController.drawnAt (Fin (PanZoomController.left origin))
            (PanZoomController.panX st') (PanZoomController.scale st') (Fin x)
          = Fin (- 50 / 3).
Proof.
  intros origin st x y.
  assert (PanZoomController.scale st = Fin 1) as Hs by reflexivity.
  assert (PanZoomController.panX st = Fin 100) as Hpx.
  { unfold st, PanZoomController.after, dragRight. simpl. f_equal. lra. }
  assert (PanZoomController.panY st = Fin 0) as Hpy.
  { unfold st, PanZoomController.after, dragRight. simpl. f_equal. lra. }
  exists (PanZoomController.mkRect (PanZoomController.left origin + 100)
                                   (PanZoomController.top origin + 0)).
  split; [unfold PanZoomController.boundingClientRect; by rewrite Hpx, Hpy|].
  split; [unfold x; simpl; lra|].
  intros st'.
  set (rect := PanZoomController.mkRect _ _) in *.
  assert (Rmax 0.2 (Rmin 3 (1 * Rtrigo_def.exp (- (-2000) * 0.001))) = 3)%R as Hs1.
  { assert (3 <= 1 * Rtrigo_def.exp (- (-2000) * 0.001))%R as Hexp.
    { pose proof (exp_ineq1 (- (-2000) * 0.001)) as H. lra. }
    rewrite Rmin_left by done. rewrite Rmax_right by lra. done. }
  destruct (PanZoomFacts.onWheel_pan_formula st rect x y (-2000) 1 100 0 Hs Rlt_0_1 Hpx Hpy)
    as (Hs' & Hpx' & _).
  fold st' in Hs', Hpx'. rewrite Hs1 in Hs', Hpx'.
  assert (x - PanZoomController.left rect = 50)%R as Hcx by (unfold x, rect; simpl; lra).
  rewrite Hcx in Hpx'.
  repeat split; try done.
  - rewrite Hpx, Hs, PanZoomFacts.drawnAt_fin by lra. f_equal. unfold x. lra.
  - rewrite Hpx', Hs', PanZoomFacts.drawnAt_fin by lra. f_equal. unfold x. lra.
Qed.

(* ===================================================================== *)
(** * Further properties of the code                                      *)
(* ===================================================================== *)

Import Measures MoreScenarios.

(** ** [makeUniqueId] *)

Lemma uniqueIdLoop_least fuel (usedIds : gset string) base i r :
  uniqueIdLoop fuel usedIds base (candidate base i) (S i) = Some r →
  ∃ k, i ≤ k ∧ r = candidate base k ∧ (r ∉ usedIds)
       ∧ (∀ j, i ≤ j < k → candidate base j ∈ usedIds).
Proof.
  revert i. induction fuel as [|fuel IH]; intros i; simpl;
    case_bool_decide as Hin; try done.
  - intros [= <-]. exists i. repeat split; [lia | done | intros j Hj; lia].
  - change (base +:+ ":" +:+ pretty (S i)) with (candidate base (S i)).
    intros (k & Hk & -> & Hfresh & Hused)%IH.
    exists k. repeat split; [lia | done |].
    intros j Hj. destruct (decide (j = i)) as [->|]; [done|]. apply Hused. lia.
  - intros [= <-]. exists i. repeat split; [lia | done | intros j Hj; lia].
Qed.

Lemma makeUniqueId_least (usedIds : gset string) (base : string) :
  ∃ k, (makeUniqueId usedIds base).1 = candidate base k
       ∧ (candidate base k ∉ usedIds)
       ∧ (∀ j, j < k → candidate base j ∈ usedIds).
Proof.
  unfold makeUniqueId. simpl.
  destruct (uniqueIdLoop_total usedIds base) as [r Hr]. rewrite Hr. simpl.
  destruct (uniqueIdLoop_least _ _ base 0 r Hr) as (k & _ & -> & Hfree & Hused).
  exists k. repeat split; [done|]. intros j Hj. apply Hused. lia.
Qed.

(** X1: The id made from [base] is the first of [base], [base:1], [base:2], ...
    that is not in use, and it is in use afterwards. *)
Theorem makeUniqueId_first_free :
  ∀ (usedIds : gset string) (base : string),
    ∃ k, (makeUniqueId usedIds base).1 = candidate base k
         ∧ (candidate base k ∉ usedIds)
         ∧ (∀ j, j < k → candidate base j ∈ usedIds)
         ∧ (makeUniqueId usedIds base).2 = {[candidate base k]} ∪ usedIds.
Proof.
  intros usedIds base.
  destruct (makeUniqueId_least usedIds base) as (k & Hk & Hfree & Hused).
  exists k. repeat split; try done. by rewrite makeUniqueId_adds, Hk.
Qed.

(** ** The synthesizer: edges *)

Lemma clamp_between (lo hi v : R) :
  (lo <= hi)%R → (lo <= Rmax lo (Rmin hi v) <= hi)%R.
Proof.
  intros Hle. split; [apply Rmax_l|].
  apply Rmax_lub; [done | apply Rmin_l].
Qed.

Lemma createEdge_fields e (usedIds : gset string) (sl : JsObject.object) :
  let edge := (createEdge e usedIds sl).1.1 in
  el_id edge = (makeUniqueId usedIds (edgeBaseId e)).1
  ∧ el_kind edge = Some (e_kind e)
  ∧ el_hasMarker edge = e_hasMarker e
  ∧ el_cssClasses edge
    = srcClasses (e_startLine e) (e_startColumn e) (e_endLine e) (e_endColumn e)
  ∧ match edgeLabel e with
    | None => el_children edge = []
    | Some l =>
        ∃ lbl opts w,
          el_children edge = [lbl]
          ∧ el_id lbl = el_id edge +:+ "_label"
          ∧ el_type lbl = "label"
          ∧ el_text lbl = Some l
          ∧ el_layoutOptions lbl = Some opts
          ∧ opts !! "org.eclipse.elk.labelSize" = Some (OSize (Fin w) (Fin 14))
          ∧ (60 <= w <= 300)%R
          ∧ (Rmin 300 (7.5 * INR (String.length l) + 8) <= w)%R
    end.
Proof.
  unfold createEdge, edgeBaseId, edgeLabel.
  set (base := match e_id e with Some i => _ | None => _ end).
  destruct (makeUniqueId usedIds base) as [id used1].
  destruct (String.eqb (e_source e) (e_target e)); simpl;
    (repeat split; try done);
    (destruct (e_label e) as [l|]; [destruct (String.eqb l "")|]; try done);
    eexists _, _, _; (repeat split; try done);
    try apply clamp_between; try lra;
    rewrite (Rmult_comm 7.5); apply Rmax_r.
Qed.

Lemma createEdges_Forall2 (P : DiagramEdge → SElement → Prop) es :
  (∀ e usedIds sl, P e (createEdge e usedIds sl).1.1) →
  ∀ (usedIds : gset string) (sl : JsObject.object),
    Forall2 P es (createEdges es usedIds sl).
Proof.
  intros HP. induction es as [|e es IH]; intros usedIds sl; [constructor|].
  rewrite createEdges_cons. constructor; [apply HP | apply IH].
Qed.

(** X2: Every edge of the model is drawn, in the model's order, whether or
    not its end nodes are drawn: the visual edge has the kind, marker
    flag, source, target and source location of the model edge, and its
    id is the base id of the model edge or the base id with a counter. *)
Theorem synthEdges_follow_model :
  ∀ model : DiagramModel,
    Forall2
      (fun e edge =>
         el_type edge = "edge"
         ∧ el_kind edge = Some (e_kind e)
         ∧ el_hasMarker edge = e_hasMarker e
         ∧ el_sourceId edge = Some (e_source e)
         ∧ el_targetId edge = Some (e_target e)
         ∧ el_cssClasses edge
           = srcClasses (e_startLine e) (e_startColumn e) (e_endLine e) (e_endColumn e)
         ∧ ∃ k, el_id edge = candidate (edgeBaseId e) k)
      (edges model) (synthEdges model).
Proof.
  intros model. apply createEdges_Forall2. intros e usedIds sl.
  destruct (createEdge_spec1 e usedIds sl) as (Ht & Hs & Htg & _).
  destruct (createEdge_fields e usedIds sl) as (Hid & Hk & Hm & Hc & _).
  repeat split; try done.
  destruct (makeUniqueId_least usedIds (edgeBaseId e)) as (k & Hk' & _).
  exists k. by rewrite Hid.
Qed.

(** X3: A visual edge has a label child exactly when the model edge has a
    label that is not empty: the one child then has the id of the edge
    followed by [_label], the text of the model label, and a label size
    of height 14 whose width lies between 60 and 300 and covers 7.5 per
    character plus 8 up to 300. *)
Theorem synthEdges_labels :
  ∀ model : DiagramModel,
    Forall2
      (fun e edge =>
         match edgeLabel e with
         | None => el_children edge = []
         | Some l =>
             ∃ lbl opts w,
               el_children edge = [lbl]
               ∧ el_id lbl = el_id edge +:+ "_label"
               ∧ el_type lbl = "label"
               ∧ el_text lbl = Some l
               ∧ el_layoutOptions lbl = Some opts
               ∧ opts !! "org.eclipse.elk.labelSize" = Some (OSize (Fin w) (Fin 14))
               ∧ (60 <= w <= 300)%R
               ∧ (Rmin 300 (7.5 * INR (String.length l) + 8) <= w)%R
         end)
      (edges model) (synthEdges model).
Proof.
  intros model. apply createEdges_Forall2. intros e usedIds sl.
  by destruct (createEdge_fields e usedIds sl) as (_ & _ & _ & _ & Hl).
Qed.

(** ** The synthesizer: nodes *)

Lemma max_list_of_nat (ns : list nat) :
  (ns = [] ∧ max_list (of_nat <$> ns) = NegInf)
  ∨ ∃ m, max_list (of_nat <$> ns) = Fin m ∧ ∀ n, n ∈ ns → (INR n <= m)%R.
Proof.
  induction ns as [|n ns IH]; [by left|]. right.
  rewrite fmap_cons.
  change (max_list (of_nat n :: (of_nat <$> ns)))
    with (max (of_nat n) (max_list (of_nat <$> ns))).
  destruct IH as [[-> ->]|(m & -> & Hm)].
  - exists (INR n). split; [done|].
    intros k [->|Hk]%elem_of_cons; [lra | by apply elem_of_nil in Hk].
  - exists (Rmax (INR n) m). split; [done|].
    intros k [->|Hk]%elem_of_cons; [apply Rmax_l|].
    etrans; [by apply Hm | apply Rmax_r].
Qed.

Lemma nodeWidth_bounds (ns : list nat) :
  ∃ w, max nodeWidth (min (Fin 600) (add (Fin 24) (mul (Fin 7.5) (max_list (of_nat <$> ns)))))
       = Fin w
       ∧ (120 <= w <= 600)%R
       ∧ ∀ n, n ∈ ns → (Rmin 600 (24 + 7.5 * INR n) <= w)%R.
Proof.
  destruct (max_list_of_nat ns) as [[-> ->]|(m & -> & Hm)].
  - exists 120%R. simpl. destruct (Req_dec_T 7.5 0) as [H|_]; [lra|].
    unfold inf_signed. destruct (Rlt_dec 0 7.5) as [_|H]; [|lra]. simpl.
    split; [done|]. split; [lra|]. intros n Hn. by apply elem_of_nil in Hn.
  - eexists. split; [reflexivity|]. split; [apply clamp_between; lra|].
    intros n Hn. etrans; [|apply Rmax_r].
    apply Rle_min_compat_l. apply Hm in Hn. lra.
Qed.

Lemma createNode_spec (n : DiagramNode) :
    n_kind n ≠ "relation" →
    ∃ node w h lbl opts,
      createNode n = Some node
      ∧ el_id node = n_id n
      ∧ el_kind node = Some (n_kind n)
      ∧ el_types node = Some (default [] (n_types n))
      ∧ el_props node = Some (default [] (n_properties n))
      ∧ el_size node = Some (Fin w, Fin h)
      ∧ (120 <= w <= 600)%R
      ∧ (∀ t, t ∈ nodeTexts n → (Rmin 600 (24 + 7.5 * INR (String.length t)) <= w)%R)
      ∧ (56 <= h)%R
      ∧ (40 + 16 * INR (length (default [] (n_properties n)))
         + (if default [] (n_types n) is [] then 0 else 16) <= h)%R
      ∧ el_children node = [lbl]
      ∧ el_id lbl = n_id n +:+ "_label"
      ∧ el_type lbl = "label"
      ∧ el_text lbl = Some (default (n_id n) (n_label n))
      ∧ el_layoutOptions lbl = Some opts
      ∧ opts !! "org.eclipse.elk.labelSize" = Some (OSize (Fin (w - 20)) (Fin 20)).
Proof.
  intros Hk. unfold createNode.
  destruct (String.eqb_spec (n_kind n) "relation") as [|_]; [done|].
  set (texts := filter _ _).
  assert (((fun t => of_nat (String.length t)) <$> texts)
          = of_nat <$> (String.length <$> texts)) as ->
    by (by rewrite <- list_fmap_compose).
  destruct (nodeWidth_bounds (String.length <$> texts)) as (w & Hw & Hrange & Hcover).
  rewrite Hw.
  set (types := default [] (n_types n)).
  set (properties := default [] (n_properties n)).
  set (h := Rmax 56 ((if (0 <? length types)%nat then 16 else 0) + 32
                     + INR (length properties) * 16 + 8)).
  assert (max baseNodeHeight
            (add (add (add (if (0 <? length types)%nat then Fin 16 else Fin 0) (Fin 32))
                      (mul (of_nat (length properties)) (Fin 16))) (Fin 8))
          = Fin h) as ->
    by (unfold h; destruct (0 <? length types)%nat; reflexivity).
  eexists _, w, h, _, _. split; [reflexivity|]. simpl.
  repeat split; try done; try lra.
  - intros t Ht. destruct (decide (0 < String.length t)) as [Hpos|Hzero].
    + apply Hcover, list_elem_of_fmap_2. apply list_elem_of_filter. split; [done|].
      exact Ht.
    + replace (String.length t) with 0 by lia. simpl.
      etrans; [apply Rmin_r|]. lra.
  - apply Rmax_l.
  - etrans; [|apply Rmax_r].
    destruct types as [|ty tys]; simpl; lra.
Qed.

(** X4: A node that is not of kind relation is drawn as one element with the
    node's id, kind, types and properties.  Its width is a number between
    120 and 600 that covers 24 plus 7.5 per character of each of its
    texts, up to 600; its height is at least 56 and covers the header,
    the line of types and 16 per property.  Its one child is the label
    [id_label], with the node's label (or, without one, the id) as text,
    20 narrower than the node and 20 high. *)
Theorem createNode_size :
  ∀ n : DiagramNode,
    n_kind n ≠ "relation" →
    ∃ node w h lbl opts,
      createNode n = Some node
      ∧ el_id node = n_id n
      ∧ el_kind node = Some (n_kind n)
      ∧ el_types node = Some (default [] (n_types n))
      ∧ el_props node = Some (default [] (n_properties n))
      ∧ el_size node = Some (Fin w, Fin h)
      ∧ (120 <= w <= 600)%R
      ∧ (∀ t, t ∈ nodeTexts n → (Rmin 600 (24 + 7.5 * INR (String.length t)) <= w)%R)
      ∧ (56 <= h)%R
      ∧ (40 + 16 * INR (length (default [] (n_properties n)))
         + (if default [] (n_types n) is [] then 0 else 16) <= h)%R
      ∧ el_children node = [lbl]
      ∧ el_id lbl = n_id n +:+ "_label"
      ∧ el_type lbl = "label"
      ∧ el_text lbl = Some (default (n_id n) (n_label n))
      ∧ el_layoutOptions lbl = Some opts
      ∧ opts !! "org.eclipse.elk.labelSize" = Some (OSize (Fin (w - 20)) (Fin 20)).
Proof. intros n Hk. by apply createNode_spec. Qed.

(** [createNode] on concept A of scenario A. *)
Lemma createNode_size_witness :
  ∃ node w h lbl opts,
    createNode (concept "A") = Some node
    ∧ el_id node = "A"
    ∧ el_kind node = Some "concept"
    ∧ el_types node = Some []
    ∧ el_props node = Some []
    ∧ el_size node = Some (Fin w, Fin h)
    ∧ (120 <= w <= 600)%R
    ∧ (∀ t, t ∈ nodeTexts (concept "A")
            → (Rmin 600 (24 + 7.5 * INR (String.length t)) <= w)%R)
    ∧ (56 <= h)%R
    ∧ (40 + 16 * INR 0 + 0 <= h)%R
    ∧ el_children node = [lbl]
    ∧ el_id lbl = "A_label"
    ∧ el_type lbl = "label"
    ∧ el_text lbl = Some "A"
    ∧ el_layoutOptions lbl = Some opts
    ∧ opts !! "org.eclipse.elk.labelSize" = Some (OSize (Fin (w - 20)) (Fin 20)).
Proof.
  apply (createNode_size (concept "A")). discriminate.
Defined.

(** ** The layout adapter: labels at the tail of an edge *)

Lemma tailPosition_last_two (pre : list Point) (prev last : Point) :
  tailPosition (pre ++ [prev; last])
  = let dx := sub (pt_x last) (pt_x prev) in
    let dy := sub (pt_y last) (pt_y prev) in
    let dist := sqrt (add (mul dx dx) (mul dy dy)) in
    if strict_eq dist (Fin 0) then None
    else Some (mkPoint (sub (pt_x last) (mul (div dx dist) (Fin 12)))
                       (sub (pt_y last) (mul (div dy dist) (Fin 12)))).
Proof.
  unfold tailPosition. rewrite length_app. simpl length.
  destruct (Nat.ltb_spec (length pre + 2) 2) as [H|_]; [lia|].
  replace (length pre + 2 - 1) with (length pre + 1) by lia.
  replace (length pre + 2 - 2) with (length pre + 0) by lia.
  rewrite !lookup_app_r by lia.
  replace (length pre + 1 - length pre) with 1 by lia.
  replace (length pre + 0 - length pre) with 0 by lia.
  reflexivity.
Qed.

Lemma dist2_pos (x1 y1 x2 y2 : R) :
  x1 ≠ x2 ∨ y1 ≠ y2 → (0 < dist2 x1 y1 x2 y2)%R.
Proof.
  unfold dist2. intros Hne.
  pose proof (Rle_0_sqr (x2 - x1)) as Hx. pose proof (Rle_0_sqr (y2 - y1)) as Hy.
  destruct Hne as [H|H].
  - pose proof (Rsqr_pos_lt (x2 - x1)) as Hp. unfold Rsqr in *.
    assert (x2 - x1 ≠ 0)%R as Hn by lra. apply Hp in Hn. lra.
  - pose proof (Rsqr_pos_lt (y2 - y1)) as Hp. unfold Rsqr in *.
    assert (y2 - y1 ≠ 0)%R as Hn by lra. apply Hp in Hn. lra.
Qed.

Lemma tailPosition_on_last_segment (pre : list Point) (x1 y1 x2 y2 : R) :
    x1 ≠ x2 ∨ y1 ≠ y2 →
    ∃ px py t,
      tailPosition (pre ++ [mkPoint (Fin x1) (Fin y1); mkPoint (Fin x2) (Fin y2)])
      = Some (mkPoint (Fin px) (Fin py))
      ∧ dist2 px py x2 y2 = 144%R
      ∧ (0 < t)%R
      ∧ px = (x2 + t * (x1 - x2))%R
      ∧ py = (y2 + t * (y1 - y2))%R
      ∧ ((144 <= dist2 x1 y1 x2 y2)%R → (t <= 1)%R).
Proof.
  intros Hne.
  pose proof (dist2_pos _ _ _ _ Hne) as Hpos. unfold dist2 in Hpos.
  rewrite tailPosition_last_two. simpl.
  set (s := ((x2 + - x1) * (x2 + - x1) + (y2 + - y1) * (y2 + - y1))%R).
  assert (Hs : (0 < s)%R) by (unfold s; lra).
  destruct (Rlt_dec s 0) as [H|_]; [lra|]. simpl.
  pose proof (sqrt_lt_R0 s Hs) as Hd.
  pose proof (sqrt_sqrt s (Rlt_le _ _ Hs)) as Hdd.
  set (d := R_sqrt.sqrt s) in *.
  destruct (Req_dec_T d 0) as [H|_]; [lra|].
  destruct (Req_dec_T d 0) as [H|_]; [lra|].
  eexists _, _, (12 / d)%R. split; [reflexivity|].
  assert (Hinv : (d * / d = 1)%R) by (apply Rinv_r; lra).
  assert (Hi : (0 < / d)%R) by (by apply Rinv_0_lt_compat).
  repeat split.
  - unfold dist2, Rdiv.
    transitivity (144 * (s * (/ d * / d)))%R; [unfold s; ring|].
    rewrite <- Hdd.
    replace (d * d * (/ d * / d))%R with ((d * / d) * (d * / d))%R by ring.
    rewrite Hinv. ring.
  - unfold Rdiv. nra.
  - unfold Rdiv. ring.
  - unfold Rdiv. ring.
  - intros Hfar. unfold dist2 in Hfar.
    assert (Hs12 : (12 * 12 <= d * d)%R) by (rewrite Hdd; unfold s; lra).
    assert (H12 : (12 <= d)%R) by nra.
    unfold Rdiv. 
    apply (Rmult_le_reg_r d); [lra|].
    rewrite Rmult_assoc, (Rmult_comm (/ d)), Hinv. lra.
Qed.

(** X5: In exact arithmetic (the numbers of this development are reals:
    nothing is rounded, and no product underflows to zero), on a route
    whose last two points are finite and differ, the tail position is the
    point on the line through them at distance 12 from the last point, on
    the side of the point before it; it lies between the two points when
    they are at least 12 apart. *)
Theorem tailPosition_twelve_before_end :
  ∀ (pre : list Point) (x1 y1 x2 y2 : R),
    x1 ≠ x2 ∨ y1 ≠ y2 →
    ∃ px py t,
      tailPosition (pre ++ [mkPoint (Fin x1) (Fin y1); mkPoint (Fin x2) (Fin y2)])
      = Some (mkPoint (Fin px) (Fin py))
      ∧ dist2 px py x2 y2 = 144%R
      ∧ (0 < t)%R
      ∧ px = (x2 + t * (x1 - x2))%R
      ∧ py = (y2 + t * (y1 - y2))%R
      ∧ ((144 <= dist2 x1 y1 x2 y2)%R → (t <= 1)%R).
Proof. intros pre x1 y1 x2 y2 Hne. by apply tailPosition_on_last_segment. Qed.

(** A route from (0,0) to (0,24): the label goes to (0,12). *)
Lemma tailPosition_twelve_before_end_witness :
  ∃ px py t,
    tailPosition ([] ++ [mkPoint (Fin 0) (Fin 0); mkPoint (Fin 0) (Fin 24)])
    = Some (mkPoint (Fin px) (Fin py))
    ∧ dist2 px py 0 24 = 144%R
    ∧ (0 < t)%R
    ∧ px = (0 + t * (0 - 0))%R
    ∧ py = (24 + t * (0 - 24))%R
    ∧ ((144 <= dist2 0 0 0 24)%R → (t <= 1)%R).
Proof.
  apply (tailPosition_twelve_before_end [] 0 0 0 24). right. lra.
Defined.

Lemma find_positionFirstLabel (p : Point) (cs : list SElement) (l : SElement) :
  find isLabel cs = Some l →
  ∃ before after,
    cs = before ++ l :: after
    ∧ Forall (fun c => isLabel c = false) before
    ∧ positionFirstLabel p cs = before ++ withPosition l p :: after.
Proof.
  induction cs as [|c cs IH]; [done|]. simpl.
  destruct (isLabel c) eqn:Hc.
  - intros [= <-]. by exists [], cs.
  - intros (before & after & -> & Hb & ->)%IH.
    exists (c :: before), after. split; [done|]. split; [by constructor | done].
Qed.

(** X6: An edge whose label placement is TAIL, that has a label child and a
    route with a tail position: the adjustment gives its first label that
    position and changes nothing else of the edge. *)
Theorem adjustEdgeLabel_tail :
  ∀ (child l : SElement) (opts : gmap string optval) (p : Point),
    el_type child = "edge" →
    find isLabel (el_children child) = Some l →
    el_layoutOptions child = Some opts →
    opts !! placementKey = Some (OText "TAIL") →
    tailPosition (routeOf child) = Some p →
    ∃ before after,
      el_children child = before ++ l :: after
      ∧ Forall (fun c => isLabel c = false) before
      ∧ adjustEdgeLabel child = withChildren child (before ++ withPosition l p :: after).
Proof.
  intros child l opts p Ht Hl Ho Hp Htail.
  destruct (find_positionFirstLabel p _ _ Hl) as (before & after & Hcs & Hb & Hpos).
  exists before, after. repeat split; [done..|].
  unfold adjustEdgeLabel. rewrite Ht, Hl, Ho. simpl. rewrite Hp, Htail. simpl.
  by rewrite Hpos.
Qed.

(** The edge of [tailEdge], adjusted. *)
Lemma adjustEdgeLabel_tail_witness :
  ∃ p before after,
    tailPosition (routeOf tailEdge) = Some p
    ∧ el_children tailEdge = before ++ tailLabel :: after
    ∧ Forall (fun c => isLabel c = false) before
    ∧ adjustEdgeLabel tailEdge
      = withChildren tailEdge (before ++ withPosition tailLabel p :: after).
Proof.
  destruct (tailPosition_on_last_segment [] 0 0 0 24) as (px & py & t & Hp & _);
    [right; lra|].
  exists (mkPoint (Fin px) (Fin py)).
  destruct (adjustEdgeLabel_tail tailEdge tailLabel
              (textOptions [(placementKey, "TAIL")]) (mkPoint (Fin px) (Fin py)))
    as (before & after & Hcs & Hb & He);
    [reflexivity | reflexivity | reflexivity | reflexivity | exact Hp |].
  exists before, after. split; [exact Hp|]. split; [exact Hcs|]. split; [exact Hb|]. exact He.
Defined.

Lemma positionFirstLabel_clear (p : Point) (cs : list SElement) :
  (fun c => if isLabel c then clearPosition c else c) <$> positionFirstLabel p cs
  = (fun c => if isLabel c then clearPosition c else c) <$> cs.
Proof.
  induction cs as [|c cs IH]; [done|].
  change (positionFirstLabel p (c :: cs))
    with (if isLabel c then withPosition c p :: cs else c :: positionFirstLabel p cs).
  destruct (isLabel c) eqn:Hc; rewrite !fmap_cons.
  - change (isLabel (withPosition c p)) with (isLabel c). by rewrite Hc.
  - by rewrite Hc, IH.
Qed.

Lemma adjustEdgeLabel_clear (child : SElement) :
  clearLabelPositions (adjustEdgeLabel child) = clearLabelPositions child.
Proof.
  unfold adjustEdgeLabel.
  destruct (String.eqb (el_type child) "edge"); [|done].
  destruct (find isLabel (el_children child)); [|done].
  destruct (negb _); [done|].
  destruct (tailPosition (routeOf child)) as [p|]; [|done].
  unfold clearLabelPositions, withChildren. simpl.
  by rewrite positionFirstLabel_clear.
Qed.

(** X7: The label adjustment keeps the graph as the engine laid it out but
    for positions of labels: the root keeps all but its children, the
    children stay in order, a child that is no edge is untouched, and an
    edge keeps everything but the positions of its label children. *)
Theorem adjustEdgeLabels_frame :
  ∀ laidOut : SElement,
    withChildren (adjustEdgeLabels laidOut) [] = withChildren laidOut []
    ∧ Forall2
        (fun c c' =>
           clearLabelPositions c' = clearLabelPositions c
           ∧ (el_type c ≠ "edge" → c' = c))
        (el_children laidOut) (el_children (adjustEdgeLabels laidOut)).
Proof.
  intros laidOut. split; [done|]. simpl.
  induction (el_children laidOut) as [|c cs IH]; [constructor|].
  rewrite fmap_cons. constructor; [|exact IH].
  split; [apply adjustEdgeLabel_clear|].
  intros Ht. unfold adjustEdgeLabel.
  by destruct (String.eqb_spec (el_type c) "edge").
Qed.

Lemma tailPosition_short (pts : list Point) : length pts < 2 → tailPosition pts = None.
Proof.
  intros H. unfold tailPosition. by destruct (Nat.ltb_spec (length pts) 2); [|lia].
Qed.

Lemma tailPosition_zero_segment (pre : list Point) (x y : R) :
  tailPosition (pre ++ [mkPoint (Fin x) (Fin y); mkPoint (Fin x) (Fin y)]) = None.
Proof.
  rewrite tailPosition_last_two. simpl.
  replace ((x + - x) * (x + - x) + (y + - y) * (y + - y))%R with 0%R by ring.
  destruct (Rlt_dec 0 0) as [H|_]; [lra|]. simpl. rewrite sqrt_0.
  by destruct (Req_dec_T 0 0).
Qed.

(** X8: An edge whose route has fewer than two points, or whose route ends
    in two equal finite points, is left exactly as the engine laid it
    out, whatever its label placement: the direction of a segment of
    length zero is never computed. *)
Theorem adjustEdgeLabel_degenerate_route :
  ∀ child : SElement,
    (length (routeOf child) < 2
     ∨ ∃ pre x y,
         routeOf child = pre ++ [mkPoint (Fin x) (Fin y); mkPoint (Fin x) (Fin y)]) →
    adjustEdgeLabel child = child.
Proof.
  intros child Hroute.
  assert (tailPosition (routeOf child) = None) as Hnone.
  { destruct Hroute as [H|(pre & x & y & ->)];
      [by apply tailPosition_short | apply tailPosition_zero_segment]. }
  unfold adjustEdgeLabel. rewrite Hnone.
  destruct (String.eqb (el_type child) "edge"); [|done].
  destruct (find isLabel (el_children child)); [|done].
  by destruct (negb _).
Qed.

(** The edge of [tailEdge] with a route of one point. *)
Lemma adjustEdgeLabel_degenerate_route_witness :
  adjustEdgeLabel (withRoute tailEdge [mkPoint (Fin 0) (Fin 0)])
  = withRoute tailEdge [mkPoint (Fin 0) (Fin 0)].
Proof.
  apply (adjustEdgeLabel_degenerate_route (withRoute tailEdge [mkPoint (Fin 0) (Fin 0)])).
  left. simpl. lia.
Defined.

(** ** The [oml/diagramModel] request *)

(** X9: The request always answers with a graph and never with an error:
    the empty root when the diagram model cannot be computed, the
    synthesized graph when the layout engine throws, and else the laid
    out graph after the label adjustment. *)
Theorem diagram_request_always_answers :
  ∀ {E} (computeDiagramModel : string → completion E DiagramModel)
    (layout : LayoutConfigurator → SElement → completion E SElement)
    (uri : string),
    ∃ answer,
      DiagramModelRequest.onRequest computeDiagramModel layout uri = Normal answer
      ∧ match computeDiagramModel uri with
        | Throw _ =>
            answer = DiagramModelRequest.emptyModel
        | Normal model =>
            match layoutEngine layout (diagramToSprotty model) with
            | Throw _ => answer = diagramToSprotty model
            | Normal laidOut => answer = adjustEdgeLabels laidOut
            end
        end.
Proof.
  intros E cdm layout uri.
  unfold DiagramModelRequest.onRequest, computeLaidOutSModelForUri.
  destruct (cdm uri) as [model|e]; simpl; [|by eexists].
  destruct (layoutEngine layout (diagramToSprotty model)) as [laidOut|e]; simpl;
    by eexists.
Qed.

(** ** [findElementById] *)

Lemma SElement_children_ind (P : SElement → Prop) :
  (∀ e, Forall P (el_children e) → P e) → ∀ e, P e.
Proof.
  intros H. fix IH 1. intros e. apply H.
  destruct e as [? ? ? ? ? ? ? ? ? ? ? ? ? ? ? ? ? cs]. simpl.
  induction cs as [|c cs IHcs]; constructor; [apply IH | apply IHcs].
Qed.

Lemma head_filter_app {A} (P : A → Prop) `{∀ x, Decision (P x)} (l k : list A) :
  head (filter P (l ++ k))
  = match head (filter P l) with
    | Some x => Some x
    | None => head (filter P k)
    end.
Proof. rewrite filter_app. by destruct (filter P l). Qed.

(** X10: [findElementById] returns the first element of the model, parents
    before children and children in order, whose id is the one asked
    for; it returns null exactly when no element has that id. *)
Theorem findElementById_first :
  ∀ (model : SElement) (id : string),
    findElementById model id = head (filter (fun e => el_id e = id) (elements model)).
Proof.
  intros model id. induction model as [e IH] using SElement_children_ind.
  destruct e as [eid ? ? ? ? ? ? ? ? ? ? ? ? ? ? ? ? cs]. simpl in *.
  rewrite filter_cons. simpl.
  destruct (String.eqb_spec eid id) as [->|Hne].
  - by rewrite decide_True.
  - rewrite decide_False by done.
    induction IH as [|c cs Hc _ IHcs]; [done|].
    rewrite head_filter_app, <- Hc, <- IHcs. reflexivity.
Qed.

(** ** Pan and zoom: dragging, pinching, the wheel *)

Section PanZoomMore.
Import PanZoomController.
Local Open Scope R_scope.

Lemma clampScale_range (v : R) : 0.2 <= clampScale v <= 3.
Proof. apply PanZoomFacts.clamped_in_range. Qed.

Lemma touchDistance_apart (t0 t1 : Touch) : apart t0 t1 → 0 < touchDistance t0 t1.
Proof. apply PanZoomFacts.distance_apart. Qed.

Lemma touchDistance_nonneg (t0 t1 : Touch) : 0 <= touchDistance t0 t1.
Proof. apply sqrt_pos. Qed.

Lemma touchDistance_same (t0 t1 : Touch) :
  clientX t0 = clientX t1 → clientY t0 = clientY t1 → touchDistance t0 t1 = 0.
Proof.
  intros Hx Hy. unfold touchDistance. rewrite Hx, Hy.
  replace ((clientX t1 + - clientX t1) * (clientX t1 + - clientX t1)
           + (clientY t1 + - clientY t1) * (clientY t1 + - clientY t1)) with 0 by ring.
  apply sqrt_0.
Qed.

(** X11: A press that starts panning, then a move: the pan follows the
    pointer by exactly its displacement since the press, and the scale is
    unchanged.  One finger that touches and moves does the same. *)
Theorem drag_pans_by_displacement :
  ∀ (st : PanZoom) (px py x0 y0 x y : R),
    panX st = Fin px → panY st = Fin py →
    (∀ button hit,
       startsPan button hit →
       let st' := handle (handle st (MouseDown button hit x0 y0)) (MouseMove x y) in
       panX st' = Fin (px + (x - x0)) ∧ panY st' = Fin (py + (y - y0))
       ∧ scale st' = scale st)
    ∧ (∀ rect,
         let st' := handle (handle st (TouchStart rect [mkTouch x0 y0]))
                           (TouchMove [mkTouch x y]) in
         panX st' = Fin (px + (x - x0)) ∧ panY st' = Fin (py + (y - y0))
         ∧ scale st' = scale st).
Proof.
  intros st px py x0 y0 x y Hpx Hpy. split.
  - intros button hit Hstart. simpl. unfold onMouseDown.
    assert ((button =? 1)%nat || ((button =? 0)%nat && negb hit) = true) as ->.
    { destruct Hstart as [->|[-> ->]]; reflexivity. }
    unfold onMouseMove. simpl. rewrite Hpx, Hpy. simpl.
    repeat split; f_equal; lra.
  - intros rect. simpl. rewrite Hpx, Hpy. simpl.
    repeat split; f_equal; lra.
Qed.

(** A middle-button drag from (5,5) to (8,3) on the controller as it starts. *)
Lemma drag_pans_by_displacement_witness :
  let st' := handle (handle initial (MouseDown 1 true 5 5)) (MouseMove 8 3) in
  panX st' = Fin (0 + (8 - 5)) ∧ panY st' = Fin (0 + (3 - 5)) ∧ scale st' = scale initial.
Proof.
  apply (proj1 (drag_pans_by_displacement initial 0 0 5 5 8 3 eq_refl eq_refl) 1%nat true).
  left. reflexivity.
Defined.

(** X12: A press that does not start panning (the left button on a node or an
    edge, or another button than left and middle) on a controller that is
    not panning: the moves that follow change nothing. *)
Theorem press_on_element_does_not_pan :
  ∀ (st : PanZoom) (button : nat) (hit : bool) (x0 y0 : R) (moves : list (R * R)),
    isPanning st = false →
    ¬ startsPan button hit →
    foldl handle (handle st (MouseDown button hit x0 y0))
          ((fun m => MouseMove m.1 m.2) <$> moves)
    = st.
Proof.
  intros st button hit x0 y0 moves Hidle Hno. simpl. unfold onMouseDown.
  assert ((button =? 1)%nat || ((button =? 0)%nat && negb hit) = false) as ->.
  { unfold startsPan in Hno.
    destruct (Nat.eqb_spec button 1) as [->|_]; [exfalso; apply Hno; by left|].
    destruct (Nat.eqb_spec button 0) as [->|_]; [|done].
    destruct hit; [done|]. exfalso. apply Hno. by right. }
  induction moves as [|m moves IH]; [done|].
  rewrite fmap_cons. simpl. unfold onMouseMove. rewrite Hidle. exact IH.
Qed.

(** A left press on a node, then two moves, on the controller as it starts. *)
Lemma press_on_element_does_not_pan_witness :
  foldl handle (handle initial (MouseDown 0 true 5 5))
        ((fun m => MouseMove m.1 m.2) <$> [(8, 3); (9, 9)])
  = initial.
Proof.
  apply (press_on_element_does_not_pan initial 0%nat true 5 5 [(8, 3); (9, 9)]).
  - reflexivity.
  - intros [H|[_ H]]; discriminate.
Defined.

Lemma pinch_start_fields (st : PanZoom) (rect : Rect) (t0 t1 : Touch) :
  let st0 := handle st (TouchStart rect [t0; t1]) in
  pinchActive st0 = true
  ∧ pinchStartDist st0 = Fin (touchDistance t0 t1)
  ∧ pinchStartScale st0 = scale st
  ∧ pinchStartPanX st0 = panX st
  ∧ pinchStartPanY st0 = panY st
  ∧ pinchCenterX st0 = Fin ((clientX t0 + clientX t1) / 2 + - left rect)
  ∧ pinchCenterY st0 = Fin ((clientY t0 + clientY t1) / 2 + - top rect)
  ∧ scale st0 = scale st ∧ panX st0 = panX st ∧ panY st0 = panY st.
Proof.
  simpl. unfold initializePinch. simpl.
  destruct (Req_dec_T 2 0) as [H|_]; [lra|]. done.
Qed.

(** What one pinch move does to a controller in a gesture. *)
Lemma pinch_move_fields (st : PanZoom) (a b : Touch) (s ps d0 px py cx cy : R) :
  pinchActive st = true →
  scale st = Fin s → 0 < s →
  pinchStartScale st = Fin ps →
  pinchStartDist st = Fin d0 → 0 < d0 →
  pinchStartPanX st = Fin px → pinchStartPanY st = Fin py →
  pinchCenterX st = Fin cx → pinchCenterY st = Fin cy →
  let s1 := clampScale (ps * (touchDistance a b / d0)) in
  let st1 := handle st (TouchMove [a; b]) in
  scale st1 = Fin s1
  ∧ panX st1 = Fin (px + (1 - s1 / s) * (cx - px))
  ∧ panY st1 = Fin (py + (1 - s1 / s) * (cy - py))
  ∧ pinchActive st1 = true
  ∧ pinchStartScale st1 = Fin ps
  ∧ pinchStartDist st1 = Fin d0
  ∧ pinchStartPanX st1 = Fin px ∧ pinchStartPanY st1 = Fin py
  ∧ pinchCenterX st1 = Fin cx ∧ pinchCenterY st1 = Fin cy.
Proof.
  intros Hact Hs Hpos Hps Hd Hdpos Hpx Hpy Hcx Hcy. simpl. rewrite Hact.
  unfold handlePinchMove. simpl. rewrite Hs, Hps, Hd, Hpx, Hpy, Hcx, Hcy. simpl.
  destruct (Req_dec_T d0 0) as [H|_]; [lra|]. simpl.
  destruct (Req_dec_T s 0) as [H|_]; [lra|]. simpl.
  repeat split; try done; f_equal; unfold clampScale, touchDistance; lra.
Qed.

Lemma pinch_two_moves (st : PanZoom) (rect : Rect) (t0 t1 a b a' b' : Touch)
    (s0 px py : R) :
  scale st = Fin s0 → 0 < s0 →
  panX st = Fin px → panY st = Fin py →
  apart t0 t1 →
  let cx := (clientX t0 + clientX t1) / 2 - left rect in
  let cy := (clientY t0 + clientY t1) / 2 - top rect in
  let s1 := clampScale (s0 * (touchDistance a b / touchDistance t0 t1)) in
  let s2 := clampScale (s0 * (touchDistance a' b' / touchDistance t0 t1)) in
  let st1 := handle (handle st (TouchStart rect [t0; t1])) (TouchMove [a; b]) in
  let st2 := handle st1 (TouchMove [a'; b']) in
  (scale st1 = Fin s1
   ∧ panX st1 = Fin (px + (1 - s1 / s0) * (cx - px))
   ∧ panY st1 = Fin (py + (1 - s1 / s0) * (cy - py)))
  ∧ (scale st2 = Fin s2
     ∧ panX st2 = Fin (px + (1 - s2 / s1) * (cx - px))
     ∧ panY st2 = Fin (py + (1 - s2 / s1) * (cy - py))).
Proof.
  intros Hs Hpos Hpx Hpy Hap cx cy s1 s2 st1 st2.
  destruct (pinch_start_fields st rect t0 t1)
    as (Hact & Hd & Hps & Hppx & Hppy & Hcx & Hcy & Hs' & _).
  pose proof (touchDistance_apart _ _ Hap) as Hd0.
  rewrite Hs in Hps, Hs'. rewrite Hpx in Hppx. rewrite Hpy in Hppy.
  destruct (pinch_move_fields _ a b _ _ _ _ _ _ _ Hact Hs' Hpos Hps Hd Hd0 Hppx Hppy Hcx Hcy)
    as (H1s & H1x & H1y & H1act & H1ps & H1d & H1px & H1py & H1cx & H1cy).
  fold st1 in H1s, H1x, H1y, H1act, H1ps, H1d, H1px, H1py, H1cx, H1cy.
  fold s1 in H1s, H1x, H1y.
  pose proof (clampScale_range (s0 * (touchDistance a b / touchDistance t0 t1))) as Hr1.
  fold s1 in Hr1.
  assert (0 < s1) as Hs1 by lra.
  destruct (pinch_move_fields _ a' b' _ _ _ _ _ _ _
              H1act H1s Hs1 H1ps H1d Hd0 H1px H1py H1cx H1cy)
    as (H2s & H2x & H2y & _).
  fold st2 in H2s, H2x, H2y. fold s2 in H2s, H2x, H2y.
  split; (split; [done|split]); [rewrite H1x | rewrite H1y | rewrite H2x | rewrite H2y];
    f_equal; unfold cx, cy; lra.
Qed.

Lemma scales_equal (s0 s1 v : R) :
  0 < s0 → 0 < s1 → ((1 / s1 - 1 / s0) * v = 0 ↔ s1 = s0 ∨ v = 0).
Proof.
  intros H0 H1. split.
  - intros [Hs|Hv]%Rmult_integral; [left | by right].
    apply (Rmult_eq_compat_l (s0 * s1)) in Hs. field_simplify in Hs; lra.
  - intros [-> | ->]; [|ring]. field. lra.
Qed.

(** X13: In the page the rectangle that [initializePinch] measures moves with
    the pan.  There the first move of a two-finger gesture that starts
    with the fingers apart, on a controller of scale s0 > 0 and pan
    (px, py), sets the scale to s1, the start scale times the ratio of
    the finger distances, kept within [0.2, 3], and moves the diagram
    point that is drawn under the midpoint of the fingers at the start of
    the gesture by (1/s1 - 1/s0) times the pan, on both axes.  The point
    is the same after the move as before the gesture exactly when the
    scale has not changed or the pan was (0, 0). *)
Theorem pinch_first_move_in_page :
  ∀ (st : PanZoom) (origin rect : Rect) (t0 t1 a b : Touch) (s0 px py : R),
    scale st = Fin s0 → 0 < s0 →
    panX st = Fin px → panY st = Fin py →
    apart t0 t1 →
    boundingClientRect origin st = Some rect →
    let mx := (clientX t0 + clientX t1) / 2 in
    let my := (clientY t0 + clientY t1) / 2 in
    let s1 := clampScale (s0 * (touchDistance a b / touchDistance t0 t1)) in
    let st1 := handle (handle st (TouchStart rect [t0; t1])) (TouchMove [a; b]) in
    let pointBefore :=
      (drawnAt (Fin (left origin)) (panX st) (scale st) (Fin mx),
       drawnAt (Fin (top origin)) (panY st) (scale st) (Fin my)) in
    let pointAfter :=
      (drawnAt (Fin (left origin)) (panX st1) (scale st1) (Fin mx),
       drawnAt (Fin (top origin)) (panY st1) (scale st1) (Fin my)) in
    scale st1 = Fin s1
    ∧ pointBefore
      = (Fin ((mx - left origin - px) / s0), Fin ((my - top origin - py) / s0))
    ∧ pointAfter
      = (Fin ((mx - left origin - px) / s0 + (1 / s1 - 1 / s0) * px),
         Fin ((my - top origin - py) / s0 + (1 / s1 - 1 / s0) * py))
    ∧ (pointAfter = pointBefore ↔ s1 = s0 ∨ (px = 0 ∧ py = 0)).
Proof.
  intros st origin rect t0 t1 a b s0 px py Hs Hpos Hpx Hpy Hap Hrect mx my s1 st1
    pointBefore pointAfter.
  unfold boundingClientRect in Hrect. rewrite Hpx, Hpy in Hrect. injection Hrect as <-.
  destruct (pinch_two_moves st (mkRect (left origin + px) (top origin + py))
              t0 t1 a b a b s0 px py Hs Hpos Hpx Hpy Hap)
    as [(H1s' & H1x' & H1y') _].
  assert (scale st1 = Fin s1) as H1s by exact H1s'.
  assert (panX st1 = Fin (px + (1 - s1 / s0) * (mx - (left origin + px) - px))) as H1x
    by exact H1x'.
  assert (panY st1 = Fin (py + (1 - s1 / s0) * (my - (top origin + py) - py))) as H1y
    by exact H1y'.
  clear H1s' H1x' H1y'.
  pose proof (clampScale_range (s0 * (touchDistance a b / touchDistance t0 t1))) as Hr.
  fold s1 in Hr.
  assert (pointBefore
          = (Fin ((mx - left origin - px) / s0), Fin ((my - top origin - py) / s0)))
    as Hbefore.
  { unfold pointBefore. by rewrite Hs, Hpx, Hpy, !PanZoomFacts.drawnAt_fin by lra. }
  assert (pointAfter
          = (Fin ((mx - left origin - px) / s0 + (1 / s1 - 1 / s0) * px),
             Fin ((my - top origin - py) / s0 + (1 / s1 - 1 / s0) * py)))
    as Hafter.
  { unfold pointAfter. rewrite H1s, H1x, H1y, !PanZoomFacts.drawnAt_fin by lra.
    f_equal; f_equal; field; lra. }
  split; [done|]. split; [done|]. split; [done|].
  rewrite Hbefore, Hafter.
  assert (0 < s1) as Hpos1 by lra.
  pose proof (scales_equal s0 s1 px Hpos Hpos1) as Hx.
  pose proof (scales_equal s0 s1 py Hpos Hpos1) as Hy.
  split.
  - intros [= Hex Hey].
    assert ((1 / s1 - 1 / s0) * px = 0) as Hx0 by lra.
    assert ((1 / s1 - 1 / s0) * py = 0) as Hy0 by lra.
    apply Hx in Hx0. apply Hy in Hy0. tauto.
  - intros Hcase.
    assert ((1 / s1 - 1 / s0) * px = 0) as Hx0 by (apply Hx; tauto).
    assert ((1 / s1 - 1 / s0) * py = 0) as Hy0 by (apply Hy; tauto).
    rewrite Hx0, Hy0. f_equal; f_equal; lra.
Qed.

(** After a pan by (100, 0): a pinch from fingers 10 apart to fingers 20
    apart. *)
Lemma pinch_first_move_in_page_witness :
  let st := setPan (Fin 100) (Fin 0) initial in
  let rect := mkRect (0 + 100) (0 + 0) in
  let st1 := handle (handle st (TouchStart rect [mkTouch 0 0; mkTouch 10 0]))
                    (TouchMove [mkTouch 0 0; mkTouch 20 0]) in
  let s1 := clampScale (1 * (touchDistance (mkTouch 0 0) (mkTouch 20 0)
                             / touchDistance (mkTouch 0 0) (mkTouch 10 0))) in
  scale st1 = Fin s1
  ∧ (drawnAt (Fin (left window)) (panX st1) (scale st1) (Fin ((0 + 10) / 2)),
     drawnAt (Fin (top window)) (panY st1) (scale st1) (Fin ((0 + 0) / 2)))
    = (Fin (((0 + 10) / 2 - left window - 100) / 1 + (1 / s1 - 1 / 1) * 100),
       Fin (((0 + 0) / 2 - top window - 0) / 1 + (1 / s1 - 1 / 1) * 0)).
Proof.
  intros st rect st1 s1.
  destruct (pinch_first_move_in_page st window rect (mkTouch 0 0) (mkTouch 10 0)
              (mkTouch 0 0) (mkTouch 20 0) 1 100 0 eq_refl Rlt_0_1 eq_refl eq_refl)
    as (H1 & _ & H2 & _); [left; simpl; lra | reflexivity |].
  split; [exact H1 | exact H2].
Defined.

(** X14: The pan that a pinch leaves depends on the moves in between.  Each
    move computes the pan from the pan at the start of the gesture but
    from the scale that the move before it has left (s0 = this.scale):
    reached in one move, the finger positions (a', b') leave the pan
    p + (1 - s2/s0) * (c - p); reached by way of (a, b), which sets the
    scale to s1, they leave p + (1 - s2/s1) * (c - p), at the same scale
    s2.  The two agree exactly when the move in between has not changed
    the scale or the centre of the gesture is where the start pan is. *)
Theorem pinch_pan_depends_on_moves :
  ∀ (st : PanZoom) (rect : Rect) (t0 t1 a b a' b' : Touch) (s0 px py : R),
    scale st = Fin s0 → 0 < s0 →
    panX st = Fin px → panY st = Fin py →
    apart t0 t1 →
    let cx := (clientX t0 + clientX t1) / 2 - left rect in
    let cy := (clientY t0 + clientY t1) / 2 - top rect in
    let s1 := clampScale (s0 * (touchDistance a b / touchDistance t0 t1)) in
    let s2 := clampScale (s0 * (touchDistance a' b' / touchDistance t0 t1)) in
    let start := handle st (TouchStart rect [t0; t1]) in
    let direct := handle start (TouchMove [a'; b']) in
    let twoMoves := handle (handle start (TouchMove [a; b])) (TouchMove [a'; b']) in
    scale direct = Fin s2 ∧ scale twoMoves = Fin s2
    ∧ panX direct = Fin (px + (1 - s2 / s0) * (cx - px))
    ∧ panY direct = Fin (py + (1 - s2 / s0) * (cy - py))
    ∧ panX twoMoves = Fin (px + (1 - s2 / s1) * (cx - px))
    ∧ panY twoMoves = Fin (py + (1 - s2 / s1) * (cy - py))
    ∧ ((panX twoMoves, panY twoMoves) = (panX direct, panY direct)
       ↔ s1 = s0 ∨ (cx = px ∧ cy = py)).
Proof.
  intros st rect t0 t1 a b a' b' s0 px py Hs Hpos Hpx Hpy Hap cx cy s1 s2 start direct
    twoMoves.
  destruct (pinch_two_moves st rect t0 t1 a' b' a' b' s0 px py Hs Hpos Hpx Hpy Hap)
    as [(Hds' & Hdx' & Hdy') _].
  destruct (pinch_two_moves st rect t0 t1 a b a' b' s0 px py Hs Hpos Hpx Hpy Hap)
    as [_ (Hts' & Htx' & Hty')].
  assert (scale direct = Fin s2) as Hds by exact Hds'.
  assert (panX direct = Fin (px + (1 - s2 / s0) * (cx - px))) as Hdx by exact Hdx'.
  assert (panY direct = Fin (py + (1 - s2 / s0) * (cy - py))) as Hdy by exact Hdy'.
  assert (scale twoMoves = Fin s2) as Hts by exact Hts'.
  assert (panX twoMoves = Fin (px + (1 - s2 / s1) * (cx - px))) as Htx by exact Htx'.
  assert (panY twoMoves = Fin (py + (1 - s2 / s1) * (cy - py))) as Hty by exact Hty'.
  clear Hds' Hdx' Hdy' Hts' Htx' Hty'.
  pose proof (clampScale_range (s0 * (touchDistance a b / touchDistance t0 t1))) as Hr1.
  pose proof (clampScale_range (s0 * (touchDistance a' b' / touchDistance t0 t1))) as Hr2.
  fold s1 in Hr1. fold s2 in Hr2.
  repeat (split; [done|]).
  rewrite Hdx, Hdy, Htx, Hty.
  assert (0 < s1) as Hpos1 by lra.
  assert (∀ c p, p + (1 - s2 / s1) * (c - p) = p + (1 - s2 / s0) * (c - p)
                 ↔ (1 / s1 - 1 / s0) * (c - p) = 0) as Heq.
  { intros c p. split; intros H.
    - apply (Rmult_eq_reg_l s2); [|lra].
      replace (s2 * ((1 / s1 - 1 / s0) * (c - p)))
        with ((1 - s2 / s0) * (c - p) - (1 - s2 / s1) * (c - p)) by (field; lra).
      lra.
    - assert ((1 - s2 / s0) * (c - p) - (1 - s2 / s1) * (c - p)
              = s2 * ((1 / s1 - 1 / s0) * (c - p))) as Hd by (field; lra).
      rewrite H in Hd. lra. }
  pose proof (scales_equal s0 s1 (cx - px) Hpos Hpos1) as Hx.
  pose proof (scales_equal s0 s1 (cy - py) Hpos Hpos1) as Hy.
  split.
  - intros [= Hex Hey]. apply Heq, Hx in Hex. apply Heq, Hy in Hey.
    destruct Hex as [?|Hex]; [by left|]. destruct Hey as [?|Hey]; [by left|].
    right. lra.
  - intros Hcase.
    assert (px + (1 - s2 / s1) * (cx - px) = px + (1 - s2 / s0) * (cx - px)) as ->.
    { apply Heq, Hx. destruct Hcase as [?|[? ?]]; [by left | right; lra]. }
    assert (py + (1 - s2 / s1) * (cy - py) = py + (1 - s2 / s0) * (cy - py)) as ->.
    { apply Heq, Hy. destruct Hcase as [?|[? ?]]; [by left | right; lra]. }
    done.
Qed.

(** A pinch from fingers 10 apart to 30 apart, at once and by way of 20
    apart. *)
Lemma pinch_pan_depends_on_moves_witness :
  let start := handle initial (TouchStart window [mkTouch 0 0; mkTouch 10 0]) in
  let direct := handle start (TouchMove [mkTouch 0 0; mkTouch 30 0]) in
  let twoMoves := handle (handle start (TouchMove [mkTouch 0 0; mkTouch 20 0]))
                         (TouchMove [mkTouch 0 0; mkTouch 30 0]) in
  scale direct = scale twoMoves.
Proof.
  intros start direct twoMoves.
  destruct (pinch_pan_depends_on_moves initial window (mkTouch 0 0) (mkTouch 10 0)
              (mkTouch 0 0) (mkTouch 20 0) (mkTouch 0 0) (mkTouch 30 0)
              1 0 0 eq_refl Rlt_0_1 eq_refl eq_refl)
    as (Hd & Ht & _); [left; simpl; lra|].
  exact (eq_trans Hd (eq_sym Ht)).
Defined.

(** X15: Two fingers that land on one point and then move apart: whatever the
    distance they move to, the scale jumps to the upper limit 3. *)
Theorem pinch_from_one_point_jumps_to_max :
  ∀ (st : PanZoom) (rect : Rect) (t0 t1 a b : Touch) (s0 : R),
    scale st = Fin s0 → 0 < s0 →
    clientX t0 = clientX t1 → clientY t0 = clientY t1 →
    apart a b →
    scale (handle (handle st (TouchStart rect [t0; t1])) (TouchMove [a; b])) = Fin 3.
Proof.
  intros st rect t0 t1 a b s0 Hs Hpos Hx Hy Hap.
  destruct (pinch_start_fields st rect t0 t1) as (Hact & Hd & Hps & _).
  set (st0 := handle st (TouchStart rect [t0; t1])) in *. clearbody st0.
  rewrite touchDistance_same in Hd by done. rewrite Hs in Hps.
  pose proof (touchDistance_apart _ _ Hap) as Hdpos.
  simpl. rewrite Hact. unfold handlePinchMove. simpl. rewrite Hd, Hps.
  change (hypot _ _) with (Fin (touchDistance a b)). simpl.
  destruct (Req_dec_T 0 0) as [_|H]; [|done].
  fold (touchDistance a b).
  destruct (Req_dec_T (touchDistance a b) 0) as [H|_]; [lra|].
  unfold inf_signed. destruct (Rlt_dec 0 (touchDistance a b)) as [_|H]; [|done]. simpl.
  destruct (Req_dec_T s0 0) as [H|_]; [lra|].
  destruct (Rlt_dec 0 s0) as [_|H]; [|done]. simpl.
  f_equal. unfold Rmax. destruct (Rle_dec 0.2 3); lra.
Qed.

(** Two fingers on (0,0), then at (0,0) and (1,0). *)
Lemma pinch_from_one_point_jumps_to_max_witness :
  scale (handle (handle initial (TouchStart window [mkTouch 0 0; mkTouch 0 0]))
                (TouchMove [mkTouch 0 0; mkTouch 1 0])) = Fin 3.
Proof.
  apply (pinch_from_one_point_jumps_to_max initial window (mkTouch 0 0) (mkTouch 0 0)
           (mkTouch 0 0) (mkTouch 1 0) 1 eq_refl Rlt_0_1 eq_refl eq_refl).
  left. simpl. lra.
Defined.

(** X16: The wheel on a controller whose scale is within [0.2, 3]: the scale
    stays within [0.2, 3]; a [deltaY] that is not positive never lowers
    it and one that is not negative never raises it; and when the scale
    comes out the same (as at a limit) the pan is left alone too. *)
Theorem wheel_direction :
  ∀ (st : PanZoom) (rect : Rect) (x y deltaY s0 : R),
    scale st = Fin s0 → 0.2 <= s0 <= 3 →
    ∃ s1,
      scale (onWheel rect x y deltaY st) = Fin s1
      ∧ 0.2 <= s1 <= 3
      ∧ (deltaY <= 0 → s0 <= s1)
      ∧ (0 <= deltaY → s1 <= s0)
      ∧ (s1 = s0 → onWheel rect x y deltaY st = st).
Proof.
  intros st rect x y deltaY s0 Hs Hr.
  unfold onWheel, zoomAt. rewrite Hs. simpl.
  set (f := Rtrigo_def.exp (- deltaY * 0.001)).
  pose proof (PanZoomFacts.clamped_in_range (s0 * f)) as Hc.
  set (s1 := Rmax 0.2 (Rmin 3 (s0 * f))) in *.
  assert (0 < f) as Hf by apply exp_pos.
  assert (deltaY <= 0 → 1 <= f) as Hup.
  { intros Hd. unfold f. rewrite <- exp_0.
    destruct (Req_dec_T deltaY 0) as [->|Hne].
    - replace (- 0 * 0.001) with 0 by ring. lra.
    - left. apply exp_increasing. lra. }
  assert (0 <= deltaY → f <= 1) as Hdown.
  { intros Hd. unfold f. rewrite <- exp_0.
    destruct (Req_dec_T deltaY 0) as [->|Hne].
    - replace (- 0 * 0.001) with 0 by ring. lra.
    - left. apply exp_increasing. lra. }
  assert ((deltaY <= 0 → s0 <= s1) ∧ (0 <= deltaY → s1 <= s0)) as [Hle Hge].
  { split; intros Hd.
    - apply Hup in Hd. unfold s1, Rmax, Rmin.
      destruct (Rle_dec 3 (s0 * f)); destruct (Rle_dec _ _); nra.
    - apply Hdown in Hd. unfold s1, Rmax, Rmin.
      destruct (Rle_dec 3 (s0 * f)); destruct (Rle_dec _ _); nra. }
  destruct (Req_dec_T s1 s0) as [Heq|Hne].
  - exists s0. rewrite Hs. rewrite Heq in Hle, Hge. repeat split; try done; lra.
  - exists s1. simpl. repeat split; try done; lra.
Qed.

(** One wheel step up on the controller as it starts. *)
Lemma wheel_direction_witness :
  ∃ s1,
    scale (onWheel window 10 20 (-100) initial) = Fin s1
    ∧ 0.2 <= s1 <= 3
    ∧ (-100 <= 0 → 1 <= s1)
    ∧ (0 <= -100 → s1 <= 1)
    ∧ (s1 = 1 → onWheel window 10 20 (-100) initial = initial).
Proof.
  apply (wheel_direction initial window 10 20 (-100) 1 eq_refl). lra.
Defined.

End PanZoomMore.

(** ** The views: markers *)

Lemma getMarkerType_cases (m t : string) :
  Views.getMarkerType m = Some t →
  t = "oml-open-arrow" ∨ t = "oml-closed-triangle" ∨ t = "oml-equivalence-triangle".
Proof.
  unfold Views.getMarkerType.
  destruct (includes m "oml-open-arrow"); [intros [= <-]; tauto|].
  destruct (includes m "oml-closed-triangle"); [intros [= <-]; tauto|].
  destruct (includes m "oml-equivalence-triangle"); [intros [= <-]; tauto | done].
Qed.

Lemma updateMarkerReference_typed (m t : string) (sel hov : bool) :
  Views.getMarkerType m = Some t →
  Views.updateMarkerReference m sel hov
  = "url(#" +:+ t
      +:+ (if sel then "-selected" else if hov then "-hover" else "") +:+ ")".
Proof.
  intros Ht. unfold Views.updateMarkerReference, Views.determineMarkerEnd. rewrite Ht.
  destruct (String.eqb_spec m
              ("url(#" +:+ t
                 +:+ (if sel then "-selected" else if hov then "-hover" else "") +:+ ")"))
    as [Heq|Hne]; simpl; [exact Heq | reflexivity].
Qed.

Lemma getMarkerType_of_reference (t : string) (sel hov : bool) :
  t = "oml-open-arrow" ∨ t = "oml-closed-triangle" ∨ t = "oml-equivalence-triangle" →
  Views.getMarkerType
    ("url(#" +:+ t +:+ (if sel then "-selected" else if hov then "-hover" else "") +:+ ")")
  = Some t
  ∧ t +:+ (if sel then "-selected" else if hov then "-hover" else "")
    ∈ Views.mc_id <$> Views.MARKER_CONFIGS.
Proof.
  intros [->|[->| ->]]; destruct sel, hov;
    (split; [vm_compute; reflexivity | apply (bool_decide_unpack _); vm_compute; reflexivity]).
Qed.

(** Updating for a state and then for another gives what updating for
    the other state alone gives. *)
Lemma updateMarkerReference_forgets :
  ∀ (currentMarkerEnd : string) (sel hov sel' hov' : bool),
    Views.updateMarkerReference (Views.updateMarkerReference currentMarkerEnd sel hov) sel' hov'
    = Views.updateMarkerReference currentMarkerEnd sel' hov'.
Proof.
  intros m sel hov sel' hov'.
  destruct (Views.getMarkerType m) as [t|] eqn:Ht.
  - pose proof (getMarkerType_cases _ _ Ht) as Hcases.
    rewrite (updateMarkerReference_typed m t sel hov Ht).
    rewrite (updateMarkerReference_typed m t sel' hov' Ht).
    apply updateMarkerReference_typed. by apply getMarkerType_of_reference.
  - assert (∀ s h, Views.updateMarkerReference m s h = m) as Hid.
    { intros s h. unfold Views.updateMarkerReference, Views.determineMarkerEnd.
      by rewrite Ht. }
    by rewrite !Hid.
Qed.

Lemma foldl_updateMarkerReference_forgets (states : list (bool * bool)) :
  ∀ (m : string) (sel hov : bool),
    Views.updateMarkerReference
      (foldl (fun m st => Views.updateMarkerReference m st.1 st.2) m states) sel hov
    = Views.updateMarkerReference m sel hov.
Proof.
  induction states as [|[sel0 hov0] states IH]; intros m sel hov; [done|].
  simpl. rewrite IH. apply updateMarkerReference_forgets.
Qed.

(** X17: Whatever the kind and marker flag of an edge and whatever it is
    selected or hovered, the marker that its line refers to, as first
    rendered and after every update of the marker references, is one of
    the markers declared in [MARKER_CONFIGS]; and it depends on the
    current state of the edge only, not on the states it went through. *)
Theorem marker_references_declared :
  ∀ (kind dataKind : option string) (hasMarker : option bool) (ref : string)
    (states : list (bool * bool)),
    Views.renderLine kind dataKind hasMarker = Some ref →
    (∃ id,
       foldl (fun m st => Views.updateMarkerReference m st.1 st.2) ref states
       = "url(#" +:+ id +:+ ")"
       ∧ id ∈ Views.mc_id <$> Views.MARKER_CONFIGS)
    ∧ ∀ sel hov,
        Views.updateMarkerReference
          (foldl (fun m st => Views.updateMarkerReference m st.1 st.2) ref states) sel hov
        = Views.updateMarkerReference ref sel hov.
Proof.
  intros kind dataKind hasMarker ref states Href.
  split; [|by apply foldl_updateMarkerReference_forgets].
  assert (∃ t (sel0 hov0 : bool),
             (t = "oml-open-arrow" ∨ t = "oml-closed-triangle"
              ∨ t = "oml-equivalence-triangle")
             ∧ ref = "url(#" +:+ t
                       +:+ (if sel0 then "-selected" else if hov0 then "-hover" else "")
                       +:+ ")") as (t & sel0 & hov0 & Ht & ->).
  { unfold Views.renderLine, Views.getMarkerId in Href.
    destruct (String.eqb _ "specialization");
      [injection Href as <-; exists "oml-closed-triangle", false, false;
       split; [right; left; reflexivity | reflexivity]|].
    destruct (String.eqb _ "equivalence" && _);
      [injection Href as <-; exists "oml-equivalence-triangle", false, false;
       split; [right; right; reflexivity | reflexivity]|].
    destruct (String.eqb _ "relation" && _);
      [injection Href as <-; exists "oml-open-arrow", false, false;
       split; [left; reflexivity | reflexivity]|done]. }
  clear Href. revert sel0 hov0.
  induction states as [|[sel hov] states IH]; intros sel0 hov0.
  - exists (t +:+ (if sel0 then "-selected" else if hov0 then "-hover" else "")).
    split; [by rewrite append_assoc|]. by apply getMarkerType_of_reference.
  - simpl. rewrite (updateMarkerReference_typed _ t)
      by (by apply getMarkerType_of_reference).
    apply IH.
Qed.

(** A relation edge that is selected and then only hovered. *)
Lemma marker_references_declared_witness :
  ∃ id,
    foldl (fun m st => Views.updateMarkerReference m st.1 st.2) "url(#oml-open-arrow)"
          [(true, false); (false, true)]
    = "url(#" +:+ id +:+ ")"
    ∧ id ∈ Views.mc_id <$> Views.MARKER_CONFIGS.
Proof.
  apply (proj1 (marker_references_declared (Some "relation") None None
                  "url(#oml-open-arrow)" [(true, false); (false, true)] eq_refl)).
Defined.


(** ** The views: label offsets of parallel edges *)

Section LabelOffsets.
Import JsMath Views.
Local Open Scope R_scope.

Lemma up_IZR (z : Z) : up (IZR z) = (z + 1)%Z.
Proof.
  symmetry. apply up_tech; [lra|]. rewrite plus_IZR. lra.
Qed.

Lemma up_half (z : Z) : up (IZR z + / 2) = (z + 1)%Z.
Proof.
  symmetry. apply up_tech; [lra|]. rewrite plus_IZR. lra.
Qed.

Lemma Rceil_IZR (z : Z) : Rceil (IZR z) = IZR z.
Proof.
  unfold Rceil. rewrite <- opp_IZR, up_IZR. f_equal. lia.
Qed.

Lemma Rfloor_IZR (z : Z) : Rfloor (IZR z) = IZR z.
Proof. unfold Rfloor. rewrite up_IZR. f_equal. lia. Qed.

Lemma Rceil_half (z : Z) : Rceil (IZR z + / 2) = IZR (z + 1).
Proof.
  unfold Rceil.
  replace (- (IZR z + / 2)) with (IZR (- z - 1) + / 2)
    by (rewrite minus_IZR, opp_IZR; lra).
  rewrite up_half. f_equal. lia.
Qed.

Lemma Rfloor_half (z : Z) : Rfloor (IZR z + / 2) = IZR z.
Proof. unfold Rfloor. rewrite up_half. f_equal. lia. Qed.

Lemma applyLabelOffset_zero (d : option num) :
  applyLabelOffset (Some (of_nat 0)) d = None.
Proof.
  unfold applyLabelOffset, of_nat. simpl.
  rewrite Rmax_left by lra. by destruct (Rlt_dec 0 0) as [H|_]; [lra|].
Qed.

Lemma applyLabelOffset_even_real (x : R) (z : Z) (d : option num) :
  x = 2 * IZR z → 1 <= IZR z →
  applyLabelOffset (Some (Fin x)) d = Some (Fin (10 * IZR z)).
Proof.
  intros -> Hz. unfold applyLabelOffset. simpl default.
  unfold max. rewrite Rmax_right by lra. unfold gt.
  destruct (Rlt_dec 0 (2 * IZR z)) as [_|H]; [|lra].
  unfold div. destruct (Req_dec_T 2 0) as [H|_]; [lra|].
  replace (2 * IZR z / 2) with (IZR z) by lra.
  unfold rem. destruct (Req_dec_T 2 0) as [H|_]; [lra|].
  replace (2 * IZR z / 2) with (IZR z) by lra.
  destruct (Rle_dec 0 (IZR z)) as [_|H]; [|lra].
  rewrite Rfloor_IZR. unfold ceil. rewrite Rceil_IZR.
  unfold strict_eq. destruct (Req_dec_T (2 * IZR z - 2 * IZR z) 0) as [_|H]; [|lra].
  simpl. do 2 f_equal. lra.
Qed.

Lemma applyLabelOffset_odd_real (x : R) (z : Z) (d : option num) :
  x = 2 * IZR z + 1 → 0 <= IZR z →
  applyLabelOffset (Some (Fin x)) d = Some (Fin (- (10 * IZR (z + 1)))).
Proof.
  intros -> Hz. unfold applyLabelOffset. simpl default.
  unfold max. rewrite Rmax_right by lra. unfold gt.
  destruct (Rlt_dec 0 (2 * IZR z + 1)) as [_|H]; [|lra].
  unfold div. destruct (Req_dec_T 2 0) as [H|_]; [lra|].
  replace ((2 * IZR z + 1) / 2) with (IZR z + / 2) by lra.
  unfold rem. destruct (Req_dec_T 2 0) as [H|_]; [lra|].
  replace ((2 * IZR z + 1) / 2) with (IZR z + / 2) by lra.
  destruct (Rle_dec 0 (IZR z + / 2)) as [_|H]; [|lra].
  rewrite Rfloor_half. unfold ceil. rewrite Rceil_half.
  unfold strict_eq. destruct (Req_dec_T (2 * IZR z + 1 - 2 * IZR z) 0) as [H|_]; [lra|].
  simpl. do 2 f_equal. lra.
Qed.

Lemma applyLabelOffset_even (m : nat) (d : option num) :
  applyLabelOffset (Some (of_nat (2 * m + 2))) d = Some (Fin (10 * INR (m + 1))).
Proof.
  rewrite (INR_IZR_INZ (m + 1)). apply applyLabelOffset_even_real.
  - rewrite <- INR_IZR_INZ, !plus_INR, mult_INR. simpl. lra.
  - apply IZR_le. lia.
Qed.

Lemma applyLabelOffset_odd (m : nat) (d : option num) :
  applyLabelOffset (Some (of_nat (2 * m + 1))) d = Some (Fin (- (10 * INR (m + 1)))).
Proof.
  assert (INR (m + 1) = IZR (Z.of_nat m + 1)) as ->.
  { rewrite plus_IZR, <- INR_IZR_INZ, plus_INR. simpl. lra. }
  apply applyLabelOffset_odd_real.
  - rewrite <- INR_IZR_INZ, !plus_INR, mult_INR. simpl. lra.
  - apply IZR_le. lia.
Qed.

Lemma nat_parity_cases (k : nat) :
  k = 0%nat ∨ (∃ m, k = (2 * m + 1)%nat) ∨ (∃ m, k = (2 * m + 2)%nat).
Proof.
  destruct (Nat.Even_or_Odd k) as [[m ->]|[m ->]].
  - destruct m as [|m]; [by left|]. right. right. exists m. lia.
  - right. left. by exists m.
Qed.

(** X18: The label of an edge with label index 0 is left where it is; the
    labels of the indices 1, 2, 3, 4, ... are moved by -10, +10, -20,
    +20, ..., so two edges with different label indices never get the
    same offset.  An index that is no number of the sequence (NaN) moves
    nothing. *)
Theorem label_offsets_alternate :
  ∀ (d : option num),
    applyLabelOffset (Some (of_nat 0)) d = None
    ∧ applyLabelOffset (Some NaN) d = None
    ∧ (∀ m : nat,
         applyLabelOffset (Some (of_nat (2 * m + 1))) d = Some (Fin (- (10 * INR (m + 1))))
         ∧ applyLabelOffset (Some (of_nat (2 * m + 2))) d = Some (Fin (10 * INR (m + 1))))
    ∧ (∀ k k' : nat,
         applyLabelOffset (Some (of_nat k)) d = applyLabelOffset (Some (of_nat k')) d →
         k = k').
Proof.
  intros d. split; [apply applyLabelOffset_zero|]. split; [reflexivity|].
  split; [intros m; split; [apply applyLabelOffset_odd | apply applyLabelOffset_even]|].
  assert (∀ m : nat, 0 < INR (m + 1)) as Hpos.
  { intros m. apply lt_0_INR. lia. }
  intros k k'.
  destruct (nat_parity_cases k) as [->|[[m ->]|[m ->]]];
    destruct (nat_parity_cases k') as [->|[[m' ->]|[m' ->]]];
    rewrite ?applyLabelOffset_zero, ?applyLabelOffset_odd, ?applyLabelOffset_even;
    try done; intros [= Heq].
  - assert (INR (m + 1) = INR (m' + 1)) as Hm by lra. apply INR_eq in Hm. lia.
  - pose proof (Hpos m). pose proof (Hpos m'). lra.
  - pose proof (Hpos m). pose proof (Hpos m'). lra.
  - assert (INR (m + 1) = INR (m' + 1)) as Hm by lra. apply INR_eq in Hm. lia.
Qed.

(** ** The views: the compartment line and the property lines of a node *)

Lemma labelY_finite (labelBounds : option Bounds) :
  ∃ y,
    match labelBounds with
    | Some b => if isFinite (b_y b) then b_y b else Fin 0
    | None => Fin 0
    end = Fin y.
Proof.
  destruct labelBounds as [[[| | |y] bh]|]; simpl; by eexists.
Qed.

Lemma labelH_finite (labelBounds : option Bounds) :
  ∃ hl,
    match labelBounds with
    | Some b =>
        if isFinite (b_height b) && gt (b_height b) (Fin 0) then b_height b
        else DEFAULT_FONT_SIZE
    | None => DEFAULT_FONT_SIZE
    end = Fin hl ∧ 0 < hl.
Proof.
  destruct labelBounds as [[by' [| | |bh]]|]; simpl;
    try (exists 13; split; [reflexivity | lra]).
  destruct (Rlt_dec 0 bh); [by exists bh | exists 13; split; [reflexivity | lra]].
Qed.

(** X19: For a node at least 20 wide and 36 high, as every synthesized node
    is, and whatever the bounds of its label (absent, not finite, of
    height zero): the compartment line is horizontal, runs from x = 10 to
    x = width - 10, and lies at a height between 26 and height - 10,
    which is also what is handed on as the start of the properties. *)
Theorem compartment_line_inside_node :
  ∀ (labelBounds : option Bounds) (w h : R),
    20 <= w → 36 <= h →
    ∃ cy,
      renderCompartmentLine labelBounds (Fin w) (Fin h)
      = (mkLine (Fin 10) (Fin cy) (Fin (w - 10)) (Fin cy), Fin cy)
      ∧ 26 <= cy <= h - 10.
Proof.
  intros labelBounds w h Hw Hh. unfold renderCompartmentLine.
  destruct (labelY_finite labelBounds) as (y & ->).
  destruct (labelH_finite labelBounds) as (hl & -> & _).
  simpl. set (cy := Rmax (10 + 16) _). exists cy. split.
  - rewrite Rmax_right by lra. reflexivity.
  - unfold cy. split.
    + etrans; [|apply Rmax_l]. lra.
    + apply Rmax_lub; [lra|]. etrans; [apply Rmin_l|]. lra.
Qed.

(** A node of the smallest synthesized size, whose label has no bounds. *)
Lemma compartment_line_inside_node_witness :
  ∃ cy,
    renderCompartmentLine None (Fin 120) (Fin 56)
    = (mkLine (Fin 10) (Fin cy) (Fin (120 - 10)) (Fin cy), Fin cy)
    ∧ 26 <= cy <= 56 - 10.
Proof.
  apply (compartment_line_inside_node None 120 56); lra.
Defined.

Lemma renderProperties_lookup (properties : list string) (cy : R) (i : nat) (p : string) :
  properties !! i = Some p →
  renderProperties properties (Fin cy) !! i = Some (Fin (cy + 6 + INR i * 16)).
Proof.
  intros Hi. unfold renderProperties. rewrite list_lookup_imap, Hi. reflexivity.
Qed.

Lemma compartmentY_value (labelBounds : option Bounds) (w h : R) :
  (renderCompartmentLine labelBounds (Fin w) (Fin h)).2
  = Fin (Rmax (10 + 16)
              (Rmin (h + - (10)) (labelTop labelBounds + labelHeight labelBounds + 6 + 16))).
Proof.
  unfold renderCompartmentLine, labelTop, labelHeight.
  destruct labelBounds as [[[| | |y] [| | |hl]]|]; simpl; try reflexivity;
    destruct (Rlt_dec 0 hl); reflexivity.
Qed.

Lemma createNode_height (n : DiagramNode) (node : SElement) :
  createNode n = Some node →
  ∃ w, el_size node
       = Some (Fin w,
               Fin (Rmax 56 ((if default [] (n_types n) is [] then 0 else 16) + 32
                             + INR (length (default [] (n_properties n))) * 16 + 8)))
       ∧ el_props node = Some (default [] (n_properties n)).
Proof.
  unfold createNode.
  destruct (String.eqb (n_kind n) "relation"); [done|].
  set (texts := filter _ _).
  assert (((fun t => of_nat (String.length t)) <$> texts)
          = of_nat <$> (String.length <$> texts)) as ->
    by (by rewrite <- list_fmap_compose).
  destruct (nodeWidth_bounds (String.length <$> texts)) as (w & Hw & _).
  rewrite Hw. intros [= <-]. exists w. simpl. split; [|done].
  by destruct (default [] (n_types n)).
Qed.

(** X20: The property lines of a synthesized node, by where its label ends.
    The view takes the top and the height of the label from its bounds,
    with 0 for a missing or non-finite top and 13 for a height that is
    missing, not finite or not positive.  When the label so taken ends no
    lower than 18 below the top of the node (34 when the node shows
    types), every property text is placed below the compartment line and
    at least 10 above the lower edge of the node, 16 below the property
    before it.  When it ends lower, the last property text is placed less
    than 10 above the lower edge of the node. *)
Theorem property_lines_inside_node :
  ∀ (n : DiagramNode) (node : SElement) (labelBounds : option Bounds),
    createNode n = Some node →
    let room := 18 + (if default [] (n_types n) is [] then 0 else 16) in
    let properties := default [] (el_props node) in
    ∃ w h cy,
      el_size node = Some (Fin w, Fin h)
      ∧ (renderCompartmentLine labelBounds (Fin w) (Fin h)).2 = Fin cy
      ∧ (∀ i p,
           properties !! i = Some p →
           renderProperties properties (Fin cy) !! i = Some (Fin (cy + 6 + 16 * INR i)))
      ∧ (labelTop labelBounds + labelHeight labelBounds <= room →
         ∀ i p,
           properties !! i = Some p →
           cy < cy + 6 + 16 * INR i <= h - 10)
      ∧ (room < labelTop labelBounds + labelHeight labelBounds →
         ∀ p,
           properties !! (length properties - 1)%nat = Some p →
           h - 10 < cy + 6 + 16 * INR (length properties - 1)).
Proof.
  intros n node labelBounds Hnode room properties.
  destruct (createNode_height n node Hnode) as (w & Hsize & Hprops).
  set (count := length (default [] (n_properties n))) in *.
  set (extra := if default [] (n_types n) is [] then 0 else 16) in *.
  assert (0 <= extra) as Hextra by (unfold extra; destruct (default [] (n_types n)); lra).
  set (h := Rmax 56 (extra + 32 + INR count * 16 + 8)) in *.
  set (bottom := labelTop labelBounds + labelHeight labelBounds) in *.
  set (cy := Rmax (10 + 16) (Rmin (h + - (10)) (bottom + 6 + 16))).
  assert (properties = default [] (n_properties n)) as Hproperties
    by (unfold properties; by rewrite Hprops).
  exists w, h, cy. split; [exact Hsize|]. split; [apply compartmentY_value|].
  assert (56 <= h) as Hh56 by apply Rmax_l.
  assert (extra + 40 + 16 * INR count <= h) as Hh by (etrans; [|apply Rmax_r]; lra).
  assert (26 <= cy) as Hc1 by (unfold cy; etrans; [|apply Rmax_l]; lra).
  split; [|split].
  - intros i p Hi.
    rewrite (renderProperties_lookup properties cy i p Hi). do 2 f_equal. lra.
  - intros Hfits i p Hi.
    rewrite Hproperties in Hi.
    pose proof (lookup_lt_Some _ _ _ Hi) as Hlt. fold count in Hlt.
    assert (INR i + 1 <= INR count) as Hi' by (rewrite <- S_INR; apply le_INR; lia).
    pose proof (pos_INR i) as Hi0.
    assert (cy <= 40 + extra) as Hc2.
    { unfold cy. apply Rmax_lub; [lra|]. etrans; [apply Rmin_r|]. unfold room in Hfits.
      fold extra in Hfits. lra. }
    split; lra.
  - intros Hlow p Hlast.
    rewrite Hproperties in Hlast |- *. fold count in Hlast |- *.
    pose proof (lookup_lt_Some _ _ _ Hlast) as Hlt. fold count in Hlt.
    assert (INR (count - 1) = INR count - 1) as ->.
    { rewrite minus_INR by lia. simpl. lra. }
    assert (1 <= INR count) as Hcount by (change 1 with (INR 1); apply le_INR; lia).
    assert (h = extra + 40 + 16 * INR count) as Hheight.
    { unfold h. rewrite Rmax_right by lra. lra. }
    unfold room in Hlow. fold extra in Hlow.
    assert (40 + extra < cy) as Hc3.
    { unfold cy. eapply Rlt_le_trans; [|apply Rmax_r].
      apply Rmin_glb_lt; lra. }
    lra.
Qed.

(** Concept A with one property, its label with bounds of [y] 10 and
    height 0: the label is taken to end at 23, the compartment line is
    drawn at 45 and the property text at 51, in a node 56 high. *)
Lemma property_lines_inside_node_witness :
  let labelBounds := Some (mkBounds (Fin 10) (Fin 0)) in
  let room := 18 + (if default [] (n_types propertyConcept) is [] then 0 else 16) in
  let properties := default [] (el_props propertyNode) in
  ∃ w h cy,
    el_size propertyNode = Some (Fin w, Fin h)
    ∧ (renderCompartmentLine labelBounds (Fin w) (Fin h)).2 = Fin cy
    ∧ (∀ i p,
         properties !! i = Some p →
         renderProperties properties (Fin cy) !! i = Some (Fin (cy + 6 + 16 * INR i)))
    ∧ (labelTop labelBounds + labelHeight labelBounds <= room →
       ∀ i p,
         properties !! i = Some p →
         cy < cy + 6 + 16 * INR i <= h - 10)
    ∧ (room < labelTop labelBounds + labelHeight labelBounds →
       ∀ p,
         properties !! (length properties - 1)%nat = Some p →
         h - 10 < cy + 6 + 16 * INR (length properties - 1)).
Proof.
  exact (property_lines_inside_node propertyConcept propertyNode
           (Some (mkBounds (Fin 10) (Fin 0))) eq_refl).
Defined.

End LabelOffsets.

(** ** The [oml/navigateToElement] request: the search through imports *)

Section ImportSearch.
Import Workspace NavigateToElementRequest.
Variable store : Store.
Variable elementId : string.

Lemma ref_lookup imp a o : ref store imp = Some (a, o) → ontologyAt store !! a = Some o.
Proof.
  unfold ref. destruct (imp_imported imp) as [b|]; [|done].
  destruct (ontologyAt store !! b) as [o'|] eqn:Hb; [|done]. by intros [= <- <-].
Qed.

Lemma namespace_known a o ns :
  ontologyAt store !! a = Some o → truthy (o_namespace o) = Some ns →
  ns ∈ namespaces store.
Proof.
  intros Ha Hns. unfold namespaces. apply elem_of_list_to_set, list_elem_of_omap.
  exists (a, o). split; [by apply elem_of_map_to_list | done].
Qed.

Lemma findImportedOntologyLoop_total fuel :
  ∀ docRoot (visited : gset string),
    size (namespaces store ∖ visited) < fuel →
    ∃ r v, findImportedOntologyLoop fuel store elementId docRoot visited = Some (r, v)
           ∧ visited ⊆ v.
Proof.
  induction fuel as [|fuel IH]; intros docRoot visited Hfuel; [lia|].
  simpl. generalize (default [] (o_ownedImports docRoot)). intros imps.
  revert visited Hfuel. induction imps as [|imp rest IHrest]; intros visited Hfuel.
  - by exists None, visited.
  - destruct (ref store imp) as [[a imported]|] eqn:Href; [|by apply IHrest].
    destruct (truthy (o_namespace imported)) as [ns|] eqn:Hns; [|by apply IHrest].
    case_bool_decide as Hvis; [by apply IHrest|].
    destruct (String.eqb ns elementId).
    { eexists _, _. split; [reflexivity|]. apply union_subseteq_r. }
    pose proof (namespace_known _ _ _ (ref_lookup _ _ _ Href) Hns) as Hknown.
    assert (namespaces store ∖ ({[ns]} ∪ visited) ⊂ namespaces store ∖ visited) as Hless.
    { split.
      - apply difference_mono_l, union_subseteq_r.
      - intros Hsub. specialize (Hsub ns).
        assert (ns ∈ namespaces store ∖ visited) as Hin by (by apply elem_of_difference).
        apply Hsub, elem_of_difference in Hin as [_ Hout].
        apply Hout, elem_of_union_l, elem_of_singleton. reflexivity. }
    apply subset_size in Hless.
    destruct (IH imported ({[ns]} ∪ visited)) as (r & v & -> & Hv); [lia|].
    assert (visited ⊆ v) as Hvv by (etrans; [apply union_subseteq_r | exact Hv]).
    destruct r as [found|].
    + eexists _, _. split; [reflexivity | exact Hvv].
    + destruct (IHrest v) as (r' & v' & Hr' & Hv').
      { assert (namespaces store ∖ v ⊆ namespaces store ∖ visited) as Hsub
          by (by apply difference_mono_l).
        apply subseteq_size in Hsub. lia. }
      exists r', v'. split; [exact Hr' | by etrans].
Qed.

Lemma reachable_through (root o1 : Ontology) a1 ns1 a o ns :
  importsNamed store root a1 o1 ns1 →
  reachable store o1 a o ns →
  reachable store root a o ns.
Proof.
  intros H1 Hr. induction Hr as [a o ns Himp | a o ns a' o' ns' _ IH Himp].
  - eapply reach_step; [by apply reach_import | exact Himp].
  - eapply reach_step; [exact IH | exact Himp].
Qed.

Lemma findImportedOntologyLoop_sound fuel :
  ∀ docRoot (visited : gset string) a v,
    findImportedOntologyLoop fuel store elementId docRoot visited = Some (Some a, v) →
    ∃ o, reachable store docRoot a o elementId.
Proof.
  induction fuel as [|fuel IH]; intros docRoot visited a v; [done|].
  simpl.
  assert (∀ imp, imp ∈ default [] (o_ownedImports docRoot)
                 → imp ∈ default [] (o_ownedImports docRoot)) as Hin by done.
  revert Hin. generalize (default [] (o_ownedImports docRoot)) at 1 3. intros imps.
  revert visited. induction imps as [|imp rest IHrest]; intros visited Hin; [done|].
  assert (∀ imp', imp' ∈ rest → imp' ∈ default [] (o_ownedImports docRoot)) as Hrest.
  { intros imp' H'. apply Hin. by right. }
  destruct (ref store imp) as [[a1 imported]|] eqn:Href; [|by apply IHrest].
  destruct (truthy (o_namespace imported)) as [ns|] eqn:Hns; [|by apply IHrest].
  case_bool_decide as Hvis; [by apply IHrest|].
  assert (importsNamed store docRoot a1 imported ns) as Himp.
  { exists imp. split; [apply Hin; by left | done]. }
  destruct (String.eqb_spec ns elementId) as [->|Hne].
  { intros [= <- _]. exists imported. by apply reach_import. }
  destruct (findImportedOntologyLoop fuel store elementId imported ({[ns]} ∪ visited))
    as [[[found|] v1]|] eqn:Hrec; [| |done].
  - intros [= <- _]. destruct (IH _ _ _ _ Hrec) as [o Ho].
    exists o. by eapply reachable_through.
  - by apply IHrest.
Qed.

Lemma findImportedOntologyLoop_none fuel :
  uniqueNamespaces store →
  ∀ docRoot (visited v : gset string),
    findImportedOntologyLoop fuel store elementId docRoot visited = Some (None, v) →
    visited ⊆ v
    ∧ (elementId ∈ v → elementId ∈ visited)
    ∧ closedOver store visited v
    ∧ (∀ a' o' n', importsNamed store docRoot a' o' n' → n' ∈ v).
Proof.
  intros Huniq. induction fuel as [|fuel IH]; intros docRoot visited v; [done|].
  simpl. intros Hloop.
  cut (visited ⊆ v
       ∧ (elementId ∈ v → elementId ∈ visited)
       ∧ closedOver store visited v
       ∧ (∀ imp a' o' n', imp ∈ default [] (o_ownedImports docRoot) →
                          ref store imp = Some (a', o') →
                          truthy (o_namespace o') = Some n' → n' ∈ v)).
  { intros (H1 & H2 & H3 & H4). repeat split; try done.
    intros a' o' n' (imp & Hin & Href & Hns). by eapply H4. }
  revert Hloop. generalize (default [] (o_ownedImports docRoot)). intros imps.
  revert visited. induction imps as [|imp rest IHrest]; intros visited Hloop.
  - injection Hloop as <-. repeat split; try done.
    + intros a o n _ _ Hn Hn'. done.
    + intros imp a' o' n' Hin. by apply elem_of_nil in Hin.
  - assert (∀ visited',
              visited ⊆ visited' →
              (∀ a' o' n', ref store imp = Some (a', o') →
                           truthy (o_namespace o') = Some n' → n' ∈ visited') →
              (elementId ∈ visited' → elementId ∈ visited) →
              closedOver store visited visited' →
              (fix for_imports (imps : list Import) (visited : gset string)
                 : option (option nat * gset string) :=
                 match imps with
                 | [] => Some (None, visited)
                 | imp :: rest =>
                     match ref store imp with
                     | None => for_imports rest visited
                     | Some (a, imported) =>
                         match truthy (o_namespace imported) with
                         | None => for_imports rest visited
                         | Some ns =>
                             if bool_decide (ns ∈ visited) then for_imports rest visited
                             else
                               let visited := {[ns]} ∪ visited in
                               if String.eqb ns elementId then Some (Some a, visited)
                               else
                                 match findImportedOntologyLoop fuel store elementId
                                         imported visited
                                 with
                                 | None => None
                                 | Some (Some found, visited) => Some (Some found, visited)
                                 | Some (None, visited) => for_imports rest visited
                                 end
                         end
                     end
                 end) rest visited' = Some (None, v) →
              visited ⊆ v
              ∧ (elementId ∈ v → elementId ∈ visited)
              ∧ closedOver store visited v
              ∧ (∀ imp0 a' o' n', imp0 ∈ imp :: rest →
                                  ref store imp0 = Some (a', o') →
                                  truthy (o_namespace o') = Some n' → n' ∈ v)) as Hnext.
    { intros visited' Hsub Himp Hel Hclosed Hrest.
      destruct (IHrest visited' Hrest) as (H1 & H2 & H3 & H4).
      split; [by etrans|]. split; [tauto|]. split.
      - intros a o n Ha Hn Hnv Hn0 a' o' n' Himp'.
        destruct (decide (n ∈ visited')) as [Hin|Hout].
        + apply H1. by eapply (Hclosed a o n).
        + by eapply (H3 a o n).
      - intros imp0 a' o' n' [->|Hin]%elem_of_cons Href Hns.
        + apply H1. by eapply Himp.
        + by eapply H4. }
    assert (closedOver store visited visited) as Hrefl.
    { intros a o n _ _ Hn Hn'. done. }
    destruct (ref store imp) as [[a1 imported]|] eqn:Href.
    2:{ apply (Hnext visited); [done | | done | done | exact Hloop].
        intros a' o' n' [=]. }
    destruct (truthy (o_namespace imported)) as [ns|] eqn:Hns.
    2:{ apply (Hnext visited); [done | | done | done | exact Hloop].
        intros a' o' n' [= <- <-] Hn'. congruence. }
    revert Hloop. case_bool_decide as Hvis.
    { intros Hloop. apply (Hnext visited); [done | | done | done | exact Hloop].
      intros a' o' n' [= <- <-] Hn'. congruence. }
    destruct (String.eqb_spec ns elementId) as [->|Hne]; [done|].
    destruct (findImportedOntologyLoop fuel store elementId imported ({[ns]} ∪ visited))
      as [[[found|] v1]|] eqn:Hrec; [done| |done].
    intros Hloop.
    destruct (IH _ _ _ Hrec) as (R1 & R2 & R3 & R4).
    apply (Hnext v1); [| | | | exact Hloop].
    + etrans; [|exact R1]. apply union_subseteq_r.
    + intros a' o' n' [= <- <-] Hn'. rewrite Hns in Hn'. injection Hn' as <-.
      apply R1, elem_of_union_l, elem_of_singleton. reflexivity.
    + intros Hel. apply R2 in Hel.
      apply elem_of_union in Hel as [Hel%elem_of_singleton|Hel]; [congruence | done].
    + intros a o n Ha Hn Hnv Hn0 a' o' n' Himp'.
      destruct (decide (n = ns)) as [->|Hnns].
      * assert (o = imported) as ->
          by (eapply Huniq; [exact Ha | eapply ref_lookup, Href | exact Hn | exact Hns]).
        by eapply R4.
      * eapply (R3 a o n); [done | done | done | | exact Himp'].
        intros [Hs%elem_of_singleton|Hv]%elem_of_union; [congruence | done].
Qed.

Lemma closed_reachable (root : Ontology) (v : gset string) :
  closedOver store ∅ v →
  (∀ a' o' n', importsNamed store root a' o' n' → n' ∈ v) →
  ∀ a o ns, reachable store root a o ns → ns ∈ v.
Proof.
  intros Hclosed Hroot a o ns Hr.
  induction Hr as [a o ns Himp | a o ns a' o' ns' Hr IH Himp]; [by eapply Hroot|].
  assert (ontologyAt store !! a = Some o ∧ truthy (o_namespace o) = Some ns) as [Ha Hns].
  { clear IH Himp. destruct Hr as [a o ns (imp & _ & Href & Hns) | a0 o0 ns0 a o ns _ (imp & _ & Href & Hns)];
      eauto using ref_lookup. }
  eapply (Hclosed a o ns); try done.
Qed.

End ImportSearch.

(** X21: The search for an imported ontology by namespace ends, also when the
    imports form cycles: it goes no deeper than the store has namespaces.
    An ontology it finds has the namespace asked for and is reached from
    the root through imports.  When no two ontologies share a namespace,
    it finds nothing only if no ontology reached from the root through
    imports of ontologies with namespaces has the namespace asked for. *)
Theorem findImportedOntology_finds :
  ∀ (store : Workspace.Store) (elementId : string) (root : Workspace.Ontology),
    (∃ found visited,
       NavigateToElementRequest.findImportedOntologyLoop
         (S (size (NavigateToElementRequest.namespaces store))) store elementId root ∅
       = Some (found, visited))
    ∧ (∀ a, NavigateToElementRequest.findImportedOntology store elementId root = Some a →
            ∃ o, reachable store root a o elementId)
    ∧ (uniqueNamespaces store →
       NavigateToElementRequest.findImportedOntology store elementId root = None →
       ∀ a o, ¬ reachable store root a o elementId).
Proof.
  intros store elementId root.
  destruct (findImportedOntologyLoop_total store elementId
              (S (size (NavigateToElementRequest.namespaces store))) root ∅)
    as (r & v & Hloop & _).
  { assert (NavigateToElementRequest.namespaces store ∖ ∅
            ⊆ NavigateToElementRequest.namespaces store) as Hsub
      by (by apply subseteq_difference_l).
    apply subseteq_size in Hsub. lia. }
  split; [by exists r, v|].
  unfold NavigateToElementRequest.findImportedOntology. rewrite Hloop. split.
  - intros a ->. by eapply findImportedOntologyLoop_sound.
  - intros Huniq -> a o Hr.
    destruct (findImportedOntologyLoop_none store elementId _ Huniq _ _ _ Hloop)
      as (_ & Hel & Hclosed & Hroot).
    pose proof (closed_reachable store root v Hclosed Hroot a o elementId Hr) as Hin.
    apply Hel in Hin. exact (not_elem_of_empty _ Hin).
Qed.

(** Two ontologies that import each other: the search for a namespace
    that none of them has comes back with nothing. *)
Lemma findImportedOntology_finds_witness :
  ¬ reachable cyclicStore cyclicRoot 1 cyclicImported "http://example.org/none#".
Proof.
  apply (proj2 (proj2 (findImportedOntology_finds cyclicStore "http://example.org/none#"
                         cyclicRoot))).
  - assert (∀ a o, Workspace.ontologyAt cyclicStore !! a = Some o →
                   o = cyclicRoot ∨ o = cyclicImported) as Hcases.
    { intros a o H. unfold cyclicStore in H. simpl in H.
      apply lookup_insert_Some in H as [[_ <-]|[_ H]]; [by left|].
      apply lookup_insert_Some in H as [[_ <-]|[_ H]]; [by right|].
      by rewrite lookup_empty in H. }
    intros a b o o' ns Ha Hb Hns Hns'.
    destruct (Hcases _ _ Ha) as [-> | ->]; destruct (Hcases _ _ Hb) as [-> | ->];
      try reflexivity; vm_compute in Hns, Hns'; congruence.
  - vm_compute. reflexivity.
Defined.

(** ** The [oml/navigateToElement] request: members and failures *)

Lemma includes_colon_cons (c : ascii) (s : string) :
  includes (String c s) ":" = Ascii.eqb ":" c || includes s ":".
Proof.
  change (includes (String c s) ":")
    with ((if Ascii.eqb ":" c then startsWith s "" else false) || includes s ":").
  destruct (Ascii.eqb ":" c); [by destruct s | done].
Qed.

Lemma split_no_colon (s : string) :
  includes s ":" = false → NavigateToElementRequest.split ":" s = [s].
Proof.
  induction s as [|c s IH]; [done|]. rewrite includes_colon_cons.
  intros [Hc Hs]%orb_false_iff. simpl.
  rewrite Ascii.eqb_sym, Hc. by rewrite (IH Hs).
Qed.

Lemma split_qualified (prefix name : string) :
  includes prefix ":" = false → includes name ":" = false →
  NavigateToElementRequest.split ":" (prefix +:+ ":" +:+ name) = [prefix; name]
  ∧ includes (prefix +:+ ":" +:+ name) ":" = true.
Proof.
  intros Hp Hn. induction prefix as [|c p IH].
  - rewrite append_nil_l, append_cons, append_nil_l. simpl.
    by rewrite (split_no_colon name Hn).
  - rewrite includes_colon_cons in Hp. apply orb_false_iff in Hp as [Hc Hp].
    destruct (IH Hp) as [IH1 IH2].
    rewrite append_cons. split.
    + simpl. rewrite Ascii.eqb_sym, Hc. by rewrite IH1.
    + rewrite includes_colon_cons, IH2. apply orb_true_r.
Qed.

Lemma findImportedDocument_first (store : Workspace.Store) (prefix : string)
    (before after : list Workspace.Import) (imp : Workspace.Import)
    (a d : nat) (importedOntology : Workspace.Ontology) (importedDoc : Workspace.Document) :
  Forall (fun i => Workspace.imp_prefix i ≠ Some prefix) before →
  Workspace.imp_prefix imp = Some prefix →
  Workspace.ref store imp = Some (a, importedOntology) →
  Workspace.o_document importedOntology = Some d →
  Workspace.documentAt store !! d = Some importedDoc →
  NavigateToElementRequest.findImportedDocument store (Some prefix) (before ++ imp :: after)
  = Some importedDoc.
Proof.
  intros Hbefore Hp Href Hd Hdoc. induction Hbefore as [|i before Hi _ IH]; simpl.
  - rewrite bool_decide_true by done. by rewrite Href, Hd, Hdoc.
  - by rewrite bool_decide_false.
Qed.

Lemma findMember_first (name : string) (uri : string) (positionAt : nat → Workspace.Position)
    (before after : list Workspace.Statement) (stmt : Workspace.Statement)
    (cstNode : Workspace.CstNode) :
  Forall (fun s => Workspace.st_name s ≠ Some name) before →
  Workspace.st_name stmt = Some name →
  Workspace.st_cstNode stmt = Some cstNode →
  NavigateToElementRequest.findMember (Some name) uri (Some positionAt)
    (before ++ stmt :: after)
  = Some (NavigateToElementRequest.locationOf uri positionAt cstNode).
Proof.
  intros Hbefore Hn Hc. induction Hbefore as [|s before Hs _ IH]; simpl.
  - rewrite bool_decide_true by done. by rewrite Hc.
  - by rewrite bool_decide_false.
Qed.

(** X22: A member of an imported ontology.  When the identifier asked for does
    not look like a namespace and decodes to [prefix:name] (as
    [base:Named2] does, which decodes to itself, and [b:Thing-edge2],
    which decodes to [b:Thing]), the root of the document has an import
    with that prefix (the first with it) whose ontology has a document,
    and that document has a statement of that name with a syntax node (the
    first of that name), the request answers with the uri of the imported
    document and the start and end of that node, the lines counted from 1.
    The range that the extension selects for this answer is exactly the
    range of the syntax node. *)
Theorem navigate_imported_member :
  ∀ {E} (getOrCreateDocument : string → completion E (option nat))
    (store : Workspace.Store) (uri elementId prefix name : string)
    (d a : nat) (document : Workspace.Document) (root : Workspace.Ontology)
    (before after : list Workspace.Import) (imp : Workspace.Import)
    (a' d' : nat) (importedOntology : Workspace.Ontology) (importedDoc : Workspace.Document)
    (positionAt : nat → Workspace.Position)
    (sbefore safter : list Workspace.Statement) (stmt : Workspace.Statement)
    (cstNode : Workspace.CstNode),
    getOrCreateDocument uri = Normal (Some d) →
    Workspace.documentAt store !! d = Some document →
    Workspace.d_value document = Some a →
    Workspace.ontologyAt store !! a = Some root →
    includes prefix ":" = false → includes name ":" = false →
    NavigateToElement.looksLikeNamespace elementId = false →
    NavigateToElement.decodeMemberName elementId = Some (prefix +:+ ":" +:+ name) →
    Workspace.o_ownedImports root = Some (before ++ imp :: after) →
    Forall (fun i => Workspace.imp_prefix i ≠ Some prefix) before →
    Workspace.imp_prefix imp = Some prefix →
    Workspace.ref store imp = Some (a', importedOntology) →
    Workspace.o_document importedOntology = Some d' →
    Workspace.documentAt store !! d' = Some importedDoc →
    Workspace.d_textDocument importedDoc = Some positionAt →
    NavigateToElementRequest.statementsOf store importedDoc = sbefore ++ stmt :: safter →
    Forall (fun s => Workspace.st_name s ≠ Some name) sbefore →
    Workspace.st_name stmt = Some name →
    Workspace.st_cstNode stmt = Some cstNode →
    ∃ answer,
      NavigateToElementRequest.onRequest getOrCreateDocument store uri elementId
      = Normal (Some answer)
      ∧ NavigateToElementRequest.loc_uri answer = Workspace.d_uri importedDoc
      ∧ NavigateToElementRequest.startLine answer
        = Workspace.line (positionAt (Workspace.cst_offset cstNode)) + 1
      ∧ NavigateToElementRequest.startColumn answer
        = Workspace.character (positionAt (Workspace.cst_offset cstNode))
      ∧ (Extension.selectionFor uri answer).1.2
        = positionAt (Workspace.cst_offset cstNode)
      ∧ (Extension.selectionFor uri answer).2
        = positionAt (Workspace.cst_offset cstNode + Workspace.cst_length cstNode).
Proof.
  intros E getDoc store uri elementId prefix name d a document root before after imp a' d'
    importedOntology importedDoc positionAt sbefore safter stmt cstNode
    Hget Hdoc Hval Hroot Hp Hn Hns Hdecode Himps Hbefore Hprefix Href Hd' Hdoc' Htd
    Hstmts Hsbefore Hname Hcst.
  destruct (split_qualified prefix name Hp Hn) as [Hsplit Hincl].
  exists (NavigateToElementRequest.locationOf (Workspace.d_uri importedDoc) positionAt cstNode).
  split.
  - unfold NavigateToElementRequest.onRequest, NavigateToElementRequest.tryBlock.
    rewrite Hget, Hdoc, Hval, Hroot.
    unfold NavigateToElementRequest.byNamespace. rewrite Hns.
    rewrite Hdecode.
    unfold NavigateToElementRequest.byMemberName.
    rewrite Hincl, Hsplit, Himps. simpl.
    rewrite (findImportedDocument_first store prefix before after imp a' d'
               importedOntology importedDoc Hbefore Hprefix Href Hd' Hdoc').
    rewrite Htd, Hstmts.
    by rewrite (findMember_first name _ positionAt sbefore safter stmt cstNode
                  Hsbefore Hname Hcst).
  - unfold Extension.selectionFor, NavigateToElementRequest.locationOf. simpl.
    rewrite !Nat.add_sub. repeat split; try done.
    + by destruct (positionAt (Workspace.cst_offset cstNode)).
    + by destruct (positionAt (Workspace.cst_offset cstNode + Workspace.cst_length cstNode)).
Qed.

(** From document a of the two that import each other: the second edge
    of a relation entity [b:Thing]. *)
Lemma navigate_imported_member_witness :
  ∃ answer,
    NavigateToElementRequest.onRequest (E := unit) (fun _ => Normal (Some 0))
      cyclicStore "file:///a.oml" "b:Thing-edge2"
    = Normal (Some answer)
    ∧ NavigateToElementRequest.loc_uri answer = "file:///b.oml"
    ∧ NavigateToElementRequest.startLine answer = Workspace.line (tenPerLine 20) + 1
    ∧ NavigateToElementRequest.startColumn answer = Workspace.character (tenPerLine 20)
    ∧ (Extension.selectionFor "file:///a.oml" answer).1.2 = tenPerLine 20
    ∧ (Extension.selectionFor "file:///a.oml" answer).2 = tenPerLine (20 + 7).
Proof.
  apply (navigate_imported_member (E := unit) (fun _ => Normal (Some 0))
           cyclicStore "file:///a.oml" "b:Thing-edge2" "b" "Thing" 0 0
           (Workspace.mkDocument "file:///a.oml" (Some 0) (Some tenPerLine)) cyclicRoot
           [] [] (Workspace.mkImport (Some "b") (Some 1)) 1 1 cyclicImported
           (Workspace.mkDocument "file:///b.oml" (Some 1) (Some tenPerLine))
           tenPerLine [] []
           (Workspace.mkStatement (Some "Thing") (Some (Workspace.mkCstNode 20 7)) false None)
           (Workspace.mkCstNode 20 7));
    try reflexivity; by constructor.
Defined.

(** X23: The request never ends in an error.  It answers null when the
    document service throws or knows no such document, and when the
    decoding step leaves the member name undefined (an identifier that
    one of the four bracket patterns matches), where the handler fails on
    reading a property of undefined and the catch answers null. *)
Theorem navigate_fails_soft :
  ∀ {E} (getOrCreateDocument : string → completion E (option nat))
    (store : Workspace.Store) (uri elementId : string),
    ∃ answer,
      NavigateToElementRequest.onRequest getOrCreateDocument store uri elementId
      = Normal answer
      ∧ match getOrCreateDocument uri with
        | Throw _ | Normal None => answer = None
        | Normal (Some d) =>
            match Workspace.documentAt store !! d with
            | None => answer = None
            | Some document =>
                NavigateToElement.looksLikeNamespace elementId = false →
                NavigateToElement.decodeMemberName elementId = None →
                answer = None
            end
        end.
Proof.
  intros E getDoc store uri elementId.
  unfold NavigateToElementRequest.onRequest, NavigateToElementRequest.tryBlock.
  destruct (getDoc uri) as [[d|]|e]; simpl; [|by eexists..].
  destruct (Workspace.documentAt store !! d) as [document|]; simpl; [|by eexists].
  destruct (Workspace.d_value document) as [a|]; simpl; [|by eexists].
  destruct (Workspace.ontologyAt store !! a) as [root|]; simpl; [|by eexists].
  unfold NavigateToElementRequest.byNamespace.
  destruct (NavigateToElement.looksLikeNamespace elementId).
  - destruct (NavigateToElementRequest.findOntologyStatement _ _ _ _);
      [eexists; split; [reflexivity | done]|].
    match goal with
    | |- context [match ?x with Some location => Normal (Some location) | None => _ end] =>
        destruct x
    end; [eexists; split; [reflexivity | done]|].
    destruct (NavigateToElement.decodeMemberName elementId); simpl;
      eexists; split; try reflexivity; done.
  - destruct (NavigateToElement.decodeMemberName elementId); simpl.
    + eexists; split; [reflexivity | done].
    + exists None. split; [reflexivity | done].
Qed.

(** ** The extension: debounced diagram updates *)

Section Debounce.
Import DiagramUpdates.

Lemma recorded_remove m t u h :
  recorded m t → m !! u = Some h → recorded (delete u m) (delete h t).
Proof.
  intros [H1 H2] Hu. split.
  - intros h' u' due [Hne Ht]%lookup_delete_Some.
    pose proof (H1 _ _ _ Ht) as Hm.
    apply lookup_delete_Some. split; [|done]. intros ->. congruence.
  - intros u' h' [Hne Hm]%lookup_delete_Some.
    destruct (H2 _ _ Hm) as [due Ht]. exists due.
    apply lookup_delete_Some. split; [|done]. intros ->.
    destruct (H2 _ _ Hu) as [due' Ht']. congruence.
Qed.

Lemma recorded_add m t u h due :
  recorded m t → m !! u = None → t !! h = None →
  recorded (<[u := h]> m) (<[h := (u, due)]> t).
Proof.
  intros [H1 H2] Hu Hh. split.
  - intros h' u' due' [[<- [= <- <-]]|[Hne Ht]]%lookup_insert_Some.
    + by rewrite lookup_insert_eq.
    + pose proof (H1 _ _ _ Ht) as Hm.
      rewrite lookup_insert_ne; [done|]. intros ->. congruence.
  - intros u' h' [[<- <-]|[Hne Hm]]%lookup_insert_Some.
    + exists due. by rewrite lookup_insert_eq.
    + destruct (H2 _ _ Hm) as [due' Ht]. exists due'.
      rewrite lookup_insert_ne; [done|]. intros ->. congruence.
Qed.

Lemma consistent_truthy st u :
  consistent st → truthyHandle (updateTimeouts st !! u) = updateTimeouts st !! u.
Proof.
  intros ([_ H2] & _ & Hpos). destruct (updateTimeouts st !! u) as [[|h]|] eqn:Hu; try done.
  destruct (H2 _ _ Hu) as [due Ht]. apply Hpos in Ht. lia.
Qed.

(** The state after [existing] is cleared, when there is one: no timer
    is set for [u] and none is recorded. *)
Lemma cancel_consistent st u :
  consistent st →
  let m := delete u (updateTimeouts st) in
  let t := match updateTimeouts st !! u with
           | Some h => delete h (timers st)
           | None => timers st
           end in
  recorded m t ∧ m !! u = None
  ∧ (∀ h x, t !! h = Some x → timers st !! h = Some x ∧ x.1 ≠ u).
Proof.
  intros (Hrec & _ & _). simpl.
  destruct (updateTimeouts st !! u) as [h|] eqn:Hu.
  - split; [by apply recorded_remove|]. split; [by rewrite lookup_delete_eq|].
    intros h' [u' due] [Hne Ht]%lookup_delete_Some. split; [done|]. simpl. intros ->.
    destruct Hrec as [H1 _]. apply H1 in Ht. congruence.
  - rewrite delete_id by done. split; [done|]. split; [done|].
    intros h' [u' due] Ht. split; [done|]. simpl. intros ->.
    destruct Hrec as [H1 _]. apply H1 in Ht. congruence.
Qed.

Lemma handle_consistent st ev : consistent st → consistent (handle st ev).
Proof.
  intros Hst. pose proof Hst as (Hrec & Hnext & Hpos).
  destruct ev as [lang u|lang u|ms|h]; simpl.
  - unfold onDidChangeTextDocument. destruct (String.eqb lang "oml"); [|done]. simpl.
    rewrite (consistent_truthy st u Hst).
    destruct (cancel_consistent st u Hst) as (Hrec' & Hnone & Hsub).
    assert (∀ t0 : gmap nat (string * nat),
              (∀ h x, t0 !! h = Some x → timers st !! h = Some x) →
              recorded (delete u (updateTimeouts st)) t0 →
              consistent
                (setUpdateTimeouts (<[u := nextHandle st]> (updateTimeouts st))
                   (mkState (updateTimeouts st)
                      (<[nextHandle st := (u, now st + 300)]> t0)
                      (S (nextHandle st)) (now st) (requested st)))) as Hgoal.
    { intros t0 Hsub0 Hrec0. unfold consistent. simpl.
      assert (t0 !! nextHandle st = None) as Hfresh.
      { destruct (t0 !! nextHandle st) as [x|] eqn:Hx; [|done].
        apply Hsub0, Hpos in Hx. lia. }
      split; [|split; [lia|]].
      - rewrite <- insert_delete_eq. apply recorded_add; [done | | done].
        by rewrite lookup_delete_eq.
      - intros h x [[<- _]|[_ Hx]]%lookup_insert_Some; [lia|].
        apply Hsub0, Hpos in Hx. lia. }
    destruct (updateTimeouts st !! u) as [h|] eqn:Hu; simpl.
    + apply Hgoal; [|done]. intros h' x Hx. by apply Hsub in Hx as [? _].
    + apply Hgoal; [done | done].
  - unfold onDidSaveTextDocument. destruct (String.eqb lang "oml"); [|done]. simpl.
    rewrite (consistent_truthy st u Hst).
    destruct (cancel_consistent st u Hst) as (Hrec' & Hnone & Hsub).
    destruct (updateTimeouts st !! u) as [h|] eqn:Hu; simpl; [|done].
    unfold consistent. simpl. split; [done|]. split; [done|].
    intros h' x Hx. apply Hsub in Hx as [Hx _]. by apply Hpos in Hx.
  - done.
  - unfold onTimeout. destruct (timers st !! h) as [[u due]|] eqn:Ht; [|done].
    destruct (due <=? now st); [|done].
    destruct Hrec as [H1 H2]. pose proof (H1 _ _ _ Ht) as Hu.
    unfold consistent. simpl. split; [by apply recorded_remove|]. split; [done|].
    intros h' x [_ Hx]%lookup_delete_Some. by apply Hpos in Hx.
Qed.

Lemma after_snoc evs ev : after (evs ++ [ev]) = handle (after evs) ev.
Proof. unfold after. by rewrite foldl_app. Qed.

Lemma after_consistent evs : consistent (after evs).
Proof.
  induction evs as [|ev evs IH] using rev_ind.
  - unfold consistent, recorded. simpl. split; [split|split; [lia|]].
    + intros h u due H. by rewrite lookup_empty in H.
    + intros u h H. by rewrite lookup_empty in H.
    + intros h x H. by rewrite lookup_empty in H.
  - rewrite after_snoc. by apply handle_consistent.
Qed.

Lemma pendingFor_recorded st u :
  consistent st →
  pendingFor u st = match updateTimeouts st !! u with
                    | Some h => {[h]}
                    | None => ∅
                    end.
Proof.
  intros ([H1 H2] & _ & _). apply set_eq. intros h. unfold pendingFor.
  rewrite elem_of_dom. split.
  - intros [[u' due] [Ht Hu]%map_lookup_filter_Some]. simpl in Hu. subst u'.
    rewrite (H1 _ _ _ Ht). by apply elem_of_singleton.
  - destruct (updateTimeouts st !! u) as [h'|] eqn:Hu; [|by intros ?%not_elem_of_empty].
    intros ->%elem_of_singleton. destruct (H2 _ _ Hu) as [due Ht].
    exists (u, due). by apply map_lookup_filter_Some.
Qed.

(** X24: However the changes, saves and timeouts of documents interleave, at
    most one update is pending for a document: the timers that are set
    for it are exactly the one recorded in [updateTimeouts], if any. *)
Theorem one_pending_update_per_document :
  ∀ (evs : list Event) (uri : string),
    pendingFor uri (after evs)
    = match updateTimeouts (after evs) !! uri with
      | Some h => {[h]}
      | None => ∅
      end
    ∧ size (pendingFor uri (after evs)) ≤ 1.
Proof.
  intros evs uri. pose proof (pendingFor_recorded _ uri (after_consistent evs)) as Hp.
  split; [exact Hp|]. rewrite Hp.
  destruct (updateTimeouts (after evs) !! uri); [rewrite size_singleton; lia|].
  rewrite size_empty. lia.
Qed.

Lemma elapsed_app evs evs' : elapsed (evs ++ evs') = elapsed evs + elapsed evs'.
Proof.
  induction evs as [|ev evs IH]; [done|]. simpl. rewrite IH. destruct ev; lia.
Qed.

Lemma timed_keep evs st ev (t' : gmap nat (string * nat)) :
  timed evs st →
  (∀ h u due, t' !! h = Some (u, due) →
              timers st !! h = Some (u, due)
              ∧ ev ≠ Change "oml" u ∧ ev ≠ Save "oml" u) →
  ∀ h u due, t' !! h = Some (u, due) →
             ∃ evs1 evs2, evs ++ [ev] = evs1 ++ Change "oml" u :: evs2
                          ∧ due = elapsed evs1 + 300
                          ∧ quiet u evs2.
Proof.
  intros [_ Hst] Hsub h u due Ht.
  destruct (Hsub _ _ _ Ht) as (Ht0 & Hc & Hs).
  destruct (Hst _ _ _ Ht0) as (evs1 & evs2 & -> & Hdue & Hq).
  exists evs1, (evs2 ++ [ev]). split; [by rewrite <- app_assoc|]. split; [done|].
  apply Forall_app. split; [done|]. by constructor.
Qed.

Lemma handle_timed evs st ev :
  consistent st → timed evs st → timed (evs ++ [ev]) (handle st ev).
Proof.
  intros Hst Htimed. pose proof Htimed as [Hnow Hhist].
  pose proof Hst as ([H1 H2] & Hnext & Hpos).
  destruct ev as [lang u|lang u|ms|h]; simpl.
  - unfold onDidChangeTextDocument.
    destruct (String.eqb_spec lang "oml") as [->|Hlang]; simpl.
    2:{ split; [rewrite elapsed_app; simpl; lia|].
        apply (timed_keep evs st _ (timers st) Htimed).
        intros h' u' due' Ht. split; [done|]. split; congruence. }
    rewrite (consistent_truthy st u Hst).
    destruct (cancel_consistent st u Hst) as (_ & _ & Hsub).
    assert (∀ t0 : gmap nat (string * nat),
              (∀ h x, t0 !! h = Some x → timers st !! h = Some x ∧ x.1 ≠ u) →
              timed (evs ++ [Change "oml" u])
                (setUpdateTimeouts (<[u := nextHandle st]> (updateTimeouts st))
                   (mkState (updateTimeouts st)
                      (<[nextHandle st := (u, now st + 300)]> t0)
                      (S (nextHandle st)) (now st) (requested st)))) as Hgoal.
    { intros t0 Hsub0. split; [simpl; rewrite elapsed_app; simpl; lia|]. simpl.
      intros h' u' due' [[<- [= <- <-]]|[Hne Ht]]%lookup_insert_Some.
      - exists evs, []. split; [done|]. split; [lia | constructor].
      - clear Hne. revert h' u' due' Ht. apply (timed_keep evs st _ t0 Htimed).
        intros h' u' due' Ht. destruct (Hsub0 _ _ Ht) as [Ht0 Hu]. simpl in Hu.
        split; [done|]. split; congruence. }
    destruct (updateTimeouts st !! u) as [h|] eqn:Hu; simpl; by apply Hgoal.
  - unfold onDidSaveTextDocument.
    destruct (String.eqb_spec lang "oml") as [->|Hlang]; simpl.
    2:{ split; [rewrite elapsed_app; simpl; lia|].
        apply (timed_keep evs st _ (timers st) Htimed).
        intros h' u' due' Ht. split; [done|]. split; congruence. }
    rewrite (consistent_truthy st u Hst).
    destruct (cancel_consistent st u Hst) as (_ & _ & Hsub).
    destruct (updateTimeouts st !! u) as [h|] eqn:Hu; simpl.
    + split; [simpl; rewrite elapsed_app; simpl; lia|]. simpl.
      apply (timed_keep evs st _ (delete h (timers st)) Htimed).
      intros h' u' due' Ht. destruct (Hsub _ _ Ht) as [Ht0 Hu']. simpl in Hu'.
      split; [done|]. split; congruence.
    + split; [simpl; rewrite elapsed_app; simpl; lia|]. simpl.
      apply (timed_keep evs st _ (timers st) Htimed).
      intros h' u' due' Ht. destruct (Hsub _ _ Ht) as [Ht0 Hu']. simpl in Hu'.
      split; [done|]. split; congruence.
  - split; [simpl; rewrite elapsed_app; simpl; lia|]. simpl.
    apply (timed_keep evs st _ (timers st) Htimed).
    intros h' u' due' Ht. split; [done|]. split; congruence.
  - unfold onTimeout. destruct (timers st !! h) as [[u due]|] eqn:Ht.
    2:{ split; [rewrite elapsed_app; simpl; lia|].
        apply (timed_keep evs st _ (timers st) Htimed).
        intros h' u' due' Ht'. split; [done|]. split; congruence. }
    destruct (due <=? now st).
    2:{ split; [rewrite elapsed_app; simpl; lia|].
        apply (timed_keep evs st _ (timers st) Htimed).
        intros h' u' due' Ht'. split; [done|]. split; congruence. }
    split; [simpl; rewrite elapsed_app; simpl; lia|]. simpl.
    apply (timed_keep evs st _ (delete h (timers st)) Htimed).
    intros h' u' due' [_ Ht']%lookup_delete_Some. split; [done|]. split; congruence.
Qed.

Lemma after_timed evs : timed evs (after evs).
Proof.
  induction evs as [|ev evs IH] using rev_ind.
  - split; [done|]. intros h u due H. simpl in H. by rewrite lookup_empty in H.
  - rewrite after_snoc. apply handle_timed; [apply after_consistent | exact IH].
Qed.

(** X25: When a timeout makes the extension request an update for a
    document, the document was last changed at least 300 milliseconds
    before, and was neither changed nor saved since. *)
Theorem debounced_update_waits :
  ∀ (evs : list Event) (h : nat) (uri : string),
    requested (after (evs ++ [Timeout h])) = requested (after evs) ++ [uri] →
    ∃ evs1 evs2,
      evs = evs1 ++ Change "oml" uri :: evs2
      ∧ quiet uri evs2
      ∧ 300 ≤ elapsed evs2.
Proof.
  intros evs h uri. rewrite after_snoc. simpl. unfold onTimeout.
  destruct (after_timed evs) as [Hnow Hhist].
  destruct (timers (after evs) !! h) as [[u due]|] eqn:Ht.
  2:{ intros Heq. apply (f_equal length) in Heq. rewrite length_app in Heq. simpl in Heq. lia. }
  destruct (Nat.leb_spec due (now (after evs))) as [Hdue|Hnot].
  2:{ intros Heq. apply (f_equal length) in Heq. rewrite length_app in Heq. simpl in Heq. lia. }
  simpl. intros [_ [= ->]]%app_inj_tail.
  destruct (Hhist _ _ _ Ht) as (evs1 & evs2 & Hevs & -> & Hq).
  exists evs1, evs2. split; [done|]. split; [done|].
  rewrite Hnow, Hevs, elapsed_app in Hdue. simpl in Hdue. lia.
Qed.

(** A change, 300 milliseconds, the timeout. *)
Lemma debounced_update_waits_witness :
  ∃ evs1 evs2,
    [Change "oml" "file:///a.oml"; Elapse 300]
    = evs1 ++ Change "oml" "file:///a.oml" :: evs2
    ∧ quiet "file:///a.oml" evs2
    ∧ 300 ≤ elapsed evs2.
Proof.
  apply (debounced_update_waits [Change "oml" "file:///a.oml"; Elapse 300] 1
           "file:///a.oml").
  vm_compute. reflexivity.
Defined.

Lemma handle_quiet st ev u :
  consistent st → updateTimeouts st !! u = None →
  ev ≠ Change "oml" u → ev ≠ Save "oml" u →
  updateTimeouts (handle st ev) !! u = None
  ∧ requestsFor u (handle st ev) = requestsFor u st.
Proof.
  intros Hst Hu Hc Hs. pose proof Hst as ([H1 H2] & _ & _).
  assert (∀ u', u' ≠ u →
                filter (fun x => x = u) (requested st ++ [u'])
                = filter (fun x => x = u) (requested st)) as Hfilter.
  { intros u' Hne. rewrite filter_app, filter_cons_False, filter_nil by done.
    by rewrite app_nil_r. }
  destruct ev as [lang u'|lang u'|ms|h]; simpl.
  - unfold onDidChangeTextDocument.
    destruct (String.eqb_spec lang "oml") as [->|Hlang]; simpl; [|done].
    assert (u' ≠ u) as Hne by congruence.
    rewrite (consistent_truthy st u' Hst).
    destruct (updateTimeouts st !! u') as [h|]; simpl;
      (split; [by rewrite lookup_insert_ne | done]).
  - unfold onDidSaveTextDocument.
    destruct (String.eqb_spec lang "oml") as [->|Hlang]; simpl; [|done].
    assert (u' ≠ u) as Hne by congruence.
    rewrite (consistent_truthy st u' Hst). unfold requestsFor.
    destruct (updateTimeouts st !! u') as [h|]; simpl;
      (split; [by rewrite ?lookup_delete_ne | by apply Hfilter]).
  - done.
  - unfold onTimeout. destruct (timers st !! h) as [[u' due]|] eqn:Ht; [|done].
    destruct (due <=? now st); [|done].
    assert (u' ≠ u) as Hne.
    { intros ->. apply H1 in Ht. congruence. }
    unfold requestsFor. simpl.
    split; [by rewrite lookup_delete_ne | by apply Hfilter].
Qed.

Lemma foldl_quiet evs st u :
  consistent st → updateTimeouts st !! u = None → quiet u evs →
  requestsFor u (foldl handle st evs) = requestsFor u st.
Proof.
  revert st. induction evs as [|ev evs IH]; intros st Hst Hu Hq; [done|].
  apply Forall_cons in Hq as [[Hc Hs] Hq]. simpl.
  destruct (handle_quiet st ev u Hst Hu Hc Hs) as [Hu' Hreq].
  rewrite IH; [done | by apply handle_consistent | done | done].
Qed.

(** X26: A save of an OML document requests its update at once and cancels
    the update that is pending for it: until the document is changed or
    saved again, whatever happens to other documents and whichever
    timeouts run, no further update is requested for it. *)
Theorem save_cancels_pending_update :
  ∀ (evs later : list Event) (uri : string),
    quiet uri later →
    pendingFor uri (after (evs ++ [Save "oml" uri])) = ∅
    ∧ requestsFor uri (after (evs ++ Save "oml" uri :: later))
      = requestsFor uri (after evs) ++ [uri].
Proof.
  intros evs later uri Hq.
  pose proof (after_consistent evs) as Hst.
  pose proof (after_consistent (evs ++ [Save "oml" uri])) as Hst'.
  assert (updateTimeouts (after (evs ++ [Save "oml" uri])) !! uri = None
          ∧ requestsFor uri (after (evs ++ [Save "oml" uri]))
            = requestsFor uri (after evs) ++ [uri]) as [Hnone Hreq].
  { rewrite after_snoc. simpl. unfold onDidSaveTextDocument. simpl.
    rewrite (consistent_truthy _ uri Hst). unfold requestsFor.
    destruct (updateTimeouts (after evs) !! uri) as [h|] eqn:Hu; simpl;
      rewrite filter_app, filter_cons_True, filter_nil by done;
      (split; [by rewrite ?lookup_delete_eq | done]). }
  split.
  - by rewrite (pendingFor_recorded _ uri Hst'), Hnone.
  - rewrite (cons_middle _ evs later), app_assoc. unfold after at 1.
    rewrite foldl_app. fold (after (evs ++ [Save "oml" uri])).
    by rewrite foldl_quiet.
Qed.

(** A change, a save, and then the timeout of the change. *)
Lemma save_cancels_pending_update_witness :
  pendingFor "file:///a.oml"
    (after ([Change "oml" "file:///a.oml"] ++ [Save "oml" "file:///a.oml"])) = ∅
  ∧ requestsFor "file:///a.oml"
      (after ([Change "oml" "file:///a.oml"]
              ++ Save "oml" "file:///a.oml" :: [Elapse 300; Timeout 1]))
    = requestsFor "file:///a.oml" (after [Change "oml" "file:///a.oml"])
      ++ ["file:///a.oml"].
Proof.
  apply (save_cancels_pending_update [Change "oml" "file:///a.oml"]
           [Elapse 300; Timeout 1] "file:///a.oml").
  repeat constructor; discriminate.
Defined.

End Debounce.

(** ** The login: the PKCE code verifier *)

Section Base64Url.
Import AuthBrowser.

Lemma sextet_base64 (n : nat) : base64Char (sextet n) = true.
Proof.
  do 64 (destruct n as [|n]; [vm_compute; reflexivity|]). reflexivity.
Qed.

Lemma allChars_append (p : ascii → bool) (s t : string) :
  allChars p (s +:+ t) = allChars p s && allChars p t.
Proof.
  induction s as [|x s IH]; [by rewrite append_nil_l|].
  rewrite append_cons. simpl. by rewrite IH, andb_assoc.
Qed.

(** What [btoa] gives: characters of the alphabet, four for every three
    code units, then the padding. *)
Lemma btoaFrom_shape (k : nat) :
  ∀ codes, length codes ≤ k →
    ∃ body pad,
      btoaFrom codes = body +:+ pad
      ∧ allChars base64Char body = true
      ∧ (pad = "" ∨ pad = "=" ∨ pad = "==")
      ∧ 4 * length codes ≤ 3 * String.length body < 4 * length codes + 3.
Proof.
  induction k as [|k IH]; intros codes Hlen.
  - destruct codes; [|simpl in Hlen; lia]. exists "", "". simpl. repeat split; auto; lia.
  - destruct codes as [|a [|b [|c rest]]].
    + exists "", "". simpl. repeat split; auto; lia.
    + exists (String (sextet (a / 4)) (String (sextet (a mod 4 * 16)) "")), "==".
      split; [reflexivity|]. split; [simpl; by rewrite !sextet_base64|].
      split; [auto|]. simpl. lia.
    + exists (String (sextet (a / 4))
                (String (sextet (a mod 4 * 16 + b / 16))
                   (String (sextet (b mod 16 * 4)) ""))), "=".
      split; [reflexivity|]. split; [simpl; by rewrite !sextet_base64|].
      split; [auto|]. simpl. lia.
    + destruct (IH rest) as (body & pad & Hrest & Hbody & Hpad & Hsize);
        [simpl in Hlen; lia|].
      exists (String (sextet (a / 4))
                (String (sextet (a mod 4 * 16 + b / 16))
                   (String (sextet (b mod 16 * 4 + c / 64))
                      (String (sextet (c mod 64)) body)))), pad.
      split; [|split; [|split; [done|]]].
      * change (btoaFrom (a :: b :: c :: rest))
          with (String (sextet (a / 4))
                  (String (sextet (a mod 4 * 16 + b / 16))
                     (String (sextet (b mod 16 * 4 + c / 64))
                        (String (sextet (c mod 64)) (btoaFrom rest))))).
        by rewrite Hrest, !append_cons.
      * simpl. by rewrite !sextet_base64, Hbody.
      * simpl. lia.
Qed.

Lemma replaceAll_append (c d : ascii) (s t : string) :
  replaceAll c d (s +:+ t) = replaceAll c d s +:+ replaceAll c d t.
Proof.
  induction s as [|x s IH]; [by rewrite !append_nil_l|].
  rewrite append_cons. simpl. by rewrite IH, append_cons.
Qed.

Lemma replaceAll_length (c d : ascii) (s : string) :
  String.length (replaceAll c d s) = String.length s.
Proof. induction s as [|x s IH]; [done|]. simpl. by rewrite IH. Qed.

Lemma replaced_urlSafe (body : string) :
  allChars base64Char body = true →
  allChars urlSafe (replaceAll "/" "_" (replaceAll "+" "-" body)) = true.
Proof.
  induction body as [|x body IH]; [done|]. simpl.
  intros [Hx Hbody]%andb_true_iff. rewrite (IH Hbody), andb_true_r.
  unfold base64Char in Hx.
  destruct (Ascii.eqb_spec x "+") as [->|Hplus]; [reflexivity|].
  destruct (Ascii.eqb_spec x "/") as [->|Hslash]; [reflexivity|].
  simpl in Hx. by rewrite !orb_false_r in Hx.
Qed.

Lemma urlSafe_not_equals (x : ascii) : urlSafe x = true → Ascii.eqb "=" x = false.
Proof.
  intros Hx. destruct (Ascii.eqb_spec "=" x) as [<-|]; [|done]. discriminate Hx.
Qed.

Lemma exec_from_trailingEquals (inp body pad : string) :
  allChars urlSafe body = true →
  pad = "" ∨ pad = "=" ∨ pad = "==" →
  Regex.exec_from trailingEquals inp (body +:+ pad)
  = if String.eqb pad "" then None
    else Some (Regex.MatchResult (String.length inp - String.length pad) "" ∅).
Proof.
  intros Hbody Hpad. induction body as [|x body IH].
  - rewrite append_nil_l. by destruct Hpad as [->|[->| ->]].
  - simpl in Hbody. apply andb_true_iff in Hbody as [Hx Hbody].
    rewrite append_cons, exec_from_unfold. cbn [trailingEquals sequence Regex.run fst snd].
    cbn [Regex.plus_greedy Regex.atom_matches]. rewrite (urlSafe_not_equals x Hx).
    cbn [mbind list_bind head]. exact (IH Hbody).
Qed.

Lemma strip_trailingEquals (body pad : string) :
  allChars urlSafe body = true →
  pad = "" ∨ pad = "=" ∨ pad = "==" →
  Regex.replace_empty trailingEquals (body +:+ pad) = body.
Proof.
  intros Hbody Hpad. unfold Regex.replace_empty, Regex.exec.
  rewrite (exec_from_trailingEquals _ body pad Hbody Hpad).
  destruct Hpad as [->|[->| ->]]; simpl; rewrite ?append_nil_r; try done;
    rewrite length_append; simpl;
    match goal with
    | |- JsString.take ?n _ = _ =>
        replace n with (String.length body) by lia; apply take_append
    end.
Qed.

Lemma base64UrlEncode_shape (bytes : list ascii) :
  allChars urlSafe (base64UrlEncode bytes) = true
  ∧ 4 * length bytes ≤ 3 * String.length (base64UrlEncode bytes) < 4 * length bytes + 3.
Proof.
  unfold base64UrlEncode, btoa.
  destruct (btoaFrom_shape _ (nat_of_ascii <$> list_ascii_of_string (string_of_list_ascii bytes))
              (le_n _)) as (body & pad & -> & Hbody & Hpad & Hsize).
  rewrite length_fmap, list_ascii_of_string_of_list_ascii in Hsize.
  rewrite !replaceAll_append.
  assert (replaceAll "/" "_" (replaceAll "+" "-" pad) = pad) as ->
    by (by destruct Hpad as [->|[->| ->]]).
  pose proof (replaced_urlSafe body Hbody) as Hsafe.
  rewrite (strip_trailingEquals _ pad Hsafe Hpad).
  split; [done|]. by rewrite !replaceAll_length.
Qed.

(** X27: The Base64 URL encoding of any bytes consists of letters, digits,
    [-] and [_] only (no [+], no [/], no padding), and its length is the
    number of bytes times 4/3, rounded up.  So the code verifier made of
    32 random bytes has 43 such characters, the least length that PKCE
    allows. *)
Theorem base64UrlEncode_url_safe :
  ∀ bytes : list ascii,
    allChars urlSafe (base64UrlEncode bytes) = true
    ∧ 4 * length bytes ≤ 3 * String.length (base64UrlEncode bytes) < 4 * length bytes + 3
    ∧ ∀ fallback,
        length bytes = 32 →
        String.length (generateCodeVerifier (Some bytes) fallback) = 43
        ∧ allChars urlSafe (generateCodeVerifier (Some bytes) fallback) = true.
Proof.
  intros bytes. destruct (base64UrlEncode_shape bytes) as [Hsafe Hsize].
  split; [done|]. split; [done|]. intros fallback Hlen. simpl. split; [lia | done].
Qed.

End Base64Url.

(** ** From a double click in the webview to the answer of the server *)

Lemma startsWith_append_cons (q sfx : string) (c : ascii) :
  startsWith q (String c "") = false →
  startsWith sfx (String c "") = false →
  startsWith (q +:+ sfx) (String c "") = false.
Proof. destruct q; [done|]. by rewrite append_cons. Qed.

Lemma numbers_digits (s n r : string) :
  (n, r) ∈ DecodeTable.numbers s → allChars is_digit n = true.
Proof.
  revert n r. induction s as [|x s IH]; intros n r; simpl.
  - by intros ?%elem_of_nil.
  - destruct (is_digit x) eqn:Hx; [|by intros ?%elem_of_nil].
    intros [Hin|[= -> ->]%list_elem_of_singleton]%elem_of_app.
    + apply list_elem_of_fmap in Hin as ([n' r'] & [= -> ->] & Hin).
      simpl. by rewrite Hx, (IH _ _ Hin).
    + simpl. by rewrite Hx.
Qed.

(** What [-edge\d+$] matches is [-edge] and digits to the end. *)
Lemma run_edge_digits inp s c st' :
  st' ∈ run (sequence [word "-edge"; PlusGreedy Digit; Eol]) inp (s, c) →
  ∃ d, s = "-edge" +:+ d ∧ d ≠ "" ∧ allChars is_digit d = true.
Proof.
  rewrite run_sequence_cons, run_word.
  destruct (startsWith s "-edge") eqn:Hs; [|by intros ?%elem_of_nil].
  rewrite bind_singleton, run_sequence_cons.
  change (run (PlusGreedy Digit) inp ?st) with (plus_greedy Digit st.1 st.2).
  rewrite plus_greedy_numbers.
  intros ([r c1] & Hin & ([n r'] & [= -> ->] & Hn)%list_elem_of_fmap)%list_elem_of_bind.
  simpl in Hin, Hn. destruct r' as [|? ?]; [|by apply elem_of_nil in Hin].
  destruct (numbers_split _ _ _ Hn) as [Hsplit Hne].
  rewrite append_nil_r in Hsplit.
  exists n. split; [|split; [done | by eapply numbers_digits]].
  rewrite <- Hsplit. exact (startsWith_split _ _ Hs).
Qed.

(** A text that ends in [-edge1] or [-edge2] ends in [-edge] and digits
    in one way only. *)
Lemma edge_digits_unique (q sfx x d : string) :
  sfx = "-edge1" ∨ sfx = "-edge2" →
  d ≠ "" → allChars is_digit d = true →
  q +:+ sfx = x +:+ "-edge" +:+ d →
  q = x.
Proof.
  intros Hsfx Hne Hd. revert x. induction q as [|a q IH]; intros x Heq.
  - rewrite append_nil_l in Heq. apply (f_equal String.length) in Heq.
    rewrite !length_append in Heq. destruct x; [done|].
    destruct d; [done|]. destruct Hsfx as [-> | ->]; simpl in Heq; lia.
  - destruct x as [|b x].
    + exfalso. rewrite append_nil_l, append_cons in Heq.
      assert (allChars is_digit sfx = false) as Hsfx'
        by (by destruct Hsfx as [-> | ->]).
      destruct q as [|a1 [|a2 [|a3 [|a4 q]]]];
        try (destruct Hsfx as [-> | ->]; discriminate Heq).
      injection Heq as _ _ _ _ _ Heq. rewrite append_nil_l in Heq.
      rewrite <- Heq, allChars_append, Hsfx', andb_false_r in Hd. done.
    + rewrite !append_cons in Heq. injection Heq as -> Heq. f_equal. by apply IH.
Qed.

(** An edge of a relation entity [q] reads as an edge of a relation
    instance only when [q] ends in [-source] or [-target]: of the instance
    named by what is before. *)
Lemma relationInstanceName_edge (q sfx g : string) :
  sfx = "-edge1" ∨ sfx = "-edge2" →
  relationInstanceName (q +:+ sfx) = Some g →
  q = g +:+ "-source" ∨ q = g +:+ "-target".
Proof.
  intros Hsfx. unfold relationInstanceName. intros (st' & Hin & Hq)%capture1_bol.
  apply run_group1 in Hin as (g' & r & c1 & Hsplit & Hg & HinR); [|done].
  rewrite Hq in Hg. injection Hg as <-.
  change (st' ∈ run (sequence [word "-"; Alt (word "source") (word "target");
                               word "-edge"; PlusGreedy Digit; Eol])
                    (q +:+ sfx) (r, c1)) in HinR.
  rewrite run_sequence_cons, run_word in HinR.
  destruct (startsWith r "-") eqn:Hr; [|by apply elem_of_nil in HinR].
  rewrite bind_singleton, run_sequence_cons in HinR.
  change (run (Alt (word "source") (word "target")) ?i ?st)
    with (run (word "source") i st ++ run (word "target") i st) in HinR.
  rewrite !run_word in HinR.
  apply list_elem_of_bind in HinR as ([r2 c2] & HinR & Hrole).
  destruct (run_edge_digits _ _ _ _ HinR) as (d & Hr2 & Hne & Hd).
  assert (∃ role, (role = "source" ∨ role = "target")
                  ∧ drop (String.length "-") r = role +:+ r2) as (role & Hrole' & Hr1).
  { apply elem_of_app in Hrole as [Hrole|Hrole].
    - destruct (startsWith (drop (String.length "-") r) "source") eqn:Hs;
        [|by apply elem_of_nil in Hrole].
      apply list_elem_of_singleton in Hrole as [= -> ->].
      exists "source". split; [by left | by apply startsWith_split].
    - destruct (startsWith (drop (String.length "-") r) "target") eqn:Hs;
        [|by apply elem_of_nil in Hrole].
      apply list_elem_of_singleton in Hrole as [= -> ->].
      exists "target". split; [by right | by apply startsWith_split]. }
  assert (q +:+ sfx = (g +:+ "-" +:+ role) +:+ "-edge" +:+ d) as Heq.
  { rewrite Hsplit, (startsWith_split _ _ Hr), Hr1, Hr2.
    by rewrite <- !append_assoc. }
  rewrite (edge_digits_unique _ _ _ _ Hsfx Hne Hd Heq).
  destruct Hrole' as [-> | ->]; [by left | by right].
Qed.

Lemma onRequest_by_member_name {E} (getOrCreateDocument : string → completion E (option nat))
    (store : Workspace.Store) (uri elementId elementId' memberName : string) :
  NavigateToElement.looksLikeNamespace elementId = false →
  NavigateToElement.looksLikeNamespace elementId' = false →
  NavigateToElement.decodeMemberName elementId = Some memberName →
  NavigateToElement.decodeMemberName elementId' = Some memberName →
  NavigateToElementRequest.onRequest getOrCreateDocument store uri elementId
  = NavigateToElementRequest.onRequest getOrCreateDocument store uri elementId'.
Proof.
  intros Hns Hns' Hd Hd'.
  unfold NavigateToElementRequest.onRequest, NavigateToElementRequest.tryBlock,
    NavigateToElementRequest.byNamespace.
  by rewrite Hns, Hns', Hd, Hd'.
Qed.

(** X28: A double click on either edge of a relation entity leads the server
    to the same answer as the name of the relation entity.  Let [q] be a
    name that begins with neither a backslash nor [[], that the server
    decodes to itself (as it does [Rel1]) and that, like the id of its
    edge, does not look like a namespace.  Whatever model the webview has,
    or none, provided that, where [q] ends in [-source] or [-target], the
    model has the node [q] as a relation entity or does not have what is
    before as a relation instance: the webview sends [q] or sends the id
    of the edge on undecoded ([q] when its model has the node [q] of kind
    relation-entity, the id when it has no model), and the server gives
    for what is sent the answer it gives for [q]: what the webview leaves
    undone, the decoding step of the server does. *)
Theorem relation_edge_navigates_to_entity :
  ∀ {E} (getOrCreateDocument : string → completion E (option nat))
    (store : Workspace.Store) (uri : string) (model : option SElement) (q sfx : string),
    sfx = "-edge1" ∨ sfx = "-edge2" →
    startsWith q "\" = false →
    startsWith q "[" = false →
    NavigateToElement.decodeMemberName q = Some q →
    NavigateToElement.looksLikeNamespace q = false →
    NavigateToElement.looksLikeNamespace (q +:+ sfx) = false →
    (∀ m g,
       model = Some m →
       q = g +:+ "-source" ∨ q = g +:+ "-target" →
       NavigationHandler.isNodeOfKind (findElementById m q) "relation-entity" = true
       ∨ NavigationHandler.isNodeOfKind (findElementById m g) "relation-instance" = false) →
    let answerFor := NavigateToElementRequest.onRequest getOrCreateDocument store uri in
    let sent := NavigationHandler.resolveNavigationId model (q +:+ sfx) in
    (sent = q ∨ sent = q +:+ sfx)
    ∧ (model = None → sent = q +:+ sfx)
    ∧ (∀ m, model = Some m →
            NavigationHandler.isNodeOfKind (findElementById m q) "relation-entity" = true →
            sent = q)
    ∧ answerFor sent = answerFor q.
Proof.
  intros E getDoc store uri model q sfx Hsfx Hbs Hbr Hq Hns Hns' Hinst answerFor sent.
  destruct (relationEntityEdgeId_append q sfx Hsfx) as [Hedge Htake].
  assert (answerFor (q +:+ sfx) = answerFor q) as Hserver.
  { apply (onRequest_by_member_name getDoc store uri _ _ q); try done.
    rewrite decodeMemberName_branches, Hedge, Htake.
    rewrite serverBracket_backslash; [done|].
    apply startsWith_append_cons; [done|]. by destruct Hsfx as [-> | ->]. }
  assert (∀ m, model = Some m →
               NavigationHandler.isNodeOfKind (findElementById m q) "relation-entity" = true →
               sent = q) as Hentity.
  { intros m -> Hnode. unfold sent.
    by rewrite resolveNavigationId_branches, Hedge, Htake, Hnode. }
  assert (sent = q ∨ sent = q +:+ sfx) as Hsent.
  { destruct model as [m|]; [|by right].
    destruct (NavigationHandler.isNodeOfKind (findElementById m q) "relation-entity")
      eqn:Hnode; [left; by apply (Hentity m)|].
    right. unfold sent. rewrite resolveNavigationId_branches, Hedge, Htake, Hnode.
    assert (webviewBracket (q +:+ sfx) = None) as ->.
    { apply webviewBracket_bracket, startsWith_append_cons; [done|].
      by destruct Hsfx as [-> | ->]. }
    simpl. destruct (relationInstanceName (q +:+ sfx)) as [g|] eqn:Hg; [|done].
    destruct (Hinst m g eq_refl (relationInstanceName_edge q sfx g Hsfx Hg)) as [H|H].
    - by rewrite Hnode in H.
    - by rewrite H. }
  split; [exact Hsent|]. split; [by intros ->|]. split; [exact Hentity|].
  destruct Hsent as [-> | ->]; done.
Qed.

(** The second edge of the relation entity [Q], in a model that has the
    node [Q] of kind relation-entity. *)
Lemma relation_edge_navigates_to_entity_witness :
  let answerFor :=
    NavigateToElementRequest.onRequest (E := unit) (fun _ => Normal (Some 0))
      cyclicStore "file:///a.oml" in
  let sent :=
    NavigationHandler.resolveNavigationId (Some relationEntityRoot) ("Q" +:+ "-edge2") in
  (sent = "Q" ∨ sent = "Q" +:+ "-edge2")
  ∧ (Some relationEntityRoot = None → sent = "Q" +:+ "-edge2")
  ∧ (∀ m, Some relationEntityRoot = Some m →
          NavigationHandler.isNodeOfKind (findElementById m "Q") "relation-entity" = true →
          sent = "Q")
  ∧ answerFor sent = answerFor "Q".
Proof.
  apply (relation_edge_navigates_to_entity (E := unit) (fun _ => Normal (Some 0))
           cyclicStore "file:///a.oml" (Some relationEntityRoot) "Q" "-edge2"
           (or_intror eq_refl) eq_refl eq_refl eq_refl eq_refl eq_refl).
  intros m g [= <-] _. left. reflexivity.
Defined.

(** A name that ends in a digit: the server decodes it to itself, and
    its edge to it. *)
Example server_decodes_edge_of_numbered_name :
  NavigateToElement.decodeMemberName "Rel1" = Some "Rel1"
  ∧ NavigateToElement.decodeMemberName "Rel1-edge1" = Some "Rel1"
  ∧ NavigationHandler.resolveNavigationId None "Rel1-edge1" = "Rel1-edge1".
Proof. vm_compute. done. Qed.

(** Where the name ends in [-source] and the model has what is before as
    a relation instance, the webview sends the name of the instance. *)
Example edge_read_as_relation_instance :
  NavigationHandler.resolveNavigationId (Some relationInstanceRoot) "Q-source-edge1" = "Q"
  ∧ NavigateToElement.decodeMemberName "Q-source" = Some "Q-source"
  ∧ NavigateToElement.decodeMemberName "Q" = Some "Q".
Proof. vm_compute. done. Qed.

(** ** The login: the callback carries the state of this login *)

Section LoginCallback.
Import AuthBrowser.
Variable callbackAuthority : string.
Variable state : string.

Lemma settled_stays (o : Outcome) (evs : list LoginEvent) :
  o ≠ Pending → foldl (onLoginEvent callbackAuthority state) o evs = o.
Proof.
  revert o. induction evs as [|ev evs IH]; intros o Ho; [done|]. simpl.
  assert (onLoginEvent callbackAuthority state o ev = o) as ->; [|by apply IH].
  destruct o; [done|..]; destruct ev as [uri| |]; simpl; try done;
    unfold handleUri; repeat (case_match; try done).
Qed.

Lemma awaited_resolved (evs : list LoginEvent) (code : string) :
  foldl (onLoginEvent callbackAuthority state) Pending evs = Resolved code →
  ∃ pre uri post received,
    evs = pre ++ Callback uri :: post
    ∧ Forall (ignoredCallback callbackAuthority) pre
    ∧ authority uri = callbackAuthority
    ∧ path uri = callbackPath
    ∧ get "state" (searchParams uri) = Some state
    ∧ get "code" (searchParams uri) = Some received
    ∧ received ≠ ""
    ∧ code = trim received.
Proof.
  induction evs as [|ev evs IH]; [done|]. simpl.
  destruct ev as [uri| |]; simpl.
  - unfold handleUri.
    destruct (String.eqb_spec (authority uri) callbackAuthority) as [Ha|Ha]; simpl.
    2:{ intros (pre & uri' & post & received & -> & Hpre & H)%IH.
        exists (Callback uri :: pre), uri', post, received. split; [done|].
        split; [|done]. constructor; [by left | done]. }
    destruct (String.eqb_spec (path uri) callbackPath) as [Hp|Hp]; simpl.
    2:{ intros (pre & uri' & post & received & -> & Hpre & H)%IH.
        exists (Callback uri :: pre), uri', post, received. split; [done|].
        split; [|done]. constructor; [by right | done]. }
    case_bool_decide as Hstate; simpl; [|by rewrite settled_stays].
    destruct (get "code" (searchParams uri)) as [received|] eqn:Hcode;
      [|by rewrite settled_stays].
    destruct (String.eqb_spec received "") as [->|Hne]; [by rewrite settled_stays|].
    rewrite settled_stays by done. intros [= <-].
    exists [], uri, evs, received. repeat split; try done.
  - by rewrite settled_stays.
  - by rewrite settled_stays.
Qed.

End LoginCallback.

(** X29: The login persists a token only for a callback that carries the
    state generated for this login: there is then a callback for the
    callback authority and path, with that state and a code that is not
    empty, before which every event was a callback for another authority
    or path, and the token is what the exchange returned for the trimmed
    code.  A timeout, a cancellation or a callback with another state
    that comes first ends the login without a token, whatever follows. *)
Theorem login_needs_matching_state :
  ∀ {E} (callbackAuthority state : string)
    (exchange : string → completion E string)
    (evs : list AuthBrowser.LoginEvent) (token : string),
    AuthBrowser.persistedToken callbackAuthority state exchange evs = Some token →
    ∃ pre uri post received,
      evs = pre ++ AuthBrowser.Callback uri :: post
      ∧ Forall (ignoredCallback callbackAuthority) pre
      ∧ AuthBrowser.authority uri = callbackAuthority
      ∧ AuthBrowser.path uri = AuthBrowser.callbackPath
      ∧ AuthBrowser.get "state" (AuthBrowser.searchParams uri) = Some state
      ∧ AuthBrowser.get "code" (AuthBrowser.searchParams uri) = Some received
      ∧ received ≠ ""
      ∧ exchange (AuthBrowser.trim received) = Normal token.
Proof.
  intros E callbackAuthority state exchange evs token.
  unfold AuthBrowser.persistedToken, AuthBrowser.awaited.
  destruct (foldl _ _ evs) as [|code|message] eqn:Hawaited; [done| |done].
  destruct (exchange code) as [token'|e] eqn:Hexchange; [|done]. intros [= ->].
  destruct (awaited_resolved _ _ _ _ Hawaited)
    as (pre & uri & post & received & Hevs & Hpre & Ha & Hp & Hs & Hc & Hne & ->).
  exists pre, uri, post, received. repeat split; done.
Qed.

(** A callback for another path, then the callback of this login. *)
Lemma login_needs_matching_state_witness :
  ∃ pre uri post received,
    loginEvents = pre ++ AuthBrowser.Callback uri :: post
    ∧ Forall (ignoredCallback "modelware.oml-code") pre
    ∧ AuthBrowser.authority uri = "modelware.oml-code"
    ∧ AuthBrowser.path uri = AuthBrowser.callbackPath
    ∧ AuthBrowser.get "state" (AuthBrowser.searchParams uri) = Some "s1"
    ∧ AuthBrowser.get "code" (AuthBrowser.searchParams uri) = Some received
    ∧ received ≠ ""
    ∧ (fun code => Normal (E := unit) ("token-for-" +:+ code)) (AuthBrowser.trim received)
      = Normal "token-for-abc".
Proof.
  apply (login_needs_matching_state (E := unit) "modelware.oml-code" "s1"
           (fun code => Normal ("token-for-" +:+ code)) loginEvents "token-for-abc").
  vm_compute. reflexivity.
Defined.

(** ** The desktop login: the state of the callback is optional *)

Section DesktopLogin.
Import AuthBrowser.
Variable callbackAuthority : string.
Variable state : string.

Lemma desktop_settled_stays (o : Outcome) (evs : list LoginEvent) :
  o ≠ Pending → foldl (AuthManager.onLoginEvent callbackAuthority state) o evs = o.
Proof.
  revert o. induction evs as [|ev evs IH]; intros o Ho; [done|]. simpl.
  assert (AuthManager.onLoginEvent callbackAuthority state o ev = o) as ->; [|by apply IH].
  destruct o; [done|..]; destruct ev as [uri| |]; simpl; try done;
    unfold AuthManager.handleUri; repeat (case_match; try done).
Qed.

Lemma desktop_skipped (ev : LoginEvent) (o : Outcome) :
  skippedCallback callbackAuthority state ev →
  AuthManager.onLoginEvent callbackAuthority state o ev = o.
Proof.
  destruct ev as [uri| |]; [|done..]. simpl. unfold AuthManager.handleUri.
  destruct (String.eqb_spec (authority uri) callbackAuthority) as [Ha|Ha]; [|done].
  destruct (String.eqb_spec (path uri) callbackPath) as [Hp|Hp]; [|done]. simpl.
  intros [H|[H|(received & -> & Hne & Hns)]]; [done..|].
  destruct (String.eqb_spec received "") as [|_]; [done|].
  by destruct (String.eqb_spec received state) as [|_].
Qed.

Lemma desktop_accepts (uri : CallbackUri) (code : string) :
  authority uri = callbackAuthority →
  path uri = callbackPath →
  noState uri ∨ get "state" (searchParams uri) = Some state →
  get "code" (searchParams uri) = Some code →
  code ≠ "" →
  AuthManager.handleUri callbackAuthority state uri Pending = Resolved code.
Proof.
  intros Ha Hp Hstate Hcode Hne. unfold AuthManager.handleUri.
  rewrite Ha, Hp, !String.eqb_refl. simpl. rewrite Hcode.
  assert (String.eqb code "" = false) as -> by (by apply String.eqb_neq).
  destruct Hstate as [[-> | ->]| ->]; simpl; [done | done |].
  by rewrite String.eqb_refl, andb_false_r.
Qed.

Lemma desktop_awaited_resolved (evs : list LoginEvent) (code : string) :
  foldl (AuthManager.onLoginEvent callbackAuthority state) Pending evs = Resolved code →
  ∃ pre uri post,
    evs = pre ++ Callback uri :: post
    ∧ Forall (skippedCallback callbackAuthority state) pre
    ∧ authority uri = callbackAuthority
    ∧ path uri = callbackPath
    ∧ (noState uri ∨ get "state" (searchParams uri) = Some state)
    ∧ get "code" (searchParams uri) = Some code
    ∧ code ≠ "".
Proof.
  induction evs as [|ev evs IH]; [done|]. simpl.
  assert (skippedCallback callbackAuthority state ev →
          foldl (AuthManager.onLoginEvent callbackAuthority state)
            (AuthManager.onLoginEvent callbackAuthority state Pending ev) evs
          = Resolved code →
          ∃ pre uri post,
            ev :: evs = pre ++ Callback uri :: post
            ∧ Forall (skippedCallback callbackAuthority state) pre
            ∧ authority uri = callbackAuthority
            ∧ path uri = callbackPath
            ∧ (noState uri ∨ get "state" (searchParams uri) = Some state)
            ∧ get "code" (searchParams uri) = Some code
            ∧ code ≠ "") as Hskip.
  { intros Hs. rewrite (desktop_skipped ev Pending Hs).
    intros (pre & uri' & post & -> & Hpre & H)%IH.
    exists (ev :: pre), uri', post. split; [done|]. split; [by constructor | done]. }
  destruct ev as [uri| |]; simpl; [|by rewrite desktop_settled_stays..].
  destruct (String.eqb_spec (authority uri) callbackAuthority) as [Ha|Ha];
    [|apply Hskip; by left].
  destruct (String.eqb_spec (path uri) callbackPath) as [Hp|Hp];
    [|apply Hskip; right; by left].
  assert ((noState uri ∨ get "state" (searchParams uri) = Some state)
          ∨ ∃ received, get "state" (searchParams uri) = Some received
                        ∧ received ≠ "" ∧ received ≠ state) as [Hstate|Hmis].
  { unfold noState. destruct (get "state" (searchParams uri)) as [received|]; [|by left; left; left].
    destruct (String.eqb_spec received "") as [->|Hne]; [by left; left; right|].
    destruct (String.eqb_spec received state) as [->|Hns]; [by left; right|].
    right. by exists received. }
  2:{ apply Hskip. right. by right. }
  unfold AuthManager.handleUri. rewrite Ha, Hp, !String.eqb_refl. simpl.
  assert (match get "state" (searchParams uri) with
          | Some received => negb (String.eqb received "") && negb (String.eqb received state)
          | None => false
          end = false) as ->.
  { destruct Hstate as [[-> | ->]| ->]; simpl; [done | done |].
    by rewrite String.eqb_refl, andb_false_r. }
  destruct (get "code" (searchParams uri)) as [received|] eqn:Hcode;
    [|by rewrite desktop_settled_stays].
  destruct (String.eqb_spec received "") as [->|Hne]; [by rewrite desktop_settled_stays|].
  rewrite desktop_settled_stays by done. intros [= <-].
  exists [], uri, evs. repeat split; try done.
Qed.

End DesktopLogin.

(** X30: The desktop login compares the state of a callback only when the
    callback carries one.  So the token it persists comes from a callback
    for the callback authority and path with a code that is not empty,
    whose state is the state of this login or absent or empty, every
    event before it being a callback that the handler skipped; and every
    such callback without a state does complete the login, where the web
    extension rejects it with a state mismatch. *)
Theorem desktop_login_state_optional :
  ∀ {E} (callbackAuthority state : string) (exchange : string → completion E string),
    (∀ evs token,
       AuthManager.persistedToken callbackAuthority state exchange evs = Some token →
       ∃ pre uri post code,
         evs = pre ++ AuthBrowser.Callback uri :: post
         ∧ Forall (skippedCallback callbackAuthority state) pre
         ∧ AuthBrowser.authority uri = callbackAuthority
         ∧ AuthBrowser.path uri = AuthBrowser.callbackPath
         ∧ (noState uri
            ∨ AuthBrowser.get "state" (AuthBrowser.searchParams uri) = Some state)
         ∧ AuthBrowser.get "code" (AuthBrowser.searchParams uri) = Some code
         ∧ code ≠ ""
         ∧ exchange code = Normal token)
    ∧ (∀ pre uri post code token,
         Forall (skippedCallback callbackAuthority state) pre →
         AuthBrowser.authority uri = callbackAuthority →
         AuthBrowser.path uri = AuthBrowser.callbackPath →
         AuthBrowser.get "state" (AuthBrowser.searchParams uri) = None →
         AuthBrowser.get "code" (AuthBrowser.searchParams uri) = Some code →
         code ≠ "" →
         exchange code = Normal token →
         AuthManager.persistedToken callbackAuthority state exchange
           (pre ++ AuthBrowser.Callback uri :: post) = Some token
         ∧ AuthBrowser.handleUri callbackAuthority state uri AuthBrowser.Pending
           = AuthBrowser.Rejected "State mismatch in callback").
Proof.
  intros E callbackAuthority state exchange. split.
  - intros evs token. unfold AuthManager.persistedToken, AuthManager.awaited.
    destruct (foldl _ _ evs) as [|code|message] eqn:Hawaited; [done| |done].
    destruct (exchange code) as [token'|e] eqn:Hexchange; [|done]. intros [= ->].
    destruct (desktop_awaited_resolved _ _ _ _ Hawaited)
      as (pre & uri & post & Hevs & Hpre & Ha & Hp & Hs & Hc & Hne).
    exists pre, uri, post, code. repeat split; done.
  - intros pre uri post code token Hpre Ha Hp Hs Hc Hne Hexchange. split.
    + unfold AuthManager.persistedToken, AuthManager.awaited.
      rewrite foldl_app. simpl.
      assert (foldl (AuthManager.onLoginEvent callbackAuthority state)
                AuthBrowser.Pending pre = AuthBrowser.Pending) as ->.
      { clear -Hpre. induction Hpre as [|ev pre Hev _ IH]; [done|]. simpl.
        by rewrite (desktop_skipped _ _ ev _ Hev). }
      rewrite (desktop_accepts callbackAuthority state uri code Ha Hp) by
        (try done; by left; left).
      rewrite desktop_settled_stays by done. by rewrite Hexchange.
    + unfold AuthBrowser.handleUri. by rewrite Ha, Hp, !String.eqb_refl, Hs.
Qed.

(** A callback that carries a code and no state completes the desktop
    login. *)
Lemma desktop_login_state_optional_witness :
  AuthManager.persistedToken (E := unit) "modelware.oml-code" "s1"
    (fun code => Normal ("token-for-" +:+ code))
    ([] ++ AuthBrowser.Callback statelessCallback :: [])
  = Some "token-for-abc"
  ∧ AuthBrowser.handleUri "modelware.oml-code" "s1" statelessCallback AuthBrowser.Pending
    = AuthBrowser.Rejected "State mismatch in callback".
Proof.
  apply (proj2 (desktop_login_state_optional (E := unit) "modelware.oml-code" "s1"
                  (fun code => Normal ("token-for-" +:+ code)))
           [] statelessCallback [] "abc" "token-for-abc");
    [constructor | reflexivity | reflexivity | reflexivity | reflexivity | discriminate
    | reflexivity].
Defined.
